(** * deep-calcium: the 1D U-Net spike-segmentation pipeline

    A shallow embedding of
      - [deepcalcium/models/spikes/utils.py]: the Keras metrics [prec], [reca],
        [F2], their margin-tolerant variants and [maxpool1D];
      - [deepcalcium/models/spikes/unet_1d_segmentation.py]: the batch
        generator [_batch_gen], the index bookkeeping of [fit] and [predict].

    Tensors are lists of rows of rationals (batch x length) and the arithmetic
    of the metrics is exact; the Keras backend calls ([K.round], [K.clip],
    [K.sum], [K.pool2d], [K.epsilon]) are modelled after their documented
    TensorFlow behaviour.  NumPy's random generator is threaded through the
    generator as an explicit state. *)

From Stdlib Require Import QArith Qround Qminmax Qpower Qabs Lqa Floats.SpecFloat.
From stdpp Require Import gmap strings list fin_maps sorting.

Local Open Scope Q_scope.

(** ** The Keras backend *)

Abbreviation tensor := (list (list Q)) (only parsing).

(** [K.epsilon()]: the fuzz factor of the backend, 1e-7 unless reconfigured. *)
Definition K_epsilon : Q := 1 # 10000000.

(** [K.round]: element-wise rounding, halves go to the even neighbour. *)
Definition K_round1 (x : Q) : Q :=
  let f := Qfloor x in
  match (x - inject_Z f) ?= (1 # 2) with
  | Lt => inject_Z f
  | Gt => inject_Z (f + 1)
  | Eq => if Z.even f then inject_Z f else inject_Z (f + 1)
  end.

(** [K.clip x lo hi], element-wise. *)
Definition K_clip1 (lo hi x : Q) : Q := Qmin (Qmax x lo) hi.

Definition K_round (t : tensor) : tensor := map (map K_round1) t.
Definition K_clip (t : tensor) (lo hi : Q) : tensor := map (map (K_clip1 lo hi)) t.

(** Element-wise product and difference of two tensors of one shape. *)
Definition K_mul (a b : tensor) : tensor := zip_with (zip_with Qmult) a b.
Definition K_sub (a b : tensor) : tensor := zip_with (zip_with Qminus) a b.

(** [K.sum] without an axis: the sum of every entry. *)
Definition row_sum (r : list Q) : Q := foldr Qplus 0 r.
Definition K_sum (t : tensor) : Q := foldr (fun r acc => row_sum r + acc) 0 t.

(** [K.sum(t, axis=1)]: one sum per row. *)
Definition K_sum_axis1 (t : tensor) : list Q := map row_sum t.

(** Python's [x[lo:hi]] for [0 <= lo]. *)
Definition slice {A} (lo hi : nat) (x : list A) : list A :=
  take (hi - lo) (drop lo x).

(** Max pooling of one row with TensorFlow's "SAME" padding: the output has
    [ceil(L / s)] entries, the padding [(out - 1) * s + k - L] (when positive)
    is split with the smaller half in front, and padded positions never win
    the maximum, so entry [i] is the maximum of the row over the positions
    [i * s - pad_before <= j < i * s - pad_before + k] that exist. *)
Definition pool_out_len (L s : nat) : nat := ((L + s - 1) / s)%nat.
Definition pad_total (L k s : nat) : nat := ((pool_out_len L s - 1) * s + k - L)%nat.
Definition pad_before (L k s : nat) : nat := (pad_total L k s / 2)%nat.

Definition window_max (w : list Q) : Q :=
  match w with
  | [] => 0
  | a :: r => foldl Qmax a r
  end.

Definition pool_window (x : list Q) (k s i : nat) : list Q :=
  let pb := pad_before (length x) k s in
  slice (i * s - pb) (i * s + k - pb) x.

Definition pool_row (k s : nat) (x : list Q) : list Q :=
  map (fun i => window_max (pool_window x k s i)) (seq 0 (pool_out_len (length x) s)).

(** [K.pool2d(x4, (1, k), (1, s), padding='same')] on a tensor lifted to
    shape (1, rows, length, 1): every row is pooled on its own. *)
Definition K_pool2d_rows (k s : nat) (t : tensor) : tensor := map (pool_row k s) t.

(** ** utils.py *)

Definition maxpool1D (x : tensor) (pool_size pool_strides : nat) : tensor :=
  K_pool2d_rows pool_size pool_strides x.

Definition prec (yt yp : tensor) : Q :=
  let yp := K_round yp in
  K_sum (K_mul yp yt) / (K_sum yp + K_epsilon).

Definition reca (yt yp : tensor) : Q :=
  let yp := K_round yp in
  let tp := K_sum (K_mul yp yt) in
  let fn := K_sum (K_clip (K_sub yt yp) 0 1) in
  K_sum (K_mul yp yt) / (tp + fn + K_epsilon).

Definition F2_beta (yt yp : tensor) (beta : Q) : Q :=
  let p := prec yt yp in
  let r := reca yt yp in
  (1 + beta ^ 2) * ((p * r) / (beta ^ 2 * p + r + K_epsilon)).

Definition F2 (yt yp : tensor) : Q := F2_beta yt yp 2.

Definition prec_margin (yt yp : tensor) (margin : nat) : Q :=
  let L := (2 * margin + 1)%nat in let S := 1%nat in
  prec (maxpool1D yt L S) (maxpool1D yp L S).

Definition reca_margin (yt yp : tensor) (margin : nat) : Q :=
  let L := (2 * margin + 1)%nat in let S := 1%nat in
  reca (maxpool1D yt L S) (maxpool1D yp L S).

Definition F2_margin (yt yp : tensor) (margin : nat) : Q :=
  let L := (2 * margin + 1)%nat in let S := 1%nat in
  F2 (maxpool1D yt L S) (maxpool1D yp L S).

Definition ytspks (yt yp : tensor) : list Q := K_sum_axis1 yt.
Definition ypspks (yt yp : tensor) : list Q := K_sum_axis1 (K_round yp).

(** ** Binary32 arithmetic

    The backend holds its tensors in binary32: every operation returns the
    binary32 number nearest to the exact result, a tie going to the even
    significand.  Nothing here comes near the overflow threshold, so the
    infinities are left out. *)

(** [floor (log2 x)] for a positive rational. *)
Definition ilog2 (x : Q) : Z :=
  let e := (Z.log2 (Qnum x) - Z.log2 (Zpos (Qden x)))%Z in
  if Qle_bool (2 ^ e) x then e else (e - 1)%Z.

(** The exponent of the binade of [x], the subnormal numbers sharing the
    lowest one, and the distance between the binary32 numbers around [x]. *)
Definition emin : Z := -126.
Definition expo (x : Q) : Z := Z.max (ilog2 (Qabs x)) emin.
Definition ulp (x : Q) : Q := 2 ^ (expo x - 23).

(** Rounding to the nearest binary32 number, ties to even. *)
Definition round32 (x : Q) : Q :=
  if Qeq_bool x 0 then 0 else Qred (K_round1 (x / ulp x) * ulp x).

Definition f32_add (x y : Q) : Q := round32 (x + y).
Definition f32_sub (x y : Q) : Q := round32 (x - y).
Definition f32_mul (x y : Q) : Q := round32 (x * y).
Definition f32_div (x y : Q) : Q := round32 (x / y).

(** [K.epsilon()] as a binary32 tensor holds it. *)
Definition eps32 : Q := round32 K_epsilon.

(** [K.sum], [*] and [-] on binary32 tensors.  The order in which the
    backend adds is not fixed; sums of at most [2^24] zeros and ones are
    exact in every order. *)
Definition row_sum32 (r : list Q) : Q := foldr f32_add 0 r.
Definition K_sum32 (t : tensor) : Q := foldr (fun r acc => f32_add (row_sum32 r) acc) 0 t.
Definition K_mul32 (a b : tensor) : tensor := zip_with (zip_with f32_mul) a b.
Definition K_sub32 (a b : tensor) : tensor := zip_with (zip_with f32_sub) a b.

(** [prec], [reca] and [F2] as the backend computes them; [F2] with its
    default [beta = 2.0], for which [1 + beta**2] and [beta**2] are exact. *)
Definition prec32 (yt yp : tensor) : Q :=
  let yp := K_round yp in
  f32_div (K_sum32 (K_mul32 yp yt)) (f32_add (K_sum32 yp) eps32).

Definition reca32 (yt yp : tensor) : Q :=
  let yp := K_round yp in
  let tp := K_sum32 (K_mul32 yp yt) in
  let fn := K_sum32 (K_clip (K_sub32 yt yp) 0 1) in
  f32_div (K_sum32 (K_mul32 yp yt)) (f32_add (f32_add tp fn) eps32).

Definition F2_32 (yt yp : tensor) : Q :=
  let p := prec32 yt yp in
  let r := reca32 yt yp in
  f32_mul (1 + 2 ^ 2) (f32_div (f32_mul p r) (f32_add (f32_add (f32_mul (2 ^ 2) p) r) eps32)).

(** The reference formulas of the metrics, as the specification writes them. *)
Definition precision_spec (eps : Q) (yt yp : tensor) : Q :=
  K_sum (K_mul (K_round yp) yt) / (K_sum (K_round yp) + eps).

Definition recall_spec (eps : Q) (yt yp : tensor) : Q :=
  K_sum (K_mul (K_round yp) yt)
  / (K_sum (K_mul (K_round yp) yt) + K_sum (K_clip (K_sub yt (K_round yp)) 0 1) + eps).

Definition F2_spec (eps : Q) (yt yp : tensor) (beta : Q) : Q :=
  (1 + beta ^ 2) * precision_spec eps yt yp * recall_spec eps yt yp
  / (beta ^ 2 * precision_spec eps yt yp + recall_spec eps yt yp + eps).

Definition binary (x : Q) : Prop := x = 0 \/ x = 1.
Definition binary_tensor (t : tensor) : Prop := Forall (Forall binary) t.
Definition same_shape (a b : tensor) : Prop := map length a = map length b.

Example round_half_even :
  map K_round1 [1 # 2; 3 # 2; 5 # 2; 51 # 100; 49 # 100; 1; 0] = [0; 2; 2; 1; 0; 1; 0].
Proof. reflexivity. Qed.

Example pool3 : pool_row 3 1 [0; 0; 1; 0; 0] = [0; 1; 1; 1; 0].
Proof. reflexivity. Qed.

Example pool2 : pool_row 2 1 [0; 0; 1; 0; 0] = [0; 1; 1; 0; 0].
Proof. reflexivity. Qed.

(** ** Python objects: a store of arrays and lists

    A NumPy array and a Python list are objects with an identity; a list
    holds references.  [spikes[i] = x] rebinds one cell of a list object, it
    never writes into the array the cell referred to. *)

Abbreviation loc := nat (only parsing).

Inductive pyobj : Type :=
  | Arr (a : list Q)
  | Lst (refs : list loc).

Abbreviation store := (gmap nat pyobj) (only parsing).

Definition alloc (σ : store) (o : pyobj) : loc * store :=
  let l := fresh (dom σ) in (l, <[l := o]> σ).

Definition get_arr (σ : store) (r : loc) : option (list Q) :=
  match σ !! r with Some (Arr a) => Some a | _ => None end.

Definition get_lst (σ : store) (ls : loc) : option (list loc) :=
  match σ !! ls with Some (Lst refs) => Some refs | _ => None end.

(** [ls[i]] and [ls[i] = r]; an index out of range raises. *)
Definition list_getitem (σ : store) (ls : loc) (i : nat) : option loc :=
  refs ← get_lst σ ls; refs !! i.

Definition list_setitem (σ : store) (ls : loc) (i : nat) (r : loc) : option store :=
  refs ← get_lst σ ls;
  if decide (i < length refs)%nat then Some (<[ls := Lst (<[i := r]> refs)]> σ) else None.

(** The arrays a list object refers to, read through the store. *)
Definition deref_list (σ : store) (ls : loc) : option tensor :=
  refs ← get_lst σ ls; mapM (get_arr σ) refs.

(** [[src[i] for i in idxs]]: a new list object sharing the arrays of [src]. *)
Definition list_select (σ : store) (src : loc) (idxs : list nat) : option (loc * store) :=
  refs ← mapM (list_getitem σ src) idxs;
  Some (alloc σ (Lst refs)).

(** Allocation of a list of arrays: one object per array, then the list. *)
Fixpoint alloc_arrays (σ : store) (rows : tensor) : list loc * store :=
  match rows with
  | [] => ([], σ)
  | a :: rest =>
      let '(r, σ1) := alloc σ (Arr a) in
      let '(rs, σ2) := alloc_arrays σ1 rest in
      (r :: rs, σ2)
  end.

(** ** NumPy helpers *)

(** [np.unique]: the sorted distinct values. *)
Definition np_unique (l : list nat) : list nat := merge_sort le (remove_dups l).

(** [np.where(lens == l)]: the positions holding [l], ascending. *)
Definition np_where_eq (lens : list nat) (l : nat) : list nat :=
  filter (fun i => lens !! i = Some l) (seq 0 (length lens)).

(** [rng.randint(low, high)]: a draw from the half-open range
    [low <= x < high]; NumPy raises ValueError when the range is empty.
    [raw] is the generator's raw draw, every value of the range is the image
    of some [raw]. *)
Definition np_randint (raw : nat) (low high : Z) : option Z :=
  if decide (low < high)%Z then Some (low + Z.of_nat raw mod (high - low))%Z else None.

(** The outcomes of the module-level generator [rng = np.random]: the
    permutation returned by its [k]-th call when that call is
    [rng.choice(a, len(a), replace=False)], and the raw draw behind it when it
    is [rng.randint].  The number of calls made so far is the state. *)
Record rng : Type := {
  rng_perm : nat -> list nat -> list nat;
  rng_raw : nat -> nat
}.

Definition rng_valid (R : rng) : Prop := forall k a, rng_perm R k a ≡ₚ a.

(** ** _batch_gen: the one-time margin dilation *)

(** [for i in range(x.shape[0]): spikes[idxs[i]] = x[i]]; every row of the
    pooled array is a new array object. *)
Fixpoint write_back (σ : store) (ls : loc) (idxs : list nat) (x : tensor) : option store :=
  match idxs, x with
  | i :: idxs', row :: x' =>
      let '(r, σ1) := alloc σ (Arr row) in
      σ2 ← list_setitem σ1 ls i r;
      write_back σ2 ls idxs' x'
  | _, _ => Some σ
  end.

(** The body of [for l in np.unique(lens)]. *)
Definition dilate_group (margin : nat) (ls : loc) (lens : list nat) (σ : store) (l : nat)
  : option store :=
  let idxs := np_where_eq lens l in
  x ← mapM (fun i => r ← list_getitem σ ls i; get_arr σ r) idxs;
  let x := K_pool2d_rows (margin + 1) 1 x in
  write_back σ ls idxs x.

Fixpoint dilate_groups (margin : nat) (ls : loc) (lens : list nat) (σ : store) (ls_unique : list nat)
  : option store :=
  match ls_unique with
  | [] => Some σ
  | l :: rest => σ1 ← dilate_group margin ls lens σ l; dilate_groups margin ls lens σ1 rest
  end.

Definition dilate (margin : nat) (ls : loc) (σ : store) : option store :=
  spikes ← deref_list σ ls;
  let lens := map length spikes in
  dilate_groups margin ls lens σ (np_unique lens).

(** ** _batch_gen: the sampling loop *)

(** [itertools.cycle] over a list: the items in order, again and again. *)
Record cycle : Type := { cy_items : list nat; cy_pos : nat }.

Definition cycle_next (c : cycle) : option (nat * cycle) :=
  x ← cy_items c !! cy_pos c;
  Some (x, {| cy_items := cy_items c;
              cy_pos := if decide (S (cy_pos c) < length (cy_items c))%nat
                        then S (cy_pos c) else 0%nat |}).

(** [tb[bidx] = v] for a row of length [w]: a value of another length raises
    unless it has one entry, which NumPy broadcasts. *)
Definition assign_row (w : nat) (v : list Q) : option (list Q) :=
  if decide (length v = w) then Some v
  else match v with [a] => Some (replicate w a) | _ => None end.

(** [sb] is an array of [np.uint8]: a value stored in it loses its fraction
    and is kept modulo 256. *)
Definition np_uint8 (v : Q) : Q :=
  inject_Z (Z.modulo (Z.quot (Qnum v) (Zpos (Qden v))) 256).

(** One slot of a batch; the index and the offset drawn are kept next to the
    two windows. *)
Record sample : Type := {
  s_idx : nat;
  s_x0 : nat;
  s_trace : list Q;
  s_label : list Q
}.

Section BatchGen.
Variable R : rng.
Variables traces spikes : tensor.
Variable shape : list nat.

(** The body of [for bidx in range(batch_size)]; [k] counts the calls made
    to the random generator. *)
Definition draw_sample (c : cycle) (k : nat) : option (sample * cycle * nat) :=
  '(idx, c') ← cycle_next c;
  sp ← spikes !! idx;
  w ← shape !! 0%nat;
  x0 ← np_randint (rng_raw R k) 0 (Z.of_nat (length sp) - Z.of_nat w);
  let x0 := Z.to_nat x0 in
  let x1 := (x0 + w)%nat in
  tr ← traces !! idx;
  tw ← assign_row w (slice x0 x1 tr);
  sw ← assign_row w (map np_uint8 (slice x0 x1 sp));
  Some ({| s_idx := idx; s_x0 := x0; s_trace := tw; s_label := sw |}, c', S k).

Fixpoint fill_batch (batch_size : nat) (c : cycle) (k : nat)
  : option (list sample * cycle * nat) :=
  match batch_size with
  | O => Some ([], c, k)
  | S b =>
      '(s, c1, k1) ← draw_sample c k;
      '(ss, c2, k2) ← fill_batch b c1 k1;
      Some (s :: ss, c2, k2)
  end.

(** [for _ in range(nb_steps)]: the batches yielded by one pass. *)
Fixpoint run_steps (batch_size nb_steps : nat) (c : cycle) (k : nat)
  : option (list (list sample) * nat) :=
  match nb_steps with
  | O => Some ([], k)
  | S n =>
      '(b, c1, k1) ← fill_batch batch_size c k;
      '(bs, k2) ← run_steps batch_size n c1 k1;
      Some (b :: bs, k2)
  end.

(** One pass of [while True]: a new permutation, a new cycle, [nb_steps]
    batches. *)
Definition run_pass (batch_size nb_steps : nat) (k : nat)
  : option (list (list sample) * nat) :=
  let idxs := seq 0 (length traces) in
  let cidxs := {| cy_items := rng_perm R k idxs; cy_pos := 0 |} in
  run_steps batch_size nb_steps cidxs (S k).

(** The first [passes] passes of [while True], one list of batches each. *)
Fixpoint run_passes (batch_size nb_steps passes : nat) (k : nat)
  : option (list (list (list sample)) * nat) :=
  match passes with
  | O => Some ([], k)
  | S p =>
      '(bs, k1) ← run_pass batch_size nb_steps k;
      '(rest, k2) ← run_passes batch_size nb_steps p k1;
      Some (bs :: rest, k2)
  end.
End BatchGen.

(** What [yield tb, sb] hands out. *)
Definition yielded (b : list sample) : tensor * tensor := (map s_trace b, map s_label b).

(** The trace indices drawn by a run, in the order of the draws. *)
Definition draws_of_pass (bs : list (list sample)) : list nat := map s_idx (concat bs).
Definition draws_of (ps : list (list (list sample))) : list nat :=
  concat (map draws_of_pass ps).

(** The generator as a whole: on its first [next] the labels of the list
    object [ls] are dilated in the store, then the loop samples from the
    traces and the dilated labels. *)
Definition batch_gen (R : rng) (σ : store) (tl ls : loc) (shape : list nat)
    (batch_size nb_steps margin passes : nat) (k : nat)
  : option (store * list (list (list sample)) * nat) :=
  σ1 ← dilate margin ls σ;
  traces ← deref_list σ1 tl;
  spikes ← deref_list σ1 ls;
  '(ps, k1) ← run_passes R traces spikes shape batch_size nb_steps passes k;
  Some (σ1, ps, k1).

(** ** Python integers, floats and slices *)

(** Python floats are binary64. *)
Definition f64_add : spec_float -> spec_float -> spec_float := SFadd 53 1024.
Definition f64_mul : spec_float -> spec_float -> spec_float := SFmul 53 1024.
Definition f64_of_Z (z : Z) : spec_float :=
  match z with
  | Z0 => S754_zero false
  | Zpos p => binary_normalize 53 1024 (Zpos p) 0 false
  | Zneg p => binary_normalize 53 1024 (Zneg p) 0 true
  end.
Definition f64_one : spec_float := f64_of_Z 1.

(** [int(x)] on a float: truncation towards zero; infinities and NaN raise. *)
Definition py_int (f : spec_float) : option Z :=
  match f with
  | S754_zero _ => Some 0%Z
  | S754_finite s m e =>
      let v := (if (0 <=? e)%Z then Zpos m * 2 ^ e else Zpos m / 2 ^ (- e))%Z in
      Some (if s then (- v)%Z else v)
  | _ => None
  end.

(** The position a slice bound denotes in a sequence of length [n]. *)
Definition py_bound (n : nat) (i : Z) : nat :=
  if (i <? 0)%Z then Z.to_nat (Z.max 0 (Z.of_nat n + i)) else Z.to_nat (Z.min i (Z.of_nat n)).

(** [x[:stop]] and [x[start:]]. *)
Definition py_slice_to {A} (stop : Z) (x : list A) : list A := take (py_bound (length x) stop) x.
Definition py_slice_from {A} (start : Z) (x : list A) : list A := drop (py_bound (length x) start) x.

(** ** fit: the index bookkeeping *)

(** [fsz = int(len(idxs) / nb_folds)]: the quotient of two positive integers
    below 2^53, truncated, is their integer quotient. *)
Definition fold_size (idxs : list nat) (nb_folds : nat) : nat := (length idxs / nb_folds)%nat.

(** [fold_idxs = [idxs[fsz * n:fsz * n + fsz] for n in range(nb_folds)]] *)
Definition fold_idxs (idxs : list nat) (nb_folds : nat) : list (list nat) :=
  let fsz := fold_size idxs nb_folds in
  map (fun n => slice (fsz * n) (fsz * n + fsz) idxs) (seq 0 nb_folds).

(** [[idx for i, fold in enumerate(fold_idxs) if i != val_idx for idx in fold]]
    and its counterpart with [i == val_idx]. *)
Definition idxs_trn_of (folds : list (list nat)) (val_idx : nat) : list nat :=
  concat (map snd (filter (fun p => p.1 ≠ val_idx) (imap pair folds))).
Definition idxs_val_of (folds : list (list nat)) (val_idx : nat) : list nat :=
  concat (map snd (filter (fun p => p.1 = val_idx) (imap pair folds))).

(** [set(idxs_trn).intersection(idxs_val) == set([])] *)
Definition disjoint_idxs (idxs_trn idxs_val : list nat) : bool :=
  bool_decide ((list_to_set idxs_trn : gset nat) ∩ list_to_set idxs_val = ∅).

(** ** fit and predict: effects

    A call runs in a world made of the store, the number of calls made to the
    random generator and the log of what it did outside of memory; it returns
    a value or raises. *)

Inductive exn : Type :=
  | AssertionError
  | ZeroDivisionError
  | IOError
  | KeyError
  | PyError
  | NonTermination.

Inductive result (A : Type) : Type :=
  | Ok (a : A)
  | Raise (e : exn).
Arguments Ok {A} a.
Arguments Raise {A} e.

Definition metrics : Type := list (string * Q).

Inductive event : Type :=
  | Load_traces (p : string)
  | Load_spikes (p : string)
  | Load_attrs (p : string)
  | Build_model (window_shape : list nat) (margin : nat) (summary : bool)
  | Train (idxs_trn idxs_val : list nat) (sp_trn sp_val : loc) (steps_trn nb_epochs : nat)
  | Load_model (model_path : string) (input_len : nat)
  | Log_fold (val_idx : nat)
  | Log_metrics (mt mv : metrics)
  | Log_best_model (path : string)
  | Log_cv_summary (metrics_trn metrics_val : list metrics).

Record world : Type := {
  w_store : store;
  w_calls : nat;
  w_events : list event
}.

Definition M (A : Type) : Type := world -> result A * world.

Definition ret {A} (a : A) : M A := fun w => (Ok a, w).
Definition bind {A B} (m : M A) (f : A -> M B) : M B :=
  fun w => match m w with
           | (Ok a, w1) => f a w1
           | (Raise e, w1) => (Raise e, w1)
           end.
Definition raise {A} (e : exn) : M A := fun w => (Raise e, w).

Declare Scope py_scope.
Delimit Scope py_scope with py.
Notation "x <- m ;; k" := (bind m (fun x => k))
  (at level 100, m at next level, right associativity) : py_scope.
Notation "m ;; k" := (bind m (fun _ => k))
  (at level 100, right associativity) : py_scope.

Definition py_assert (b : bool) : M unit :=
  if b then ret tt else raise AssertionError.

Definition emit (ev : event) : M unit :=
  fun w => (Ok tt, {| w_store := w_store w; w_calls := w_calls w;
                      w_events := w_events w ++ [ev] |}).

Definition lift_opt {A} (e : exn) (o : option A) : M A :=
  match o with Some a => ret a | None => raise e end.

(** A store operation; its failure is a Python exception. *)
Definition on_store {A} (f : store -> option (A * store)) : M A :=
  fun w => match f (w_store w) with
           | Some (a, σ) => (Ok a, {| w_store := σ; w_calls := w_calls w;
                                      w_events := w_events w |})
           | None => (Raise PyError, w)
           end.

Record fit_args : Type := {
  dataset_paths : list string;
  shape : list nat;
  error_margin : nat;
  batch : nat;
  nb_epochs : nat;
  val_type : string;
  prop_trn : spec_float;
  prop_val : spec_float;
  nb_folds : Z
}.

Section Fit.
(** The collaborators: the outcomes of the random generator, the dataset
    accessors (no value: the file cannot be read) and Keras, which trains
    on the batches it pulls and reports the metrics, the path of the best
    checkpoint and the number of calls the pulled batches made to the
    random generator. *)
Variable R : rng.
Variable dataset_traces_func : string -> option tensor.
Variable dataset_spikes_func : string -> option tensor.
Variable keras_train :
  tensor * tensor -> tensor * tensor -> nat -> nat -> metrics * metrics * string * nat.

(** [[t for p in dataset_paths for t in f(p)]] *)
Fixpoint load_all (f : string -> option tensor) (ev : string -> event)
    (paths : list string) : M tensor :=
  match paths with
  | [] => ret []
  | p :: rest =>
      (emit (ev p);;
       rows <- lift_opt IOError (f p);;
       more <- load_all f ev rest;;
       ret (rows ++ more))%py
  end.

(** The first [next] of a generator made by [_batch_gen]: the dilation,
    then the first batch of the first pass.  With no step to run the loop
    spins without ever yielding. *)
Definition gen_first_batch (tl ls : loc) (shape : list nat)
    (batch_size nb_steps margin : nat) : M (tensor * tensor) :=
  fun w =>
    match nb_steps with
    | O => (Raise NonTermination, w)
    | S _ =>
        match batch_gen R (w_store w) tl ls shape batch_size 1 margin 1 (w_calls w) with
        | Some (σ, [[b]], k) =>
            (Ok (yielded b), {| w_store := σ; w_calls := k; w_events := w_events w |})
        | _ => (Raise PyError, w)
        end
    end.

(** [int(ceil(len(tr_trn) / batch))] *)
Definition steps_of (n batch : nat) : M nat :=
  match batch with
  | O => raise ZeroDivisionError
  | S _ => ret ((n + batch - 1) / batch)%nat
  end.

Definition fit_single (a : fit_args) (tl sl : loc) (idxs_trn idxs_val : list nat)
    (model_summary : bool) : M (metrics * metrics * string) :=
  (emit (Build_model (shape a) (error_margin a) model_summary);;
   tr_trn <- on_store (fun σ => list_select σ tl idxs_trn);;
   sp_trn <- on_store (fun σ => list_select σ sl idxs_trn);;
   tr_val <- on_store (fun σ => list_select σ tl idxs_val);;
   sp_val <- on_store (fun σ => list_select σ sl idxs_val);;
   steps_trn <- steps_of (length idxs_trn) (batch a);;
   xy_val <- gen_first_batch tr_val sp_val (shape a) (length idxs_val * 2) 1 (error_margin a);;
   xy_trn <- gen_first_batch tr_trn sp_trn (shape a) (batch a) steps_trn (error_margin a);;
   emit (Train idxs_trn idxs_val sp_trn sp_val steps_trn (nb_epochs a));;
   let '(mt, mv, best_model_path, calls) := keras_train xy_trn xy_val steps_trn (nb_epochs a) in
   (fun w => (Ok (mt, mv, best_model_path),
              {| w_store := w_store w; w_calls := w_calls w + calls;
                 w_events := w_events w |})))%py.

(** [rng.choice(np.arange(n), n, replace=0)] *)
Definition rng_shuffle (n : nat) : M (list nat) :=
  fun w => (Ok (rng_perm R (w_calls w) (seq 0 n)),
            {| w_store := w_store w; w_calls := S (w_calls w); w_events := w_events w |}).

(** [for val_idx in range(nb_folds)], from [val_idx] on. *)
Fixpoint cv_loop (a : fit_args) (tl sl : loc) (folds : list (list nat))
    (todo val_idx : nat) (metrics_trn metrics_val : list metrics)
  : M (list metrics * list metrics) :=
  match todo with
  | O => ret (metrics_trn, metrics_val)
  | S todo' =>
      (let idxs_trn := idxs_trn_of folds val_idx in
       let idxs_val := idxs_val_of folds val_idx in
       py_assert (disjoint_idxs idxs_trn idxs_val);;
       emit (Log_fold val_idx);;
       r <- fit_single a tl sl idxs_trn idxs_val (bool_decide (val_idx = 0%nat));;
       let '(mt, mv, _) := r in
       emit (Log_metrics mt mv);;
       cv_loop a tl sl folds todo' (S val_idx) (metrics_trn ++ [mt]) (metrics_val ++ [mv]))%py
  end.

Definition fit (a : fit_args) : M unit :=
  ((* logger = logging.getLogger(funcname()): a handle, nothing is logged *)
   py_assert (bool_decide (length (shape a) = 1%nat));;
   py_assert (bool_decide (val_type a ∈ ["random_split"; "cross_validate"]%string));;
   py_assert (bool_decide (1 < nb_folds a)%Z);;
   py_assert (SFeqb (f64_add (prop_trn a) (prop_val a)) f64_one);;
   traces <- load_all dataset_traces_func Load_traces (dataset_paths a);;
   spikes <- load_all dataset_spikes_func Load_spikes (dataset_paths a);;
   py_assert (bool_decide (length traces = length spikes));;
   tl <- on_store (fun σ => let '(rs, σ1) := alloc_arrays σ traces in Some (alloc σ1 (Lst rs)));;
   sl <- on_store (fun σ => let '(rs, σ1) := alloc_arrays σ spikes in Some (alloc σ1 (Lst rs)));;
   if bool_decide (val_type a = "random_split"%string) then
     idxs <- rng_shuffle (length traces);;
     n_trn <- lift_opt PyError (py_int (f64_mul (f64_of_Z (Z.of_nat (length idxs))) (prop_trn a)));;
     n_val <- lift_opt PyError (py_int (f64_mul (f64_of_Z (Z.of_nat (length idxs))) (prop_val a)));;
     let idxs_trn := py_slice_to n_trn idxs in
     let idxs_val := py_slice_from (-1 * n_val) idxs in
     r <- fit_single a tl sl idxs_trn idxs_val true;;
     let '(mt, mv, bmp) := r in
     emit (Log_metrics mt mv);;
     emit (Log_best_model bmp)
   else
     idxs <- rng_shuffle (length traces);;
     let folds := fold_idxs idxs (Z.to_nat (nb_folds a)) in
     ms <- cv_loop a tl sl folds (Z.to_nat (nb_folds a)) 0 [] [];;
     emit (Log_cv_summary ms.1 ms.2))%py.
End Fit.

(** ** predict *)

Section Predict.
Variable dataset_attrs_func : string -> option (gmap string string).
Variable dataset_traces_func : string -> option tensor.
(** [load_model_with_new_input_shape] followed by [model.predict]: the
    probabilities, one row per trace; no value when the weights do not
    load. *)
Variable keras_predict : string -> nat -> tensor -> nat -> option tensor.

(** [(spikes_pred > threshold).astype(np.uint8)]: the probabilities are a
    binary32 array and NumPy compares them with the threshold, a Python
    float, cast to binary32. *)
Definition binarize1 (threshold x : Q) : Q :=
  if Qle_bool x (round32 threshold) then 0 else 1.
Definition binarize (threshold : Q) (t : tensor) : tensor :=
  map (map (binarize1 threshold)) t.

(** [traces.shape[1]] *)
Definition shape1 (t : tensor) : nat :=
  match t with r :: _ => length r | [] => 0%nat end.

Definition predict_one (model_path : string) (batch : nat) (threshold : Q) (p : string)
  : M (tensor * string) :=
  (emit (Load_attrs p);;
   attrs <- lift_opt IOError (dataset_attrs_func p);;
   name <- lift_opt KeyError (attrs !! "name"%string);;
   emit (Load_traces p);;
   traces <- lift_opt IOError (dataset_traces_func p);;
   let input_len := shape1 traces in
   emit (Load_model model_path input_len);;
   spikes_pred <- lift_opt PyError (keras_predict model_path input_len traces batch);;
   ret (binarize threshold spikes_pred, name))%py.

(** [for p in dataset_paths], appending to the two result lists. *)
Fixpoint predict_loop (model_path : string) (batch : nat) (threshold : Q)
    (paths : list string) (spikes_pred_all : list tensor) (names_all : list string)
  : M (list tensor * list string) :=
  match paths with
  | [] => ret (spikes_pred_all, names_all)
  | p :: rest =>
      (r <- predict_one model_path batch threshold p;;
       predict_loop model_path batch threshold rest
         (spikes_pred_all ++ [r.1]) (names_all ++ [r.2]))%py
  end.

Definition predict (dataset_paths : list string) (model_path : string) (batch : nat)
    (threshold : Q) : M (list tensor * list string) :=
  predict_loop model_path batch threshold dataset_paths [] [].
End Predict.

(** * Properties *)

(** ** Rounding to binary32 *)

Lemma Qfloor_frac (x : Q) : 0 <= x - inject_Z (Qfloor x) /\ x - inject_Z (Qfloor x) < 1.
Proof.
  pose proof (Qfloor_le x) as H1. pose proof (Qlt_floor x) as H2.
  rewrite inject_Z_plus in H2. change (inject_Z 1) with 1 in H2. split; lra.
Qed.

Lemma K_round1_cases (x : Q) :
  (K_round1 x = inject_Z (Qfloor x) /\ x - inject_Z (Qfloor x) <= 1 # 2)
  \/ (K_round1 x = inject_Z (Qfloor x + 1) /\ 1 # 2 <= x - inject_Z (Qfloor x)).
Proof.
  unfold K_round1. cbv zeta.
  destruct (x - inject_Z (Qfloor x) ?= 1 # 2) eqn:E.
  - apply Qeq_alt in E. destruct (Z.even (Qfloor x)); [left|right]; split; try reflexivity; lra.
  - apply Qlt_alt in E. left. split; [reflexivity|lra].
  - apply Qgt_alt in E. right. split; [reflexivity|lra].
Qed.

Lemma K_round1_err (x : Q) : K_round1 x - (1 # 2) <= x /\ x <= K_round1 x + (1 # 2).
Proof.
  pose proof (Qfloor_frac x) as [H1 H2].
  destruct (K_round1_cases x) as [[-> H]|[-> H]]; rewrite ?inject_Z_plus;
    change (inject_Z 1) with 1; split; lra.
Qed.

Lemma K_round1_comp (x y : Q) : x == y -> K_round1 x = K_round1 y.
Proof.
  intros H. unfold K_round1. cbv zeta. rewrite (Qfloor_comp x y H).
  assert ((x - inject_Z (Qfloor y) ?= 1 # 2) = (y - inject_Z (Qfloor y) ?= 1 # 2)) as ->.
  { apply Qcompare_comp; [|reflexivity]. rewrite H. reflexivity. }
  reflexivity.
Qed.

Lemma K_round1_int (z : Z) (x : Q) : x == inject_Z z -> K_round1 x = inject_Z z.
Proof.
  intros H. rewrite (K_round1_comp _ _ H). unfold K_round1. cbv zeta. rewrite Qfloor_Z.
  assert ((inject_Z z - inject_Z z ?= 1 # 2) = Lt) as ->; [|reflexivity].
  apply (proj1 (Qlt_alt _ _)). lra.
Qed.

Lemma K_round1_le (x y : Q) : x <= y -> K_round1 x <= K_round1 y.
Proof.
  intros H. pose proof (Qfloor_resp_le _ _ H) as Hf.
  destruct (Z.eq_dec (Qfloor x) (Qfloor y)) as [E|NE].
  - unfold K_round1. cbv zeta. rewrite E.
    assert (x - inject_Z (Qfloor y) <= y - inject_Z (Qfloor y)) as Hd by lra.
    assert (inject_Z (Qfloor y) <= inject_Z (Qfloor y + 1)) as Hs
      by (rewrite <- Zle_Qle; lia).
    destruct (Qcompare_spec (x - inject_Z (Qfloor y)) (1 # 2)) as [Ex|Ex|Ex];
      destruct (Qcompare_spec (y - inject_Z (Qfloor y)) (1 # 2)) as [Ey|Ey|Ey];
      destruct (Z.even (Qfloor y)); try apply Qle_refl; try exact Hs; lra.
  - assert (Qfloor x + 1 <= Qfloor y)%Z as Hlt by lia.
    assert (K_round1 x <= inject_Z (Qfloor x + 1)) as H1.
    { destruct (K_round1_cases x) as [[-> _]|[-> _]]; rewrite <- Zle_Qle; lia. }
    assert (inject_Z (Qfloor y) <= K_round1 y) as H2.
    { destruct (K_round1_cases y) as [[-> _]|[-> _]]; rewrite <- Zle_Qle; lia. }
    rewrite Zle_Qle in Hlt. lra.
Qed.

(** Powers of two. *)
Lemma p2_pos (e : Z) : 0 < 2 ^ e.
Proof. apply Qpower_0_lt. reflexivity. Qed.

Lemma p2_add (a b : Z) : 2 ^ (a + b) == 2 ^ a * 2 ^ b.
Proof. apply Qpower_plus. discriminate. Qed.

Lemma p2_le (a b : Z) : (a <= b)%Z -> 2 ^ a <= 2 ^ b.
Proof. intros H. apply Qpower_le_compat_l; [exact H|discriminate]. Qed.

Lemma p2_lt (a b : Z) : (a < b)%Z -> 2 ^ a < 2 ^ b.
Proof. intros H. apply Qpower_lt_compat_l; [exact H|reflexivity]. Qed.

Lemma p2_lt_inv (a b : Z) : 2 ^ a < 2 ^ b -> (a < b)%Z.
Proof. intros H. apply (Qpower_lt_compat_l_inv 2); [exact H|reflexivity]. Qed.

Lemma p2_Z (n : Z) : (0 <= n)%Z -> inject_Z (2 ^ n) == 2 ^ n.
Proof. intros H. apply (Zpower_Qpower 2 n H). Qed.

Lemma ilog2_spec (x : Q) : 0 < x -> 2 ^ ilog2 x <= x /\ x < 2 ^ (ilog2 x + 1).
Proof.
  intros Hx. destruct x as [n d]. unfold ilog2. cbn [Qnum Qden].
  assert (0 < n)%Z as Hn by (unfold Qlt in Hx; cbn in Hx; lia).
  set (a := Z.log2 n). set (b := Z.log2 (Z.pos d)).
  pose proof (Z.log2_nonneg n) as Ha0. pose proof (Z.log2_nonneg (Z.pos d)) as Hb0.
  fold a in Ha0. fold b in Hb0.
  destruct (Z.log2_spec n Hn) as [Ha1 Ha2]. fold a in Ha1, Ha2.
  destruct (Z.log2_spec (Z.pos d) (Pos2Z.is_pos d)) as [Hb1 Hb2]. fold b in Hb1, Hb2.
  rewrite Zle_Qle, p2_Z in Ha1 by lia. rewrite Zlt_Qlt, (p2_Z (Z.succ a)) in Ha2 by lia.
  rewrite Zle_Qle, p2_Z in Hb1 by lia. rewrite Zlt_Qlt, (p2_Z (Z.succ b)) in Hb2 by lia.
  assert ((n # d) * inject_Z (Z.pos d) == inject_Z n) as Hxd.
  { rewrite (Qmake_Qdiv n d). field. discriminate. }
  set (x := n # d) in *. set (D := inject_Z (Z.pos d)) in *. set (N := inject_Z n) in *.
  pose proof (p2_pos a) as Pa. pose proof (p2_pos b) as Pb.
  pose proof (p2_pos (a - b)) as Pab.
  assert (2 ^ (a - b) * 2 ^ b == 2 ^ a) as E1.
  { rewrite <- p2_add. replace (a - b + b)%Z with a by lia. reflexivity. }
  assert (2 ^ (a - b + 1) * 2 ^ b == 2 ^ Z.succ a) as E2.
  { rewrite <- p2_add. replace (a - b + 1 + b)%Z with (Z.succ a) by lia. reflexivity. }
  assert (2 ^ (a - b - 1) * 2 ^ Z.succ b == 2 ^ a) as E3.
  { rewrite <- p2_add. replace (a - b - 1 + Z.succ b)%Z with a by lia. reflexivity. }
  assert (2 ^ (a - b - 1) * 2 == 2 ^ (a - b)) as E4.
  { change 2 with (2 ^ 1) at 2. rewrite <- p2_add.
    replace (a - b - 1 + 1)%Z with (a - b)%Z by lia. reflexivity. }
  assert (2 ^ (a - b) * 2 == 2 ^ (a - b + 1)) as E5.
  { change 2 with (2 ^ 1) at 2. rewrite <- p2_add. reflexivity. }
  pose proof (p2_pos (a - b - 1)) as Pab1. pose proof (p2_pos (a - b + 1)) as Pab2.
  pose proof (p2_pos (Z.succ b)) as Pb1.
  assert (x < 2 ^ (a - b + 1)) as Hup.
  { apply Qnot_le_lt. intros Hc.
    assert (2 ^ (a - b + 1) * 2 ^ b <= x * D) as Hm.
    { apply Qle_trans with (x * 2 ^ b).
      - apply Qmult_le_compat_r; lra.
      - rewrite !(Qmult_comm x). apply Qmult_le_compat_r; lra. }
    lra. }
  assert (2 ^ (a - b - 1) < x) as Hlo.
  { apply Qnot_le_lt. intros Hc.
    assert (x * D <= 2 ^ (a - b - 1) * D) as Hm1 by (apply Qmult_le_compat_r; [lra|unfold D; rewrite <- (Zle_Qle 0); lia]).
    assert (2 ^ (a - b - 1) * D < 2 ^ (a - b - 1) * 2 ^ Z.succ b) as Hm2.
    { rewrite !(Qmult_comm (2 ^ (a - b - 1))). apply Qmult_lt_compat_r; lra. }
    lra. }
  destruct (Qle_bool (2 ^ (a - b)) x) eqn:Eb.
  - apply Qle_bool_iff in Eb. split; [exact Eb|exact Hup].
  - assert (x < 2 ^ (a - b)) as Hlt.
    { apply Qnot_le_lt. intros Hc. apply Qle_bool_iff in Hc. congruence. }
    replace (a - b - 1 + 1)%Z with (a - b)%Z by lia. split; lra.
Qed.

Lemma ilog2_unique (x : Q) (e : Z) : 2 ^ e <= x -> x < 2 ^ (e + 1) -> ilog2 x = e.
Proof.
  intros H1 H2. pose proof (p2_pos e) as Pe.
  assert (0 < x) as Hx by lra. destruct (ilog2_spec x Hx) as [H3 H4].
  assert (ilog2 x < e + 1)%Z by (apply p2_lt_inv; lra).
  assert (e < ilog2 x + 1)%Z by (apply p2_lt_inv; lra). lia.
Qed.

Lemma ilog2_comp (x y : Q) : 0 < x -> x == y -> ilog2 x = ilog2 y.
Proof.
  intros Hx E. destruct (ilog2_spec x Hx) as [H1 H2]. symmetry.
  apply ilog2_unique; rewrite <- E; assumption.
Qed.

Lemma ilog2_le (x y : Q) : 0 < x -> x <= y -> (ilog2 x <= ilog2 y)%Z.
Proof.
  intros Hx H. destruct (ilog2_spec x Hx) as [H1 _].
  destruct (ilog2_spec y) as [_ H2]; [lra|].
  assert (ilog2 x < ilog2 y + 1)%Z by (apply p2_lt_inv; lra). lia.
Qed.

Lemma ulp_pos (x : Q) : 0 < ulp x.
Proof. apply p2_pos. Qed.

Lemma round32_0 (x : Q) : x == 0 -> round32 x = 0.
Proof. intros H. unfold round32. apply Qeq_bool_iff in H. rewrite H. reflexivity. Qed.

Lemma round32_eq (x : Q) : ~ x == 0 -> round32 x == K_round1 (x / ulp x) * ulp x.
Proof.
  intros H. unfold round32. destruct (Qeq_bool x 0) eqn:E.
  - apply Qeq_bool_iff in E. contradiction.
  - apply Qred_correct.
Qed.

Lemma Qabs_pos_lt (x : Q) : ~ x == 0 -> 0 < Qabs x.
Proof.
  intros H. apply Qabs_case; intros H1.
  - destruct (Qle_lt_or_eq _ _ H1) as [H2|H2]; [exact H2|]. exfalso. apply H. symmetry. exact H2.
  - destruct (Qle_lt_or_eq _ _ H1) as [H2|H2]; [lra|]. contradiction.
Qed.

Lemma expo_comp (x y : Q) : ~ x == 0 -> x == y -> expo x = expo y.
Proof.
  intros Hx E. unfold expo. f_equal. apply ilog2_comp.
  - by apply Qabs_pos_lt.
  - rewrite E; done.
Qed.

Lemma ulp_comp (x y : Q) : ~ x == 0 -> x == y -> ulp x = ulp y.
Proof. intros Hx E. unfold ulp. by rewrite (expo_comp x y Hx E). Qed.

#[global] Instance round32_comp : Proper (Qeq ==> Qeq) round32.
Proof.
  intros x y E. destruct (Qeq_dec x 0) as [H0|H0].
  - rewrite (round32_0 x H0), (round32_0 y); [reflexivity|]. rewrite <- E; done.
  - rewrite (round32_eq x H0), (round32_eq y) by (rewrite <- E; done).
    rewrite <- (ulp_comp x y H0 E).
    rewrite (K_round1_comp (y / ulp x) (x / ulp x)); [reflexivity|].
    apply Qmult_comp; [symmetry; exact E|reflexivity].
Qed.

Lemma expo_pos (x : Q) : 0 < x -> expo x = Z.max (ilog2 x) emin.
Proof.
  intros Hx. unfold expo. f_equal. apply ilog2_comp; [|apply Qabs_pos; lra].
  apply Qabs_pos_lt. lra.
Qed.

Lemma expo_ge (x : Q) : (emin <= expo x)%Z.
Proof. unfold expo. lia. Qed.

(** The scaled value of a positive number lies below [2^24], and from
    [2^23] on when the number is not subnormal. *)
Lemma scaled_bounds (x : Q) :
  0 < x ->
  0 < x / ulp x /\ x / ulp x < 2 ^ 24 /\ ((emin <= ilog2 x)%Z -> 2 ^ 23 <= x / ulp x).
Proof.
  intros Hx. pose proof (ulp_pos x) as HU. destruct (ilog2_spec x Hx) as [H1 H2].
  pose proof (expo_pos x Hx) as HE. split; [|split].
  - apply Qlt_shift_div_l; [exact HU|lra].
  - apply Qlt_shift_div_r; [exact HU|]. unfold ulp. rewrite <- p2_add.
    apply Qlt_le_trans with (1 := H2). apply p2_le. lia.
  - intros Hn. apply Qle_shift_div_l; [exact HU|]. unfold ulp. rewrite <- p2_add.
    replace (23 + (expo x - 23))%Z with (ilog2 x) by lia. exact H1.
Qed.

Lemma round32_form (x : Q) :
  0 < x ->
  exists M : Z,
    round32 x == inject_Z M * ulp x /\ K_round1 (x / ulp x) = inject_Z M
    /\ (0 <= M <= 2 ^ 24)%Z /\ ((emin <= ilog2 x)%Z -> (2 ^ 23 <= M)%Z).
Proof.
  intros Hx. destruct (scaled_bounds x Hx) as (B0 & B1 & B2).
  assert (exists M, K_round1 (x / ulp x) = inject_Z M) as [M HM].
  { destruct (K_round1_cases (x / ulp x)) as [[-> _]|[-> _]]; eexists; done. }
  exists M. split; [|split; [exact HM|]].
  - rewrite round32_eq by lra. rewrite HM; done.
  - assert (K_round1 0 <= K_round1 (x / ulp x)) as L0 by (apply K_round1_le; lra).
    assert (K_round1 (x / ulp x) <= K_round1 (2 ^ 24)) as L1 by (apply K_round1_le; lra).
    rewrite HM in L0, L1. rewrite (K_round1_int 0 0) in L0 by reflexivity.
    rewrite (K_round1_int (2 ^ 24) (2 ^ 24)) in L1 by reflexivity.
    rewrite <- Zle_Qle in L0, L1. split; [exact (conj L0 L1)|].
    intros Hn. specialize (B2 Hn).
    assert (K_round1 (2 ^ 23) <= K_round1 (x / ulp x)) as L2 by (by apply K_round1_le).
    rewrite HM, (K_round1_int (2 ^ 23) (2 ^ 23)) in L2 by reflexivity.
    rewrite <- Zle_Qle in L2; done.
Qed.

(** The distance to the rounded value is at most half a unit in the last
    place. *)
Lemma round32_err (x : Q) :
  0 < x -> round32 x - ulp x / 2 <= x /\ x <= round32 x + ulp x / 2.
Proof.
  intros Hx. pose proof (ulp_pos x) as HU. rewrite round32_eq by lra.
  destruct (K_round1_err (x / ulp x)) as [H1 H2].
  assert (x == (x / ulp x) * ulp x) as E by (field; lra).
  set (k := K_round1 (x / ulp x)) in *. set (y := x / ulp x) in *.
  set (U := ulp x) in *. clearbody k y U.
  split.
  - assert ((k - (1 # 2)) * U <= y * U) as H by (apply Qmult_le_compat_r; lra).
    assert ((k - (1 # 2)) * U == k * U - U / 2) as E2 by field. lra.
  - assert (y * U <= (k + (1 # 2)) * U) as H by (apply Qmult_le_compat_r; lra).
    assert ((k + (1 # 2)) * U == k * U + U / 2) as E2 by field. lra.
Qed.

Lemma round32_nonneg (x : Q) : 0 <= x -> 0 <= round32 x.
Proof.
  intros Hx. destruct (Qle_lt_or_eq _ _ Hx) as [H|H].
  - destruct (round32_form x H) as (M & E & _ & [HM _] & _). rewrite E.
    apply Qmult_le_0_compat; [by rewrite <- (Zle_Qle 0)|apply Qlt_le_weak, ulp_pos].
  - rewrite round32_0 by (by symmetry). apply Qle_refl.
Qed.

(** Numbers of the form [M * 2^(E - 23)] with at most 24 bits are kept. *)
Lemma round32_fix (M E : Z) (y : Q) :
  (emin <= E)%Z -> (0 <= M <= 2 ^ 24)%Z -> (2 ^ 23 <= M \/ E = emin)%Z ->
  y == inject_Z M * 2 ^ (E - 23) -> round32 y == y.
Proof.
  intros HE [HM0 HM1] Hn Hy. pose proof (p2_pos (E - 23)) as HP.
  destruct (Z.eq_dec M 0%Z) as [->|HM].
  - assert (y == 0) as H0 by (rewrite Hy; change (inject_Z 0) with 0; ring).
    by rewrite (round32_0 y H0).
  - assert (0 < inject_Z M) as HMq by (rewrite <- (Zlt_Qlt 0); lia).
    assert (0 < y) as Hy0 by (rewrite Hy; by apply Qmult_lt_0_compat).
    assert (forall E', expo y = E' -> (exists k, y == inject_Z k * 2 ^ (E' - 23)) ->
                       round32 y == y) as Hgo.
    { intros E' HE' [k Hk]. rewrite round32_eq by lra. unfold ulp. rewrite HE'.
      rewrite (K_round1_int k).
      - rewrite <- Hk; done.
      - rewrite Hk. field. pose proof (p2_pos (E' - 23)). lra. }
    assert (inject_Z M < 2 ^ 24 \/ M = (2 ^ 24)%Z) as [Hlt | ->].
    { destruct (Z.eq_dec M (2 ^ 24)%Z) as [|Hne]; [by right|left].
      change (2 ^ 24) with (inject_Z (2 ^ 24)). rewrite <- Zlt_Qlt. lia. }
    + destruct Hn as [Hn|Hn].
      * apply (Hgo E); [|by exists M]. rewrite expo_pos by done.
        rewrite (ilog2_unique y E); [lia| |].
        -- rewrite Hy. replace E with (23 + (E - 23))%Z at 1 by lia. rewrite p2_add.
           apply Qmult_le_compat_r; [|lra].
           change (2 ^ 23) with (inject_Z (2 ^ 23)). rewrite <- Zle_Qle; done.
        -- rewrite Hy. replace (E + 1)%Z with (24 + (E - 23))%Z by lia. rewrite p2_add.
           by apply Qmult_lt_compat_r.
      * destruct (Z_lt_le_dec M (2 ^ 23)%Z) as [Hs|Hs].
        -- apply (Hgo E); [|by exists M]. rewrite expo_pos by done.
           destruct (ilog2_spec y Hy0) as [H1 _].
           assert (y < 2 ^ emin) as Hsub.
           { rewrite Hy.
             assert (2 ^ emin == 2 ^ 23 * 2 ^ (E - 23)) as ->
               by (rewrite <- p2_add; replace (23 + (E - 23))%Z with emin by lia; reflexivity).
             apply Qmult_lt_compat_r; [apply p2_pos|].
             change (2 ^ 23) with (inject_Z (2 ^ 23)). rewrite <- Zlt_Qlt; done. }
           assert (ilog2 y < emin)%Z by (apply p2_lt_inv; lra). lia.
        -- apply (Hgo E); [|by exists M]. rewrite expo_pos by done.
           rewrite (ilog2_unique y E); [lia| |].
           ++ rewrite Hy. replace E with (23 + (E - 23))%Z at 1 by lia. rewrite p2_add.
              apply Qmult_le_compat_r; [|lra].
              change (2 ^ 23) with (inject_Z (2 ^ 23)). rewrite <- Zle_Qle; done.
           ++ rewrite Hy. replace (E + 1)%Z with (24 + (E - 23))%Z by lia. rewrite p2_add.
              by apply Qmult_lt_compat_r.
    + assert (y == 2 ^ (E + 1)) as Hy'.
      { rewrite Hy. replace (E + 1)%Z with (24 + (E - 23))%Z by lia. rewrite p2_add; done. }
      apply (Hgo (E + 1)%Z).
      * rewrite expo_pos by done. rewrite (ilog2_unique y (E + 1)); [lia| |].
        -- rewrite Hy'; apply Qle_refl.
        -- rewrite Hy'. apply p2_lt. lia.
      * exists (2 ^ 23)%Z. rewrite Hy'. replace (E + 1)%Z with (23 + (E + 1 - 23))%Z at 1 by lia.
        rewrite p2_add; done.
Qed.

Lemma round32_idem (x : Q) : 0 <= x -> round32 (round32 x) == round32 x.
Proof.
  intros Hx. destruct (Qle_lt_or_eq _ _ Hx) as [H|H].
  - destruct (round32_form x H) as (M & E & _ & HM & Hn).
    apply (round32_fix M (expo x)); [apply expo_ge|exact HM| |exact E].
    rewrite (expo_pos x H). destruct (Z_le_gt_dec emin (ilog2 x)) as [Hc|Hc].
    + left. by apply Hn.
    + right. lia.
  - rewrite (round32_0 x) by (by symmetry). rewrite round32_0; done.
Qed.

Lemma round32_Z (n : Z) : (0 <= n <= 2 ^ 24)%Z -> round32 (inject_Z n) == inject_Z n.
Proof.
  intros [H0 H1]. destruct (Z.eq_dec n 0%Z) as [->|Hn]; [reflexivity|].
  assert (0 < n)%Z as Hp by lia. clear H0 Hn.
  destruct (Z.eq_dec n (2 ^ 24)%Z) as [->|Hne]; [by vm_compute|].
  set (e := Z.log2 n). destruct (Z.log2_spec n Hp) as [L1 L2]. fold e in L1, L2.
  pose proof (Z.log2_nonneg n) as L0. fold e in L0.
  assert (e < 24)%Z as He.
  { apply (Z.pow_lt_mono_r_iff 2); [lia|lia|]. lia. }
  apply (round32_fix (n * 2 ^ (23 - e)) e).
  - unfold emin. lia.
  - split; [lia|]. replace 24%Z with (Z.succ e + (23 - e))%Z by lia.
    rewrite Z.pow_add_r by lia. apply Z.mul_le_mono_nonneg_r; lia.
  - left. replace 23%Z with (e + (23 - e))%Z at 1 by lia.
    rewrite Z.pow_add_r by lia. apply Z.mul_le_mono_nonneg_r; lia.
  - rewrite inject_Z_mult, p2_Z by lia. rewrite <- Qmult_assoc, <- p2_add.
    replace (23 - e + (e - 23))%Z with 0%Z by lia. change (2 ^ 0) with 1. ring.
Qed.

(** Rounding is monotone. *)
Lemma round32_le (x y : Q) : 0 <= x -> x <= y -> round32 x <= round32 y.
Proof.
  intros Hx Hxy. destruct (Qle_lt_or_eq _ _ Hx) as [H|H].
  2:{ rewrite (round32_0 x) by (by symmetry). apply round32_nonneg. lra. }
  assert (0 < y) as Hy by lra.
  pose proof (ilog2_le x y H Hxy) as Hl.
  pose proof (expo_pos x H) as Ex. pose proof (expo_pos y Hy) as Ey.
  destruct (Z.eq_dec (expo x) (expo y)) as [E|NE].
  - rewrite !round32_eq by lra. unfold ulp. rewrite E.
    apply Qmult_le_compat_r; [|apply Qlt_le_weak, p2_pos].
    apply K_round1_le. apply Qmult_le_compat_r; [exact Hxy|].
    apply Qlt_le_weak, Qinv_lt_0_compat, p2_pos.
  - assert (expo x < expo y)%Z as Hlt by lia.
    destruct (round32_form x H) as (M & EM & _ & [_ HM] & _).
    destruct (round32_form y Hy) as (N & EN & _ & _ & HN).
    assert (2 ^ 23 <= N)%Z as HN' by (apply HN; lia).
    apply Qle_trans with (2 ^ (expo x + 1)).
    + rewrite EM. unfold ulp. replace (expo x + 1)%Z with (24 + (expo x - 23))%Z by lia.
      rewrite p2_add. apply Qmult_le_compat_r; [|apply Qlt_le_weak, p2_pos].
      change (2 ^ 24) with (inject_Z (2 ^ 24)). rewrite <- Zle_Qle; done.
    + apply Qle_trans with (2 ^ expo y); [apply p2_le; lia|].
      rewrite EN. unfold ulp. replace (expo y) with (23 + (expo y - 23))%Z at 1 by lia.
      rewrite p2_add. apply Qmult_le_compat_r; [|apply Qlt_le_weak, p2_pos].
      change (2 ^ 23) with (inject_Z (2 ^ 23)). rewrite <- Zle_Qle; done.
Qed.

(** The formula of [F2] on a precision and a recall. *)
Definition F2v (p r : Q) : Q :=
  f32_mul (1 + 2 ^ 2) (f32_div (f32_mul p r) (f32_add (f32_add (f32_mul (2 ^ 2) p) r) eps32)).

(** Half the distance between 1 and the next binary32 number. *)
Definition u32 : Q := 2 ^ (-24).


Lemma expo_lt (x : Q) (k : Z) : 0 < x -> x < 2 ^ k -> (emin < k)%Z -> (expo x < k)%Z.
Proof.
  intros Hx Hk He. rewrite expo_pos by done. destruct (ilog2_spec x Hx) as [H1 _].
  assert (ilog2 x < k)%Z by (apply p2_lt_inv; lra). lia.
Qed.

(** Absolute error of one rounding below [2^k]. *)
Lemma round32_abs_err (x : Q) (k : Z) :
  0 <= x -> x < 2 ^ k -> (emin < k)%Z ->
  round32 x - 2 ^ (k - 25) <= x /\ x <= round32 x + 2 ^ (k - 25).
Proof.
  intros Hx Hk He. pose proof (p2_pos (k - 25)) as HP.
  destruct (Qle_lt_or_eq _ _ Hx) as [H|H].
  2:{ rewrite (round32_0 x) by (by symmetry). split; lra. }
  destruct (round32_err x H) as [E1 E2]. pose proof (expo_lt x k H Hk He) as HE.
  assert (ulp x / 2 <= 2 ^ (k - 25)) as HU.
  { unfold ulp. apply Qle_shift_div_r; [reflexivity|].
    change 2 with (2 ^ 1) at 3. rewrite <- p2_add. apply p2_le. lia. }
  split; lra.
Qed.

(** Relative error of one rounding of a normal number. *)
Lemma round32_rel_err (x : Q) :
  2 ^ emin <= x -> x * (1 - u32) <= round32 x /\ round32 x <= x * (1 + u32).
Proof.
  intros Hn. pose proof (p2_pos emin) as HP. assert (0 < x) as Hx by lra.
  destruct (round32_err x Hx) as [E1 E2]. destruct (ilog2_spec x Hx) as [H1 H2].
  assert (emin <= ilog2 x)%Z as Hl.
  { assert (emin < ilog2 x + 1)%Z by (apply p2_lt_inv; lra). lia. }
  assert (ulp x / 2 <= x * u32) as HU.
  { unfold ulp. rewrite expo_pos by done. rewrite Z.max_l by lia.
    apply Qle_shift_div_r; [reflexivity|].
    replace (ilog2 x - 23)%Z with (ilog2 x + -23)%Z by lia. rewrite p2_add.
    unfold u32. assert (x * 2 ^ (-24) * 2 == x * 2 ^ (-23)) as -> by (vm_compute (2 ^ _); field).
    apply Qmult_le_compat_r; [exact H1|]. apply Qlt_le_weak, p2_pos. }
  split; lra.
Qed.

#[global] Instance F2v_comp : Proper (Qeq ==> Qeq ==> Qeq) F2v.
Proof.
  intros p p' Hp r r' Hr. unfold F2v, f32_mul, f32_div, f32_add. rewrite Hp, Hr. reflexivity.
Qed.

(** A rounded value between 1/2 and 1 is 1 minus a multiple of [2^-24]. *)
Lemma round32_near_one (x : Q) :
  0 <= x -> 1 # 2 < round32 x -> round32 x <= 1 ->
  exists a : Z, (0 <= a < 2 ^ 23)%Z /\ round32 x == 1 - inject_Z a * u32.
Proof.
  intros Hx Hlo Hhi. destruct (Qle_lt_or_eq _ _ Hx) as [H|H].
  2:{ rewrite (round32_0 x) in Hlo by (by symmetry). discriminate. }
  destruct (round32_form x H) as (M & EM & _ & [HM0 HM1] & Hn).
  pose proof (expo_pos x H) as HE. pose proof (expo_ge x) as HG.
  set (E := expo x) in *. unfold ulp in EM. fold E in EM.
  pose proof (p2_pos (E - 23)) as HP.
  assert (-1 <= E)%Z as HE1.
  { assert (2 ^ (-1) < 2 ^ (E + 1)) as Hc; [|apply p2_lt_inv in Hc; lia].
    apply Qlt_le_trans with (round32 x); [exact Hlo|]. rewrite EM.
    replace (E + 1)%Z with (24 + (E - 23))%Z by lia. rewrite p2_add.
    apply Qmult_le_compat_r; [|lra].
    change (2 ^ 24) with (inject_Z (2 ^ 24)). rewrite <- Zle_Qle; done. }
  assert (2 ^ 23 <= M)%Z as HM2 by (apply Hn; unfold emin in *; lia).
  assert (E <= 0)%Z as HE2.
  { assert (2 ^ E < 2 ^ 1) as Hc; [|apply p2_lt_inv in Hc; lia].
    apply Qle_lt_trans with (round32 x); [|lra]. rewrite EM.
    replace E with (23 + (E - 23))%Z at 1 by lia. rewrite p2_add.
    apply Qmult_le_compat_r; [|lra].
    change (2 ^ 23) with (inject_Z (2 ^ 23)). rewrite <- Zle_Qle; done. }
  assert (E = -1 \/ E = 0)%Z as [HEe|HEe] by lia; rewrite HEe in EM.
  - exists (2 ^ 24 - M)%Z. split.
    + split; [lia|].
      assert (inject_Z (2 ^ 23) < inject_Z M) as Hc; [|rewrite <- Zlt_Qlt in Hc; lia].
      rewrite EM in Hlo. change (2 ^ (-1 - 23)) with (1 # 16777216) in Hlo.
      change (inject_Z (2 ^ 23)) with 8388608. lra.
    + rewrite EM. change (2 ^ (-1 - 23)) with (1 # 16777216).
      unfold Zminus. rewrite inject_Z_plus, inject_Z_opp.
      change (inject_Z (2 ^ 24)) with 16777216. change u32 with (1 # 16777216). field.
  - exists 0%Z. split; [lia|]. rewrite EM in Hhi |- *.
    change (2 ^ (0 - 23)) with (1 # 8388608) in *.
    assert (inject_Z M <= inject_Z (2 ^ 23)) as Hc.
    { change (inject_Z (2 ^ 23)) with 8388608. lra. }
    rewrite <- Zle_Qle in Hc. assert (M = 2 ^ 23)%Z as -> by lia. reflexivity.
Qed.

Lemma eps32_pos : 0 < eps32.
Proof. reflexivity. Qed.

Lemma round32_fifth : round32 (1 / (1 + 2 ^ 2)) == 13421773 # 67108864.
Proof. reflexivity. Qed.

Lemma F2v_tail (q d : Q) :
  0 <= q -> 0 < d -> (1 + 2 ^ 2) * q <= d -> f32_mul (1 + 2 ^ 2) (f32_div q d) <= 1.
Proof.
  intros Hq Hd H. change (1 + 2 ^ 2) with 5 in *. unfold f32_mul, f32_div.
  assert (0 <= q / d) as H0 by (apply Qle_shift_div_l; lra).
  assert (q / d <= 1 # 5) as H1 by (apply Qle_shift_div_r; lra).
  pose proof (round32_le _ _ H0 H1) as H2. pose proof (round32_nonneg _ H0) as H3.
  change (round32 (1 # 5)) with (13421773 # 67108864) in H2.
  set (t := round32 (q / d)) in *.
  assert (round32 (5 * t) <= round32 (5 * (13421773 # 67108864))) as H4
    by (apply round32_le; lra).
  exact H4.
Qed.

Lemma F2v_near_one (a b : Z) :
  (0 <= a <= 10)%Z -> (0 <= b <= 6)%Z ->
  F2v (1 - inject_Z a * u32) (1 - inject_Z b * u32) <= 1.
Proof.
  intros Ha Hb. rewrite <- (Z2Nat.id a), <- (Z2Nat.id b) by lia.
  assert (Z.to_nat a <= 10)%nat as Ha' by lia. assert (Z.to_nat b <= 6)%nat as Hb' by lia.
  revert Ha' Hb'. generalize (Z.to_nat a) (Z.to_nat b). clear. intros n m Hn Hm.
  do 11 (destruct n as [|n]; [do 7 (destruct m as [|m]; [vm_compute; discriminate|]); lia|]).
  lia.
Qed.

Lemma F2v_bounds (p r : Q) :
  round32 p == p -> round32 r == r -> 0 <= p <= 1 -> 0 <= r <= 1 ->
  (p == 0 \/ 2 ^ (-25) <= p) -> (r == 0 \/ 2 ^ (-25) <= r) ->
  0 <= F2v p r /\ F2v p r <= 1.
Proof.
  intros Fp Fr [Hp0 Hp1] [Hr0 Hr1] Hpn Hrn.
  assert (0 <= p * r) as HP0 by (by apply Qmult_le_0_compat).
  pose proof eps32_pos as He.
  assert (0 <= round32 (p * r)) as Hq0 by (by apply round32_nonneg).
  assert (0 <= round32 (2 ^ 2 * p)) as Hm0.
  { apply round32_nonneg. change (2 ^ 2) with 4. lra. }
  assert (0 <= round32 (round32 (2 ^ 2 * p) + r)) as Hs0 by (apply round32_nonneg; lra).
  assert (round32 (round32 (2 ^ 2 * p) + r)
          <= round32 (round32 (round32 (2 ^ 2 * p) + r) + eps32)) as Hds.
  { rewrite <- (round32_idem (round32 (2 ^ 2 * p) + r)) at 1 by lra.
    apply round32_le; lra. }
  split.
  { unfold F2v, f32_mul, f32_div, f32_add. apply round32_nonneg.
    change (1 + 2 ^ 2) with 5. 
    assert (0 <= round32 (round32 (p * r)
                 / round32 (round32 (round32 (2 ^ 2 * p) + r) + eps32))); [|lra].
    apply round32_nonneg. unfold Qdiv. apply Qmult_le_0_compat; [done|].
    apply Qinv_le_0_compat. lra. }
  set (P := p * r) in *. set (q := round32 P) in *.
  set (m4 := round32 (2 ^ 2 * p)) in *. set (s := round32 (m4 + r)) in *.
  set (d := round32 (s + eps32)) in *.
  assert (F2v p r = f32_mul (1 + 2 ^ 2) (f32_div q d)) as EF by reflexivity.
  assert (P == 0 -> F2v p r <= 1) as Hzero.
  { intros Hz. rewrite EF. unfold f32_mul, f32_div, q. rewrite (round32_0 P Hz).
    rewrite (round32_0 (0 / d)) by (unfold Qdiv; ring).
    rewrite round32_0 by ring. discriminate. }
  destruct Hpn as [Hpz|Hpn]; [apply Hzero; unfold P; rewrite Hpz; ring|].
  destruct Hrn as [Hrz|Hrn]; [apply Hzero; unfold P; rewrite Hrz; ring|].
  clear Hzero.
  change (2 ^ (-25)) with (1 # 33554432) in Hpn, Hrn.
  assert (m4 <= 4) as Hm4.
  { change 4 with (round32 4). apply round32_le; change (2 ^ 2) with 4; lra. }
  assert (5 * q <= s -> F2v p r <= 1) as Hgo.
  { intros H. rewrite EF. assert (0 < s) as Hs.
    { destruct (Qle_lt_or_eq _ _ Hs0) as [H1|H1]; [exact H1|exfalso].
      
      assert (round32 r <= s) as Hrs.
      { apply round32_le; lra. }
      rewrite Fr in Hrs. lra. }
    apply F2v_tail; [done|lra|]. change (1 + 2 ^ 2) with 5. lra. }
  clear EF.
  assert (P <= p) as HPp.
  { unfold P. rewrite <- (Qmult_1_r p) at 2. rewrite !(Qmult_comm p).
    apply Qmult_le_compat_r; lra. }
  assert (P <= r) as HPr.
  { unfold P. rewrite <- (Qmult_1_l r) at 2. apply Qmult_le_compat_r; lra. }
  assert (2 ^ 2 * p == 4 * p) as E4 by reflexivity.
  destruct (Qlt_le_dec (1 # 2) r) as [Hr2|Hr2].
  2:{ 
    apply Hgo.
    assert ((1 # 33554432) * (1 # 33554432) <= P) as HPlow.
    { unfold P. apply Qle_trans with (p * (1 # 33554432)).
      - apply Qmult_le_compat_r; [lra|discriminate].
      - rewrite !(Qmult_comm p). apply Qmult_le_compat_r; lra. }
    assert (P <= p * (1 # 2)) as HPh.
    { unfold P. rewrite !(Qmult_comm p). apply Qmult_le_compat_r; lra. }
    destruct (round32_rel_err P) as [_ Eq].
    { apply Qle_trans with (2 := HPlow). discriminate. }
    destruct (round32_rel_err (2 ^ 2 * p)) as [Em _].
    { rewrite E4. apply Qle_trans with (4 * (1 # 33554432)); [discriminate|lra]. }
    destruct (round32_rel_err (m4 + r)) as [Es _].
    { apply Qle_trans with (1 # 33554432); [discriminate|lra]. }
    fold q in Eq. fold m4 in Em. fold s in Es. rewrite E4 in Em.
    change u32 with (1 # 16777216) in *. lra. }
  destruct (Qlt_le_dec (1 # 2) p) as [Hp2|Hp2].
  2:{ 
    apply Hgo.
    assert ((1 # 33554432) * (1 # 33554432) <= P) as HPlow.
    { unfold P. apply Qle_trans with (p * (1 # 33554432)).
      - apply Qmult_le_compat_r; [lra|discriminate].
      - rewrite !(Qmult_comm p). apply Qmult_le_compat_r; lra. }
    assert (P <= (1 # 2) * r) as HPh.
    { unfold P. apply Qmult_le_compat_r; lra. }
    destruct (round32_rel_err P) as [_ Eq].
    { apply Qle_trans with (2 := HPlow). discriminate. }
    destruct (round32_rel_err (2 ^ 2 * p)) as [Em _].
    { rewrite E4. apply Qle_trans with (4 * (1 # 33554432)); [discriminate|lra]. }
    destruct (round32_rel_err (m4 + r)) as [Es _].
    { apply Qle_trans with (1 # 33554432); [discriminate|lra]. }
    fold q in Eq. fold m4 in Em. fold s in Es. rewrite E4 in Em.
    change u32 with (1 # 16777216) in *. lra. }
  destruct (round32_near_one p) as (a & Ha & Ea); [lra|rewrite Fp; lra|rewrite Fp; lra|].
  destruct (round32_near_one r) as (b & Hb & Eb); [lra|rewrite Fr; lra|rewrite Fr; lra|].
  rewrite Fp in Ea. rewrite Fr in Eb.
  destruct (Z_le_gt_dec a 10%Z) as [Ha10|Ha10]; [destruct (Z_le_gt_dec b 6%Z) as [Hb6|Hb6]|].
  { rewrite Ea, Eb. apply F2v_near_one; lia. }
  all: apply Hgo.
  all: set (A := inject_Z a) in *; set (B := inject_Z b) in *.
  all: assert (0 <= A) as HA0 by (unfold A; rewrite <- (Zle_Qle 0); lia).
  all: assert (0 <= B) as HB0 by (unfold B; rewrite <- (Zle_Qle 0); lia).
  all: assert (A <= 8388608) as HA1
         by (change 8388608 with (inject_Z (2 ^ 23)); unfold A; rewrite <- Zle_Qle; lia).
  all: assert (A * B <= 8388608 * B) as HAB by (apply Qmult_le_compat_r; lra).
  all: assert (P == 1 - A * u32 - B * u32 + (A * B) * u32 * u32) as EP
         by (unfold P; rewrite Ea, Eb; ring).
  all: change u32 with (1 # 16777216) in *.
  1: assert (7 <= B) as HB7
       by (change 7 with (inject_Z 7); unfold B; rewrite <- Zle_Qle; lia).
  2: assert (11 <= A) as HA11
       by (change 11 with (inject_Z 11); unfold A; rewrite <- Zle_Qle; lia).
  all: assert (P < 1) as HP1 by lra.
  all: destruct (round32_abs_err P 0) as [Eq _]; [lra|exact HP1|unfold emin; lia|].
  all: destruct (round32_abs_err (2 ^ 2 * p) 3) as [_ Em];
         [rewrite E4; lra|rewrite E4; change (2 ^ 3) with 8; lra|unfold emin; lia|].
  all: destruct (round32_abs_err (m4 + r) 3) as [_ Es];
         [lra|change (2 ^ 3) with 8; lra|unfold emin; lia|].
  all: fold q in Eq; fold m4 in Em; fold s in Es; rewrite E4 in Em.
  all: change (2 ^ (0 - 25)) with (1 # 33554432) in Eq.
  all: change (2 ^ (3 - 25)) with (1 # 4194304) in Em, Es.
  all: lra.
Qed.

(** ** The metrics against their reference formulas *)

Lemma K_epsilon_pos : 0 < K_epsilon.
Proof. reflexivity. Qed.

(** C6: [prec], [reca] and [F2] compute the reference formulas for precision,
    recall and F2 (beta = 2), with the backend's epsilon, a fixed positive
    constant far below 1, in the place of the formulas' epsilon. *)
Theorem C6_metrics_are_reference_formulas (yt yp : tensor) :
  prec yt yp == precision_spec K_epsilon yt yp
  /\ reca yt yp == recall_spec K_epsilon yt yp
  /\ F2 yt yp == F2_spec K_epsilon yt yp 2
  /\ 0 < K_epsilon /\ K_epsilon <= 1 # 1000000.
Proof.
  split; [|split; [|split; [|split]]].
  - unfold prec, precision_spec. reflexivity.
  - unfold reca, recall_spec. reflexivity.
  - unfold F2, F2_beta, F2_spec.
    change (prec yt yp) with (precision_spec K_epsilon yt yp).
    change (reca yt yp) with (recall_spec K_epsilon yt yp).
    unfold Qdiv. ring.
  - exact K_epsilon_pos.
  - discriminate.
Qed.

(** ** fit: the preconditions *)

(** C8: a call of [fit] whose shape is not of length one, whose validation
    strategy is neither "random_split" nor "cross_validate", whose number of
    folds is at most one, or whose two proportions do not add up to 1.0
    raises AssertionError and leaves the world as it found it: no dataset is
    read, nothing is allocated, drawn or logged. *)
Theorem C8_fit_precondition_violation
    (R : rng) (traces_func spikes_func : string -> option tensor)
    (keras_train : tensor * tensor -> tensor * tensor -> nat -> nat ->
                   metrics * metrics * string * nat)
    (a : fit_args) (w : world) :
  length (shape a) ≠ 1%nat
  \/ (val_type a ≠ "random_split"%string /\ val_type a ≠ "cross_validate"%string)
  \/ (nb_folds a <= 1)%Z
  \/ SFeqb (f64_add (prop_trn a) (prop_val a)) f64_one = false ->
  fit R traces_func spikes_func keras_train a w = (Raise AssertionError, w).
Proof.
  intros Hbad. unfold fit, bind.
  destruct (bool_decide (length (shape a) = 1%nat)) eqn:E1; [|reflexivity].
  apply bool_decide_eq_true in E1. cbn [py_assert ret].
  destruct (bool_decide (val_type a ∈ ["random_split"; "cross_validate"]%string)) eqn:E2;
    [|reflexivity].
  apply bool_decide_eq_true in E2. cbn [py_assert ret].
  destruct (bool_decide (1 < nb_folds a)%Z) eqn:E3; [|reflexivity].
  apply bool_decide_eq_true in E3. cbn [py_assert ret].
  destruct (SFeqb (f64_add (prop_trn a) (prop_val a)) f64_one) eqn:E4; [|reflexivity].
  exfalso. destruct Hbad as [H|[[H1 H2]|[H|H]]]; [done| |lia|done].
  rewrite !elem_of_cons in E2. destruct E2 as [E2|[E2|E2]]; [done|done|].
  by apply elem_of_nil in E2.
Qed.

Definition f64_08 : spec_float := S754_finite false 7205759403792794 (-53).
Definition f64_02 : spec_float := S754_finite false 7205759403792794 (-55).

Definition fit_defaults (paths : list string) : fit_args :=
  {| dataset_paths := paths; shape := [4096%nat]; error_margin := 4; batch := 20;
     nb_epochs := 20; val_type := "random_split"; prop_trn := f64_08;
     prop_val := f64_02; nb_folds := 5 |}.

Definition no_keras (xy_trn xy_val : tensor * tensor) (steps epochs : nat)
  : metrics * metrics * string * nat := ([], [], ""%string, 0%nat).

Definition world0 : world := {| w_store := ∅; w_calls := 0; w_events := [] |}.

Definition rng_identity : rng := {| rng_perm := fun _ a => a; rng_raw := fun k => k |}.
Definition rng_reversing : rng := {| rng_perm := fun _ a => reverse a; rng_raw := fun k => k |}.

Lemma C8_witness :
  fit rng_identity (fun _ => None) (fun _ => None) no_keras
      {| dataset_paths := ["a.h5"%string]; shape := [4096%nat]; error_margin := 4;
         batch := 20; nb_epochs := 20; val_type := "cross_validate";
         prop_trn := f64_08; prop_val := f64_02; nb_folds := 1 |} world0
  = (Raise AssertionError, world0).
Proof.
  apply C8_fit_precondition_violation. right. right. left. cbn. lia.
Defined.

(** The defaults pass the four checks: 0.8 + 0.2 is 1.0 in binary64, and the
    first thing [fit] does next is to read the first dataset. *)
Example fit_defaults_reach_the_data :
  fit rng_identity (fun _ => None) (fun _ => None) no_keras (fit_defaults ["a.h5"%string]) world0
  = (Raise IOError, {| w_store := ∅; w_calls := 0; w_events := [Load_traces "a.h5"] |}).
Proof. vm_compute. reflexivity. Qed.

(** ** predict *)

Section PredictFacts.
Variable attrs_func : string -> option (gmap string string).
Variable traces_func : string -> option tensor.
Variable keras_predict : string -> nat -> tensor -> nat -> option tensor.

(** What one dataset contributes to the two result lists. *)
Definition prediction_of (model_path : string) (batch : nat) (threshold : Q)
    (p : string) (r : tensor * string) : Prop :=
  exists attrs traces probs,
    attrs_func p = Some attrs /\ attrs !! "name"%string = Some r.2
    /\ traces_func p = Some traces
    /\ keras_predict model_path (shape1 traces) traces batch = Some probs
    /\ r.1 = binarize threshold probs.

Lemma predict_one_Ok model_path batch threshold p r w w' :
  predict_one attrs_func traces_func keras_predict model_path batch threshold p w = (Ok r, w') ->
  prediction_of model_path batch threshold p r.
Proof.
  unfold predict_one, bind, emit, lift_opt, ret, raise, prediction_of. cbn.
  destruct (attrs_func p) as [attrs|] eqn:Ea; [|discriminate].
  destruct (attrs !! "name"%string) as [name|] eqn:En; [|discriminate].
  destruct (traces_func p) as [traces|] eqn:Et; [|discriminate]. cbn.
  destruct (keras_predict _ _ _ _) as [probs|] eqn:Ek; [|discriminate].
  intros [= <- <-]. by exists attrs, traces, probs.
Qed.

Lemma predict_one_returns model_path batch threshold p w attrs name traces probs :
  attrs_func p = Some attrs -> attrs !! "name"%string = Some name ->
  traces_func p = Some traces ->
  keras_predict model_path (shape1 traces) traces batch = Some probs ->
  exists w', predict_one attrs_func traces_func keras_predict model_path batch threshold p w
             = (Ok (binarize threshold probs, name), w').
Proof.
  intros Ea En Et Ek.
  unfold predict_one, bind, emit, lift_opt, ret, raise. cbn.
  rewrite Ea. cbn. rewrite En. cbn. rewrite Et. cbn. rewrite Ek. eauto.
Qed.

Lemma predict_loop_Ok model_path batch threshold paths acc_p acc_n w ps ns w' :
  predict_loop attrs_func traces_func keras_predict model_path batch threshold
    paths acc_p acc_n w = (Ok (ps, ns), w') ->
  exists rs, ps = acc_p ++ rs.*1 /\ ns = acc_n ++ rs.*2
             /\ Forall2 (prediction_of model_path batch threshold) paths rs.
Proof.
  revert acc_p acc_n w.
  induction paths as [|p rest IH]; intros acc_p acc_n w; cbn.
  - intros [= <- <- <-]. exists []. by rewrite !app_nil_r.
  - unfold bind at 1.
    destruct (predict_one _ _ _ _ _ _ p w) as [[r|e] w1] eqn:E1; [|discriminate].
    intros Hrest. apply IH in Hrest as (rs & -> & -> & Hrs).
    exists (r :: rs). rewrite <- !app_assoc. cbn.
    repeat split; [done..|]. constructor; [|done]. by eapply predict_one_Ok.
Qed.

Lemma binarize_binary threshold t : Forall (Forall binary) (binarize threshold t).
Proof.
  unfold binarize. apply Forall_fmap, Forall_true. intros row.
  apply Forall_fmap, Forall_true. intros x. unfold binarize1, binary, compose.
  destruct (Qle_bool x (round32 threshold)); [by left|by right].
Qed.

Lemma binarize1_strict threshold x :
  (round32 threshold < x -> binarize1 threshold x = 1)
  /\ (x <= round32 threshold -> binarize1 threshold x = 0).
Proof.
  unfold binarize1. destruct (Qle_bool x (round32 threshold)) eqn:E.
  - apply Qle_bool_iff in E. split; [|done]. intros H. exfalso. by apply (Qlt_not_le _ _ H).
  - split; [done|]. intros H. apply Qle_bool_iff in H. congruence.
Qed.

(** What a returned prediction is, entry by entry: it has the shape of the
    probabilities, and the entry at a place is 1 when the probability at
    this place is above the threshold as binary32 holds it, 0 otherwise; a
    probability equal to the threshold gives 0, and a threshold that
    binary32 holds exactly is compared as it is. *)
Definition thresholded (threshold : Q) (probs pred : tensor) : Prop :=
  length pred = length probs
  /\ forall j row, probs !! j = Some row ->
       exists prow, pred !! j = Some prow /\ length prow = length row
         /\ forall k x, row !! k = Some x ->
              exists y, prow !! k = Some y
                /\ (round32 threshold < x -> y = 1)
                /\ (x <= round32 threshold -> y = 0)
                /\ (round32 x == x -> x == threshold -> y = 0)
                /\ (round32 threshold == threshold ->
                      (threshold < x -> y = 1) /\ (x <= threshold -> y = 0)).

Lemma binarize_thresholded threshold probs : thresholded threshold probs (binarize threshold probs).
Proof.
  unfold binarize. split; [apply length_map|].
  intros j row Hj. exists (map (binarize1 threshold) row).
  split; [by rewrite list_lookup_fmap, Hj|]. split; [apply length_map|].
  intros k x Hk. exists (binarize1 threshold x).
  split; [by rewrite list_lookup_fmap, Hk|].
  destruct (binarize1_strict threshold x) as [H1 H0].
  split; [exact H1|]. split; [exact H0|]. split.
  - intros Hx Heq. apply H0. rewrite <- Heq, Hx. apply Qle_refl.
  - intros Ht. split; intros H; [apply H1|apply H0]; by rewrite Ht.
Qed.


(** [predict] returns whenever every dataset can be read, has a name and
    the model loads for its trace length. *)
Lemma predict_loop_returns model_path batch threshold paths :
  Forall (fun p => exists attrs name traces probs,
            attrs_func p = Some attrs /\ attrs !! "name"%string = Some name
            /\ traces_func p = Some traces
            /\ keras_predict model_path (shape1 traces) traces batch = Some probs) paths ->
  forall acc_p acc_n w, exists r w',
    predict_loop attrs_func traces_func keras_predict model_path batch threshold
      paths acc_p acc_n w = (Ok r, w').
Proof.
  induction 1 as [|p rest (attrs & name & traces & probs & Ea & En & Et & Ek) _ IH];
    intros acc_p acc_n w; cbn.
  - unfold ret. eauto.
  - unfold bind at 1.
    destruct (predict_one_returns model_path batch threshold p w _ _ _ _ Ea En Et Ek)
      as [w1 ->].
    apply IH.
Qed.
End PredictFacts.

Definition demo_attrs (p : string) : option (gmap string string) :=
  Some {[ "name"%string := ("ds-" +:+ p)%string ]}.
Definition demo_traces (p : string) : option tensor :=
  Some [[1; 2; 3]; [4; 5; 6]].
Definition demo_net (model_path : string) (input_len : nat) (x : tensor) (batch : nat)
  : option tensor :=
  Some [[1 # 2; 3 # 4; 1 # 4]; [1; 0; 51 # 100]].

(** The Python float [0.3], the binary32 number nearest to it, and a model
    that gives this number as a probability. *)
Definition float_03 : Q := 5404319552844595 # 18014398509481984.
Definition float32_03 : Q := 10066330 # 33554432.
Definition demo_net_03 (model_path : string) (input_len : nat) (x : tensor) (batch : nat)
  : option tensor :=
  Some [[float32_03; 0; 1]; [1 # 4; float32_03; 3 # 4]].

(** C10 (as stated): with the threshold 0.3 a probability of
    [10066330 * 2^-25], a binary32 number, is strictly above the threshold,
    a Python float just below 3/10; the comparison is made with the
    threshold rounded to binary32, which is this very probability, and the
    prediction at its place is 0. *)
Lemma C10_counterexample :
  float_03 < float32_03 /\ float_03 < 3 # 10 /\ round32 float32_03 == float32_03
  /\ round32 float_03 == float32_03
  /\ (predict demo_attrs demo_traces demo_net_03 ["a"]%string "m.hdf5" 32 float_03 world0).1
     = Ok ([[[0; 0; 1]; [0; 0; 1]]], ["ds-a"]%string).
Proof.
  split; [reflexivity|]. split; [reflexivity|]. split; [reflexivity|].
  split; [reflexivity|]. vm_compute. reflexivity.
Qed.

Example predict_demo :
  (predict demo_attrs demo_traces demo_net ["a"; "b"]%string "m.hdf5" 32 (1 # 2) world0).1
  = Ok ([[[0; 1; 0]; [1; 0; 1]]; [[0; 1; 0]; [1; 0; 1]]], ["ds-a"; "ds-b"]%string).
Proof. vm_compute. reflexivity. Qed.


(** ** Slices *)

Lemma lookup_slice {A} (lo hi j : nat) (l : list A) (x : A) :
  slice lo hi l !! j = Some x <-> (j < hi - lo)%nat /\ l !! (lo + j)%nat = Some x.
Proof.
  unfold slice. rewrite lookup_take_Some, lookup_drop. tauto.
Qed.

Lemma elem_of_slice {A} (lo hi : nat) (l : list A) (x : A) :
  x ∈ slice lo hi l <-> exists j, (lo <= j < hi)%nat /\ l !! j = Some x.
Proof.
  rewrite list_elem_of_lookup. split.
  - intros [j Hj]. apply lookup_slice in Hj as [? ?]. exists (lo + j)%nat. split; [lia|done].
  - intros (j & ? & Hj). exists (j - lo)%nat. apply lookup_slice.
    split; [lia|]. by replace (lo + (j - lo))%nat with j by lia.
Qed.

Lemma length_slice {A} (lo hi : nat) (l : list A) :
  (hi <= length l)%nat -> length (slice lo hi l) = (hi - lo)%nat.
Proof.
  intros H. unfold slice. rewrite length_take, length_drop. lia.
Qed.

Lemma slice_chunks_concat {A} (s k : nat) (l : list A) :
  concat (map (fun n => slice (s * n) (s * n + s) l) (seq 0 k)) = take (s * k) l.
Proof.
  induction k as [|k IH].
  - cbn. by rewrite Nat.mul_0_r.
  - rewrite seq_S, map_app, concat_app, IH. cbn. rewrite app_nil_r.
    unfold slice. replace (s * k + s - s * k)%nat with s by lia.
    replace (s * S k)%nat with (s * k + s)%nat by lia.
    by rewrite take_take_drop.
Qed.

(** ** fit: the folds of the cross-validation *)

Lemma fold_idxs_lookup (idxs : list nat) (k n : nat) :
  (n < k)%nat ->
  fold_idxs idxs k !! n
  = Some (slice (fold_size idxs k * n) (fold_size idxs k * n + fold_size idxs k) idxs).
Proof.
  intros Hn. unfold fold_idxs. cbn zeta.
  rewrite list_lookup_fmap, lookup_seq_lt by done. done.
Qed.

Lemma fold_idxs_length (idxs : list nat) (k : nat) : length (fold_idxs idxs k) = k.
Proof. unfold fold_idxs. by rewrite length_map, length_seq. Qed.

Lemma fold_chunk_inside (idxs : list nat) (k n : nat) :
  (n < k)%nat -> (fold_size idxs k * n + fold_size idxs k <= length idxs)%nat.
Proof.
  intros Hn. unfold fold_size.
  assert (k * (length idxs / k) <= length idxs)%nat by (apply Nat.Div0.mul_div_le).
  nia.
Qed.

Lemma folds_disjoint (idxs : list nat) (k i j : nat) (fi fj : list nat) (x : nat) :
  NoDup idxs -> i ≠ j ->
  fold_idxs idxs k !! i = Some fi -> fold_idxs idxs k !! j = Some fj ->
  x ∈ fi -> x ∉ fj.
Proof.
  intros Hnd Hij Hi Hj Hxi Hxj.
  assert (i < k)%nat as Hik.
  { apply lookup_lt_Some in Hi. by rewrite fold_idxs_length in Hi. }
  assert (j < k)%nat as Hjk.
  { apply lookup_lt_Some in Hj. by rewrite fold_idxs_length in Hj. }
  rewrite fold_idxs_lookup in Hi, Hj by done.
  injection Hi as <-. injection Hj as <-.
  apply elem_of_slice in Hxi as (a & Ha & Hxa).
  apply elem_of_slice in Hxj as (b & Hb & Hxb).
  pose proof (NoDup_lookup _ _ _ _ Hnd Hxa Hxb) as ->.
  nia.
Qed.

Lemma filter_imap_at {A} (v k : nat) (l : list A) :
  filter (fun p : nat * A => p.1 = v) (imap (fun i x => ((k + i)%nat, x)) l)
  = match l !! (v - k)%nat with
    | Some x => if decide (k <= v)%nat then [(v, x)] else []
    | None => []
    end.
Proof.
  revert k. induction l as [|y l IH]; intros k; [done|].
  rewrite imap_cons, filter_cons. cbn [fst].
  rewrite (imap_ext _ (fun i x => ((S k + i)%nat, x))) by (intros; cbn; f_equal; lia).
  rewrite IH. destruct (decide ((k + 0)%nat = v)) as [Hv|Hv].
  - replace (v - k)%nat with 0%nat by lia. cbn.
    rewrite decide_True by lia. replace (k + 0)%nat with v by lia.
    replace (v - S k)%nat with 0%nat by lia.
    destruct (l !! 0%nat); [|done]. by rewrite decide_False by lia.
  - destruct (decide (k <= v)%nat).
    + replace (v - k)%nat with (S (v - S k)) by lia. cbn.
      destruct (l !! (v - S k)%nat); [|done]. by rewrite decide_True by lia.
    + replace (v - k)%nat with 0%nat by lia. replace (v - S k)%nat with 0%nat by lia.
      cbn. destruct (l !! 0%nat); [|done]. by rewrite decide_False by lia.
Qed.

Lemma idxs_val_of_lookup (folds : list (list nat)) (v : nat) (fold : list nat) :
  folds !! v = Some fold -> idxs_val_of folds v = fold.
Proof.
  intros Hv. unfold idxs_val_of.
  rewrite (imap_ext _ (fun i x => ((0 + i)%nat, x))) by done.
  rewrite filter_imap_at, Nat.sub_0_r, Hv, decide_True by lia.
  cbn. by rewrite app_nil_r.
Qed.

Lemma elem_of_idxs_trn_of (folds : list (list nat)) (v x : nat) :
  x ∈ idxs_trn_of folds v <->
  exists i fold, i ≠ v /\ folds !! i = Some fold /\ x ∈ fold.
Proof.
  unfold idxs_trn_of. rewrite list_elem_of_In, in_concat.
  setoid_rewrite <- list_elem_of_In. split.
  - intros (fold & Hf & Hx). apply list_elem_of_fmap in Hf as ([i f] & -> & Hf).
    apply list_elem_of_filter in Hf as [Hne Hf]. cbn in *.
    apply elem_of_lookup_imap in Hf as (i' & f' & [= -> ->] & Hl).
    by exists i', f'.
  - intros (i & fold & Hne & Hl & Hx). exists fold. split; [|done].
    apply list_elem_of_fmap. exists (i, fold). split; [done|].
    apply list_elem_of_filter. split; [done|].
    apply elem_of_lookup_imap. by exists i, fold.
Qed.

Lemma disjoint_idxs_true (trn val : list nat) :
  (forall x, x ∈ trn -> x ∉ val) -> disjoint_idxs trn val = true.
Proof.
  intros H. unfold disjoint_idxs. apply bool_decide_eq_true.
  apply set_eq. intros x. rewrite elem_of_intersection, !elem_of_list_to_set.
  split; [|by intros ?%not_elem_of_empty]. intros [H1 H2]. by destruct (H x H1).
Qed.

(** C7: for more than one fold and a shuffled index set of size [N], [fit]
    cuts [nb_folds] contiguous chunks of [N / nb_folds] indices out of the
    one permutation; the chunks are pairwise disjoint; the validation indices
    of a fold are its chunk and share nothing with its training indices, so
    the assertion of [fit] holds; all validation indices together are the
    permutation without its last [N mod nb_folds] entries, at most
    [nb_folds - 1] of them.  With 5 folds and 100 traces every fold has 20
    indices and together they are the whole permutation. *)
Theorem C7_fold_partition (nb_folds N : nat) (idxs : list nat) :
  (1 < nb_folds)%nat -> idxs ≡ₚ seq 0 N ->
  let fsz := (N / nb_folds)%nat in
  let folds := fold_idxs idxs nb_folds in
  length folds = nb_folds
  /\ (forall n, (n < nb_folds)%nat ->
        folds !! n = Some (slice (fsz * n) (fsz * n + fsz) idxs)
        /\ length (slice (fsz * n) (fsz * n + fsz) idxs) = fsz)
  /\ (forall i j fi fj x, i ≠ j -> folds !! i = Some fi -> folds !! j = Some fj ->
        x ∈ fi -> x ∉ fj)
  /\ (forall v, (v < nb_folds)%nat ->
        folds !! v = Some (idxs_val_of folds v)
        /\ (forall x, x ∈ idxs_trn_of folds v -> x ∉ idxs_val_of folds v)
        /\ disjoint_idxs (idxs_trn_of folds v) (idxs_val_of folds v) = true)
  /\ concat (map (idxs_val_of folds) (seq 0 nb_folds)) = take (fsz * nb_folds) idxs
  /\ idxs = take (fsz * nb_folds) idxs ++ drop (fsz * nb_folds) idxs
  /\ length (drop (fsz * nb_folds) idxs) = (N mod nb_folds)%nat
  /\ (N mod nb_folds <= nb_folds - 1)%nat
  /\ (N = 100%nat -> nb_folds = 5%nat ->
        Forall (fun fold => length fold = 20%nat) folds
        /\ concat (map (idxs_val_of folds) (seq 0 nb_folds)) = idxs).
Proof.
  intros Hk Hperm fsz folds.
  assert (length idxs = N) as Hlen by (by rewrite Hperm, length_seq).
  assert (NoDup idxs) as Hnd by (rewrite Hperm; apply NoDup_seq).
  assert (fold_size idxs nb_folds = fsz) as Hfsz by (unfold fold_size; by rewrite Hlen).
  assert (forall v, (v < nb_folds)%nat -> folds !! v = Some (idxs_val_of folds v)) as Hval.
  { intros v Hv. pose proof (fold_idxs_lookup idxs nb_folds v Hv) as Hl.
    fold folds in Hl. by rewrite (idxs_val_of_lookup _ _ _ Hl). }
  assert (concat (map (idxs_val_of folds) (seq 0 nb_folds)) = take (fsz * nb_folds) idxs)
    as Hunion.
  { rewrite <- (slice_chunks_concat fsz nb_folds idxs). f_equal.
    apply map_ext_in. intros v Hv%in_seq.
    apply idxs_val_of_lookup. unfold folds.
    rewrite fold_idxs_lookup by lia. by rewrite Hfsz. }
  assert (fsz * nb_folds + N mod nb_folds = N)%nat as Hdiv.
  { unfold fsz. pose proof (Nat.div_mod_eq N nb_folds). lia. }
  split; [apply fold_idxs_length|].
  split.
  { intros n Hn. pose proof (fold_idxs_lookup idxs nb_folds n Hn) as Hl.
    pose proof (fold_chunk_inside idxs nb_folds n Hn) as Hin.
    rewrite Hfsz in Hl, Hin. split; [done|]. rewrite length_slice by done. lia. }
  split; [intros i j fi fj x; by apply folds_disjoint|].
  split.
  { intros v Hv. split; [by apply Hval|].
    assert (forall x, x ∈ idxs_trn_of folds v -> x ∉ idxs_val_of folds v) as Hdisj.
    { intros x (i & fold & Hne & Hi & Hx)%elem_of_idxs_trn_of.
      by eapply (folds_disjoint idxs nb_folds i v); [| | |apply Hval|]. }
    split; [done|]. by apply disjoint_idxs_true. }
  split; [done|].
  split; [by rewrite take_drop|].
  split; [rewrite length_drop; lia|].
  split; [pose proof (Nat.mod_upper_bound N nb_folds); lia|].
  intros -> ->. split.
  - apply Forall_forall. intros fold Hin.
    apply list_elem_of_lookup in Hin as [n Hn].
    assert (n < 5)%nat as Hn5.
    { apply lookup_lt_Some in Hn. unfold folds in Hn. by rewrite fold_idxs_length in Hn. }
    pose proof (fold_chunk_inside idxs 5 n Hn5) as Hin.
    unfold folds in Hn. rewrite fold_idxs_lookup in Hn by done.
    rewrite Hfsz in Hn, Hin. injection Hn as <-.
    rewrite length_slice by done.
    change fsz with 20%nat. lia.
  - rewrite Hunion. apply take_ge. rewrite Hlen. change fsz with 20%nat. lia.
Qed.

Lemma C7_witness :
  (1 < 5)%nat /\ reverse (seq 0 100) ≡ₚ seq 0 100
  /\ length (fold_idxs (reverse (seq 0 100)) 5) = 5%nat.
Proof.
  split; [lia|]. split; [apply reverse_Permutation|].
  apply (C7_fold_partition 5 100 (reverse (seq 0 100))); [lia|apply reverse_Permutation].
Defined.

Example folds_of_eleven :
  fold_idxs [7; 3; 10; 0; 5; 9; 1; 8; 2; 6; 4]%nat 3
  = [[7; 3; 10]; [0; 5; 9]; [1; 8; 2]]%nat.
Proof. reflexivity. Qed.

(** ** The store under allocation and rebinding *)

(** Every object other than [ls] that exists stays what it is. *)
Definition unchanged_except (ls : loc) (σ σ' : store) : Prop :=
  forall l o, l ≠ ls -> σ !! l = Some o -> σ' !! l = Some o.

Lemma unchanged_except_refl ls σ : unchanged_except ls σ σ.
Proof. by intros l o _ H. Qed.

Lemma unchanged_except_trans ls σ1 σ2 σ3 :
  unchanged_except ls σ1 σ2 -> unchanged_except ls σ2 σ3 -> unchanged_except ls σ1 σ3.
Proof. intros H12 H23 l o Hne Hl. apply H23; [done|]. by apply H12. Qed.

Lemma alloc_spec (σ σ' : store) (o : pyobj) (l : loc) :
  alloc σ o = (l, σ') -> σ !! l = None /\ σ' = <[l := o]> σ.
Proof.
  unfold alloc. intros [= <- <-]. split; [|done].
  apply not_elem_of_dom, is_fresh.
Qed.

Lemma alloc_subseteq (σ σ' : store) (o : pyobj) (l : loc) :
  alloc σ o = (l, σ') -> σ ⊆ σ'.
Proof. intros [Hl ->]%alloc_spec. by apply insert_subseteq. Qed.

Lemma deref_list_Some (σ : store) (ls : loc) (t : tensor) :
  deref_list σ ls = Some t <->
  exists refs, σ !! ls = Some (Lst refs) /\ Forall2 (fun r a => σ !! r = Some (Arr a)) refs t.
Proof.
  unfold deref_list, get_lst. split.
  - destruct (σ !! ls) as [[a|refs]|] eqn:E; cbn; [done| |done].
    intros H%mapM_Some. exists refs. split; [done|].
    eapply Forall2_impl; [exact H|]. intros r a. unfold get_arr.
    destruct (σ !! r) as [[?|?]|]; naive_solver.
  - intros (refs & -> & H). cbn. apply mapM_Some.
    eapply Forall2_impl; [exact H|]. intros r a Hr. unfold get_arr. by rewrite Hr.
Qed.

Lemma deref_list_weaken (σ σ' : store) (ls : loc) (t : tensor) :
  σ ⊆ σ' -> deref_list σ ls = Some t -> deref_list σ' ls = Some t.
Proof.
  intros Hsub (refs & Hls & H)%deref_list_Some. apply deref_list_Some.
  exists refs. split; [exact (lookup_weaken _ _ _ _ Hls Hsub)|].
  eapply Forall2_impl; [exact H|]. intros r a Hr. exact (lookup_weaken _ _ _ _ Hr Hsub).
Qed.

(** ** np.unique and np.where *)

Lemma elem_of_np_unique (l : list nat) (x : nat) : x ∈ np_unique l <-> x ∈ l.
Proof. unfold np_unique. by rewrite merge_sort_Permutation, elem_of_remove_dups. Qed.

Lemma NoDup_np_unique (l : list nat) : NoDup (np_unique l).
Proof. unfold np_unique. rewrite merge_sort_Permutation. apply NoDup_remove_dups. Qed.

Lemma elem_of_np_where_eq (lens : list nat) (l i : nat) :
  i ∈ np_where_eq lens l <-> lens !! i = Some l.
Proof.
  unfold np_where_eq. rewrite list_elem_of_filter, elem_of_seq. split; [tauto|].
  intros H. split; [done|]. apply lookup_lt_Some in H. lia.
Qed.

Lemma NoDup_np_where_eq (lens : list nat) (l : nat) : NoDup (np_where_eq lens l).
Proof. unfold np_where_eq. apply NoDup_filter, NoDup_seq. Qed.

(** ** The dilation, group by group *)

Lemma write_back_spec (σ : store) (ls : loc) (refs : list loc) (idxs : list nat) (x : tensor) :
  σ !! ls = Some (Lst refs) -> NoDup idxs ->
  Forall (fun i => i < length refs)%nat idxs -> length x = length idxs ->
  exists σ' refs',
    write_back σ ls idxs x = Some σ'
    /\ σ' !! ls = Some (Lst refs') /\ length refs' = length refs
    /\ (forall j, j ∉ idxs -> refs' !! j = refs !! j)
    /\ (forall n i row, idxs !! n = Some i -> x !! n = Some row ->
          exists r, refs' !! i = Some r /\ σ' !! r = Some (Arr row))
    /\ unchanged_except ls σ σ'.
Proof.
  revert σ refs x. induction idxs as [|i idxs IH]; intros σ refs x Hls Hnd Hlt Hlen.
  - exists σ, refs. cbn. repeat split; try done.
    apply unchanged_except_refl.
  - destruct x as [|row x]; [done|]. cbn in Hlen.
    apply NoDup_cons in Hnd as [Hi Hnd]. apply Forall_cons in Hlt as [Hilt Hlt].
    cbn [write_back]. destruct (alloc σ (Arr row)) as [r σ1] eqn:Ea.
    apply alloc_spec in Ea as [Hr ->].
    assert (r ≠ ls) as Hrls by (intros ->; congruence).
    unfold list_setitem, get_lst. rewrite lookup_insert_ne by done. rewrite Hls. cbn.
    rewrite decide_True by done. cbn.
    set (σ2 := <[ls := Lst (<[i := r]> refs)]> (<[r := Arr row]> σ)).
    destruct (IH σ2 (<[i := r]> refs) x) as (σ' & refs' & Hwb & Hls' & Hlen' & Hout & Hin & Hfr).
    { unfold σ2. by rewrite lookup_insert_eq. }
    { done. }
    { by rewrite length_insert. }
    { lia. }
    exists σ', refs'. rewrite length_insert in Hlen'.
    split; [done|]. split; [done|]. split; [done|].
    assert (σ2 !! r = Some (Arr row)) as Hr2.
    { unfold σ2. rewrite lookup_insert_ne by done. by rewrite lookup_insert_eq. }
    split; [|split].
    + intros j Hj. apply not_elem_of_cons in Hj as [Hji Hj].
      rewrite Hout by done. by rewrite list_lookup_insert_ne.
    + intros [|n] i' row' Hi' Hrow'; cbn in Hi', Hrow'.
      * injection Hi' as <-. injection Hrow' as <-. exists r. split.
        -- rewrite Hout by done. by rewrite list_lookup_insert_eq.
        -- by apply Hfr.
      * by eapply Hin.
    + intros l o Hne Hl. apply Hfr; [done|]. unfold σ2.
      rewrite lookup_insert_ne by done. rewrite lookup_insert_ne by congruence. done.
Qed.

Section Dilation.
Variable margin : nat.
Variable ls : loc.
Variable labels : tensor.

Let pool : list Q -> list Q := pool_row (margin + 1) 1.
Let lens : list nat := map length labels.

(** The list object [ls] after the groups in [done] were pooled. *)
Definition dilated_upto (done : list nat) (σ : store) : Prop :=
  exists refs, σ !! ls = Some (Lst refs)
    /\ Forall2 (fun r a => σ !! r = Some (Arr (if decide (length a ∈ done) then pool a else a)))
               refs labels.

Lemma dilate_group_spec (done : list nat) (σ : store) (l : nat) :
  dilated_upto done σ -> l ∉ done ->
  exists σ', dilate_group margin ls lens σ l = Some σ'
    /\ dilated_upto (l :: done) σ' /\ unchanged_except ls σ σ'.
Proof.
  intros (refs & Hls & Hrefs) Hl.
  pose proof (Forall2_length _ _ _ Hrefs) as Hlen.
  unfold dilate_group.
  set (idxs := np_where_eq lens l).
  assert (forall i, i ∈ idxs <-> exists a, labels !! i = Some a /\ length a = l) as Hidx.
  { intros i. unfold idxs. rewrite elem_of_np_where_eq. unfold lens.
    rewrite list_lookup_fmap. destruct (labels !! i) as [a|]; cbn.
    - split; [intros [= <-]; by exists a|]. by intros (a' & [= <-] & ->).
    - split; [done|]. by intros (a' & ? & _). }
  set (rows := omap (fun i => labels !! i) idxs).
  assert (Forall2 (fun i a => labels !! i = Some a /\ length a = l) idxs rows) as Hrows.
  { unfold rows. clear -Hidx. assert (forall i, i ∈ idxs -> exists a, labels !! i = Some a /\ length a = l)
      as H by (intros; by apply Hidx). clear Hidx.
    induction idxs as [|i idxs' IH]; [constructor|].
    destruct (H i) as (a & Ha & Hla); [left|]. cbn. rewrite Ha. constructor; [done|].
    apply IH. intros j Hj. apply H. by right. }
  assert (mapM (fun i => r ← list_getitem σ ls i; get_arr σ r) idxs = Some rows) as Hread.
  { apply mapM_Some. eapply Forall2_impl; [exact Hrows|]. intros i a [Ha Hla].
    destruct (Forall2_lookup_r _ _ _ _ _ Hrefs Ha) as (r & Hr & Hσ).
    unfold list_getitem, get_lst. rewrite Hls. cbn. rewrite Hr. cbn.
    unfold get_arr. rewrite Hσ. rewrite decide_False by (by rewrite Hla). done. }
  rewrite Hread. cbn.
  destruct (write_back_spec σ ls refs idxs (K_pool2d_rows (margin + 1) 1 rows))
    as (σ' & refs' & Hwb & Hls' & Hlen' & Hout & Hin & Hfr).
  { done. }
  { apply NoDup_np_where_eq. }
  { apply Forall_forall. intros i (a & Ha & _)%Hidx. apply lookup_lt_Some in Ha. lia. }
  { unfold K_pool2d_rows. rewrite length_map. symmetry. by eapply Forall2_length. }
  exists σ'. split; [done|]. split; [|done].
  exists refs'. split; [done|].
  apply Forall2_same_length_lookup. split; [lia|].
  intros j r' a Hr' Ha.
  destruct (decide (length a = l)) as [Hla|Hla].
  - assert (j ∈ idxs) as Hj by (apply Hidx; eauto).
    apply list_elem_of_lookup in Hj as [n Hn].
    destruct (Forall2_lookup_l _ _ _ _ _ Hrows Hn) as (a' & Hn' & Ha' & _).
    assert (a' = a) as -> by congruence.
    destruct (Hin n j (pool a)) as (r & Hr & Hσ'); [done| |].
    { unfold K_pool2d_rows. by rewrite list_lookup_fmap, Hn'. }
    assert (r = r') as -> by congruence.
    rewrite decide_True by (rewrite Hla; left). done.
  - assert (j ∉ idxs) as Hj.
    { intros (a' & Ha' & Hla')%Hidx. congruence. }
    rewrite Hout in Hr' by done.
    pose proof (Forall2_lookup_lr _ _ _ _ _ _ Hrefs Hr' Ha) as Hσ. cbn in Hσ.
    assert (r' ≠ ls) as Hne by (intros ->; congruence).
    apply (Hfr _ _ Hne) in Hσ. rewrite Hσ. do 2 f_equal.
    destruct (decide (length a ∈ done)).
    + by rewrite decide_True by (by right).
    + rewrite decide_False; [done|]. by intros [?|?]%elem_of_cons.
Qed.

Lemma dilate_groups_spec (todo done : list nat) (σ : store) :
  dilated_upto done σ -> NoDup todo -> (forall l, l ∈ todo -> l ∉ done) ->
  exists σ', dilate_groups margin ls lens σ todo = Some σ'
    /\ dilated_upto (reverse todo ++ done) σ' /\ unchanged_except ls σ σ'.
Proof.
  revert done σ. induction todo as [|l todo IH]; intros done σ Hσ Hnd Hdisj.
  - exists σ. cbn. split; [done|]. split; [done|]. apply unchanged_except_refl.
  - apply NoDup_cons in Hnd as [Hl Hnd].
    destruct (dilate_group_spec done σ l) as (σ1 & Hg & Hσ1 & Hfr1); [done|apply Hdisj; left|].
    destruct (IH (l :: done) σ1) as (σ' & Hgs & Hσ' & Hfr'); [done|done| |].
    { intros l' Hl' [->|Hd]%elem_of_cons; [done|]. apply (Hdisj l'); [by right|done]. }
    exists σ'. split; [cbn; by rewrite Hg|]. split.
    + by rewrite reverse_cons, <- app_assoc.
    + by eapply unchanged_except_trans.
Qed.
End Dilation.

Lemma dilate_spec (margin : nat) (ls : loc) (σ : store) (labels : tensor) :
  deref_list σ ls = Some labels ->
  exists σ', dilate margin ls σ = Some σ'
    /\ deref_list σ' ls = Some (map (pool_row (margin + 1) 1) labels)
    /\ unchanged_except ls σ σ'.
Proof.
  intros Hd. unfold dilate. rewrite Hd. cbn.
  apply deref_list_Some in Hd as (refs & Hls & Hrefs).
  destruct (dilate_groups_spec margin ls labels (np_unique (map length labels)) [] σ)
    as (σ' & Hg & (refs' & Hls' & Hrefs') & Hfr).
  { exists refs. split; [done|]. eapply Forall2_impl; [exact Hrefs|].
    intros r a Hr. by rewrite decide_False by apply not_elem_of_nil. }
  { apply NoDup_np_unique. }
  { intros l _. apply not_elem_of_nil. }
  exists σ'. split; [done|]. split; [|done].
  apply deref_list_Some. exists refs'. split; [done|].
  apply Forall2_fmap_r. apply Forall2_same_length_lookup.
  split; [by eapply Forall2_length|].
  intros i r a Hr Ha.
  pose proof (Forall2_lookup_lr _ _ _ _ _ _ Hrefs' Hr Ha) as Hσ. cbn in Hσ.
  rewrite decide_True in Hσ; [done|].
  rewrite app_nil_r, elem_of_reverse, elem_of_np_unique.
  apply list_elem_of_fmap. exists a. split; [done|]. by eapply list_elem_of_lookup_2.
Qed.

(** ** Pooling with stride one *)

Lemma pool_out_len_1 (L : nat) : pool_out_len L 1 = L.
Proof. unfold pool_out_len. rewrite Nat.div_1_r. lia. Qed.

Lemma pad_before_1 (L k : nat) : (0 < L)%nat -> pad_before L k 1 = ((k - 1) / 2)%nat.
Proof.
  intros HL. unfold pad_before, pad_total. rewrite pool_out_len_1. f_equal. lia.
Qed.

Lemma length_pool_row_1 (k : nat) (x : list Q) : length (pool_row k 1 x) = length x.
Proof. unfold pool_row. by rewrite length_map, length_seq, pool_out_len_1. Qed.

Lemma lookup_pool_row_1 (k i : nat) (x : list Q) :
  (i < length x)%nat ->
  pool_row k 1 x !! i
  = Some (window_max (slice (i - (k - 1) / 2) (i + k - (k - 1) / 2) x)).
Proof.
  intros Hi. unfold pool_row. rewrite list_lookup_fmap, pool_out_len_1.
  rewrite lookup_seq_lt by done. unfold pool_window.
  rewrite pad_before_1 by lia. cbn [fmap option_fmap option_map Nat.add].
  by rewrite Nat.mul_1_r.
Qed.

(** ** _batch_gen: what the dilation computes *)

Definition labels_00100 : list loc * gmap nat pyobj := alloc_arrays ∅ [[0; 0; 1; 0; 0]].
Definition spikes_00100 : loc * gmap nat pyobj := alloc labels_00100.2 (Lst labels_00100.1).

(** C1 (as stated): the label [0,0,1,0,0] dilated with margin 1 is not its
    max-pool of window [2 * 1 + 1], [0,1,1,1,0]; the generator returns
    [0,1,1,0,0]. *)
Lemma C1_counterexample :
  (σ ← dilate 1 spikes_00100.1 spikes_00100.2; deref_list σ spikes_00100.1)
  = Some [[0; 1; 1; 0; 0]]
  /\ map (pool_row (2 * 1 + 1) 1) [[0; 0; 1; 0; 0]] = [[0; 1; 1; 1; 0]]
  /\ [[0; 1; 1; 0; 0]] ≠ [[0; 1; 1; 1; 0]].
Proof.
  split; [vm_compute; reflexivity|]. split; [reflexivity|]. discriminate.
Qed.

(** C1 (amended): the one-time dilation of the batch generator replaces every
    label sequence of the list it was given by its max-pool of window
    [margin + 1], stride 1, "same" padding: the sequence keeps its length and
    entry [i] becomes the maximum over the positions from [i - margin / 2] to
    [i + margin - margin / 2].  For [0,0,1,0,0] and margin 1 this is
    [0,1,1,0,0]. *)
Theorem C1_dilation_is_pool_of_margin_plus_one
    (margin : nat) (ls : loc) (σ : gmap nat pyobj) (labels : list (list Q)) :
  deref_list σ ls = Some labels ->
  (exists σ', dilate margin ls σ = Some σ'
     /\ deref_list σ' ls = Some (map (pool_row (margin + 1) 1) labels))
  /\ (forall x i, (i < length x)%nat ->
        length (pool_row (margin + 1) 1 x) = length x
        /\ pool_row (margin + 1) 1 x !! i
           = Some (window_max (slice (i - margin / 2) (i + margin + 1 - margin / 2) x)))
  /\ pool_row (1 + 1) 1 [0; 0; 1; 0; 0] = [0; 1; 1; 0; 0].
Proof.
  intros Hd. split; [|split].
  - destruct (dilate_spec margin ls σ labels Hd) as (σ' & H1 & H2 & _). by exists σ'.
  - intros x i Hi. split; [apply length_pool_row_1|].
    rewrite lookup_pool_row_1 by done.
    replace (margin + 1 - 1)%nat with margin by lia.
    by replace (i + (margin + 1))%nat with (i + margin + 1)%nat by lia.
  - reflexivity.
Qed.

Lemma C1_witness :
  deref_list spikes_00100.2 spikes_00100.1 = Some [[0; 0; 1; 0; 0]]
  /\ exists σ', dilate 1 spikes_00100.1 spikes_00100.2 = Some σ'
       /\ deref_list σ' spikes_00100.1 = Some (map (pool_row (1 + 1) 1) [[0; 0; 1; 0; 0]]).
Proof.
  assert (deref_list spikes_00100.2 spikes_00100.1 = Some [[0; 0; 1; 0; 0]]) as H
    by (vm_compute; reflexivity).
  split; [exact H|].
  exact (proj1 (C1_dilation_is_pool_of_margin_plus_one 1 _ _ _ H)).
Defined.

(** ** Running [fit]: what a returning call did *)

Lemma bind_Ok {A B} (m : M A) (f : A -> M B) (w w' : world) (r : B) :
  bind m f w = (Ok r, w') -> exists a w1, m w = (Ok a, w1) /\ f a w1 = (Ok r, w').
Proof.
  unfold bind. destruct (m w) as [[a|e] w1]; [|discriminate]. intros H. by exists a, w1.
Qed.

Lemma emit_Ok (ev : event) (w w' : world) (u : unit) :
  emit ev w = (Ok u, w') ->
  w_store w' = w_store w /\ w_events w' = w_events w ++ [ev].
Proof. unfold emit. by intros [= _ <-]. Qed.

Lemma py_assert_Ok (b : bool) (w w' : world) (u : unit) :
  py_assert b w = (Ok u, w') -> b = true /\ w' = w.
Proof. destruct b; cbn; [by intros [= _ <-]|discriminate]. Qed.

Lemma lift_opt_Ok {A} (e : exn) (o : option A) (w w' : world) (a : A) :
  lift_opt e o w = (Ok a, w') -> o = Some a /\ w' = w.
Proof. destruct o; cbn; [by intros [= <- <-]|discriminate]. Qed.

Lemma on_store_Ok {A} (f : gmap nat pyobj -> option (A * gmap nat pyobj)) (w w' : world) (a : A) :
  on_store f w = (Ok a, w') ->
  f (w_store w) = Some (a, w_store w') /\ w_events w' = w_events w.
Proof.
  unfold on_store. destruct (f (w_store w)) as [[a' σ]|]; [|discriminate].
  by intros [= <- <-].
Qed.

Lemma steps_of_Ok (n b : nat) (w w' : world) (s : nat) :
  steps_of n b w = (Ok s, w') -> w' = w.
Proof. destruct b; cbn; [discriminate|]. by intros [= _ <-]. Qed.

Lemma gen_first_batch_Ok (R : rng) (tl ls : loc) (shape : list nat)
    (batch_size nb_steps margin : nat) (w w' : world) (xy : list (list Q) * list (list Q)) :
  gen_first_batch R tl ls shape batch_size nb_steps margin w = (Ok xy, w') ->
  dilate margin ls (w_store w) = Some (w_store w') /\ w_events w' = w_events w.
Proof.
  unfold gen_first_batch, batch_gen. destruct nb_steps; [discriminate|].
  destruct (dilate margin ls (w_store w)) as [σ1|];
    cbn [mbind option_bind]; [|discriminate].
  destruct (deref_list σ1 tl) as [traces|]; cbn [mbind option_bind]; [|discriminate].
  destruct (deref_list σ1 ls) as [spikes|]; cbn [mbind option_bind]; [|discriminate].
  destruct (run_passes R traces spikes shape batch_size 1 1 (w_calls w)) as [[ps k1]|];
    cbn [mbind option_bind]; [|discriminate].
  destruct ps as [|[|b [|? ?]] [|? ?]]; try discriminate.
  by intros [= _ <-].
Qed.

Lemma load_all_Ok (f : string -> option (list (list Q))) (ev : string -> event)
    (paths : list string) (w w' : world) (rows : list (list Q)) :
  load_all f ev paths w = (Ok rows, w') ->
  w_store w' = w_store w
  /\ w_events w' = w_events w ++ map ev paths
  /\ exists per_path, mapM f paths = Some per_path /\ rows = concat per_path.
Proof.
  revert w w' rows. induction paths as [|p rest IH]; intros w w' rows; cbn [load_all].
  - unfold ret. intros [= <- <-]. split; [done|]. split; [by rewrite app_nil_r|]. by exists [].
  - intros (u & w1 & He & H)%bind_Ok. apply emit_Ok in He as [Hs1 He1].
    apply bind_Ok in H as (r & w2 & Hl & H). apply lift_opt_Ok in Hl as [Hf ->].
    apply bind_Ok in H as (more & w3 & Hm & H).
    apply IH in Hm as (Hs3 & He3 & pp & Hpp & ->).
    injection H as <- <-. split; [congruence|]. split.
    + rewrite He3, He1, <- app_assoc. done.
    + exists (r :: pp). cbn. rewrite Hf. cbn. by rewrite Hpp.
Qed.

Lemma alloc_arrays_spec (σ σ' : gmap nat pyobj) (rows : list (list Q)) (rs : list loc) :
  alloc_arrays σ rows = (rs, σ') ->
  σ ⊆ σ' /\ Forall2 (fun r a => σ' !! r = Some (Arr a)) rs rows.
Proof.
  revert σ σ' rs. induction rows as [|a rows IH]; intros σ σ' rs; cbn [alloc_arrays].
  - intros [= <- <-]. split; [done|constructor].
  - destruct (alloc σ (Arr a)) as [r σ1] eqn:Ea.
    destruct (alloc_arrays σ1 rows) as [rs' σ2] eqn:Er.
    intros [= <- <-]. apply IH in Er as [Hsub Hrs].
    pose proof (alloc_subseteq _ _ _ _ Ea) as Hsub1.
    apply alloc_spec in Ea as [_ ->].
    split; [by etrans|]. constructor; [|done].
    eapply lookup_weaken; [|exact Hsub]. apply lookup_insert_eq.
Qed.

Lemma alloc_list_spec (σ σ' : gmap nat pyobj) (rows : list (list Q)) (l : loc) :
  (let '(rs, σ1) := alloc_arrays σ rows in Some (alloc σ1 (Lst rs))) = Some (l, σ') ->
  σ ⊆ σ' /\ σ !! l = None /\ deref_list σ' l = Some rows.
Proof.
  destruct (alloc_arrays σ rows) as [rs σ1] eqn:Er. intros Ha%(inj Some).
  apply alloc_arrays_spec in Er as [Hsub Hrs].
  pose proof (alloc_subseteq _ _ _ _ Ha) as Hsub1.
  apply alloc_spec in Ha as [Hl ->].
  split; [by etrans|]. split.
  - destruct (σ !! l) eqn:E; [|done].
    pose proof (lookup_weaken _ _ _ _ E Hsub). congruence.
  - apply deref_list_Some. exists rs. split; [apply lookup_insert_eq|].
    eapply Forall2_impl; [exact Hrs|]. intros r a Hr.
    exact (lookup_weaken _ _ _ _ Hr Hsub1).
Qed.

(** The rows of [labels] at the positions [idxs]. *)
Definition selected (labels : list (list Q)) (idxs : list nat) (sel : list (list Q)) : Prop :=
  Forall2 (fun i a => labels !! i = Some a) idxs sel.

Lemma list_select_spec (σ σ' : gmap nat pyobj) (src l : loc) (idxs : list nat)
    (labels : list (list Q)) :
  deref_list σ src = Some labels ->
  list_select σ src idxs = Some (l, σ') ->
  σ ⊆ σ' /\ σ !! l = None
  /\ exists sel, selected labels idxs sel /\ deref_list σ' l = Some sel.
Proof.
  intros (refs & Hsrc & Hrefs)%deref_list_Some. unfold list_select.
  destruct (mapM (list_getitem σ src) idxs) as [rs|] eqn:Em; cbn; [|discriminate].
  intros Ha%(inj Some). pose proof (alloc_subseteq _ _ _ _ Ha) as Hsub.
  apply alloc_spec in Ha as [Hl ->]. split; [done|]. split; [done|].
  apply mapM_Some in Em.
  assert (exists sel, selected labels idxs sel
                      /\ Forall2 (fun r a => σ !! r = Some (Arr a)) rs sel) as (sel & Hsel & Hrs).
  { clear -Em Hsrc Hrefs. induction Em as [|i r idxs rs Hi _ IH].
    - exists []. split; constructor.
    - destruct IH as (sel & Hsel & Hrs).
      unfold list_getitem, get_lst in Hi. rewrite Hsrc in Hi. cbn in Hi.
      destruct (Forall2_lookup_l _ _ _ _ _ Hrefs Hi) as (a & Ha & Hσ).
      exists (a :: sel). split; by constructor. }
  exists sel. split; [done|]. apply deref_list_Some. exists rs.
  split; [apply lookup_insert_eq|].
  eapply Forall2_impl; [exact Hrs|]. intros r a Hr.
  exact (lookup_weaken _ _ _ _ Hr Hsub).
Qed.

Lemma deref_list_unchanged (ls l : loc) (σ σ' : gmap nat pyobj) (refs0 : list loc)
    (t : list (list Q)) :
  unchanged_except ls σ σ' -> l ≠ ls -> σ !! ls = Some (Lst refs0) ->
  deref_list σ l = Some t -> deref_list σ' l = Some t.
Proof.
  intros Hun Hne Hls (refs & Hl & Hrefs)%deref_list_Some.
  apply deref_list_Some. exists refs. split; [by apply Hun|].
  eapply Forall2_impl; [exact Hrefs|]. intros r a Hr. apply Hun; [|done].
  intros ->. congruence.
Qed.

Lemma unchanged_except_fresh (ls : loc) (σ0 σ σ' : gmap nat pyobj) :
  σ0 !! ls = None -> σ0 ⊆ σ -> unchanged_except ls σ σ' -> σ0 ⊆ σ'.
Proof.
  intros Hfresh Hsub Hun. apply map_subseteq_spec. intros l o Hl.
  apply Hun; [intros ->; congruence|]. exact (lookup_weaken _ _ _ _ Hl Hsub).
Qed.

Lemma list_select_alloc (σ σ' : gmap nat pyobj) (src l : loc) (idxs : list nat) :
  list_select σ src idxs = Some (l, σ') -> σ ⊆ σ' /\ σ !! l = None.
Proof.
  unfold list_select.
  destruct (mapM (list_getitem σ src) idxs) as [rs|]; cbn; [|discriminate].
  intros Ha%(inj Some). split; [by eapply alloc_subseteq|].
  by apply alloc_spec in Ha as [Hl _].
Qed.

Lemma dilate_frame (margin : nat) (ls : loc) (σ σ' : gmap nat pyobj) :
  dilate margin ls σ = Some σ' -> unchanged_except ls σ σ'.
Proof.
  intros Hd. destruct (deref_list σ ls) as [labels|] eqn:E.
  - destruct (dilate_spec margin ls σ labels E) as (σ1 & H1 & _ & Hun).
    rewrite Hd in H1. by injection H1 as <-.
  - unfold dilate in Hd. by rewrite E in Hd.
Qed.

(** The labels a fold trains or validates on: the pooled raw labels at the
    fold's indices. *)
Definition dilated_of (labels : list (list Q)) (margin : nat) (idxs : list nat)
    (σ : gmap nat pyobj) (l : loc) : Prop :=
  exists sel, selected labels idxs sel
              /\ deref_list σ l = Some (map (pool_row (margin + 1) 1) sel).

Definition fold_labels_ok (labels : list (list Q)) (margin : nat) (σ : gmap nat pyobj)
    (ev : event) : Prop :=
  match ev with
  | Train idxs_trn idxs_val sp_trn sp_val _ _ =>
      dilated_of labels margin idxs_trn σ sp_trn /\ dilated_of labels margin idxs_val σ sp_val
  | _ => True
  end.

Lemma fold_labels_ok_weaken labels margin (σ σ' : gmap nat pyobj) ev :
  σ ⊆ σ' -> fold_labels_ok labels margin σ ev -> fold_labels_ok labels margin σ' ev.
Proof.
  intros Hsub. destruct ev; try done. cbn.
  intros [(s1 & ? & H1) (s2 & ? & H2)].
  split; [exists s1|exists s2]; (split; [done|]); by eapply deref_list_weaken.
Qed.

Section FitFacts.
Variable R : rng.
Variable traces_func spikes_func : string -> option (list (list Q)).
Variable keras_train :
  list (list Q) * list (list Q) -> list (list Q) * list (list Q) -> nat -> nat ->
  metrics * metrics * string * nat.

Lemma fit_single_spec (a : fit_args) (tl sl : loc) (idxs_trn idxs_val : list nat)
    (summary : bool) (labels : list (list Q)) (w w' : world)
    (r : metrics * metrics * string) :
  deref_list (w_store w) sl = Some labels ->
  fit_single R keras_train a tl sl idxs_trn idxs_val summary w = (Ok r, w') ->
  w_store w ⊆ w_store w'
  /\ exists evs, w_events w' = w_events w ++ evs
       /\ Forall (fold_labels_ok labels (error_margin a) (w_store w')) evs.
Proof.
  intros Hlab H. unfold fit_single in H.
  apply bind_Ok in H as (u0 & w1 & He1 & H). apply emit_Ok in He1 as [Hs1 Hev1].
  apply bind_Ok in H as (tr_trn & w2 & Hs & H). apply on_store_Ok in Hs as [Hs2 Hev2].
  apply list_select_alloc in Hs2 as [Hsub2 _].
  apply bind_Ok in H as (sp_trn & w3 & Hs & H). apply on_store_Ok in Hs as [Hs3 Hev3].
  rewrite Hs1 in Hsub2.
  pose proof (deref_list_weaken _ _ _ _ Hsub2 Hlab) as Hlab2.
  destruct (list_select_spec _ _ _ _ _ _ Hlab2 Hs3) as (Hsub3 & Hfr3 & sel_trn & Hsel_trn & Hd3).
  apply bind_Ok in H as (tr_val & w4 & Hs & H). apply on_store_Ok in Hs as [Hs4 Hev4].
  apply list_select_alloc in Hs4 as [Hsub4 _].
  apply bind_Ok in H as (sp_val & w5 & Hs & H). apply on_store_Ok in Hs as [Hs5 Hev5].
  assert (w_store w ⊆ w_store w4) as Hsub04 by (etrans; [exact Hsub2|]; by etrans).
  pose proof (deref_list_weaken _ _ _ _ Hsub04 Hlab) as Hlab4.
  destruct (list_select_spec _ _ _ _ _ _ Hlab4 Hs5) as (Hsub5 & Hfr5 & sel_val & Hsel_val & Hd5).
  apply bind_Ok in H as (steps & w6 & Hst & H). apply steps_of_Ok in Hst as ->.
  apply bind_Ok in H as (xy_val & w7 & Hg & H). apply gen_first_batch_Ok in Hg as [Hdil7 Hev7].
  apply bind_Ok in H as (xy_trn & w8 & Hg & H). apply gen_first_batch_Ok in Hg as [Hdil8 Hev8].
  apply bind_Ok in H as (u9 & w9 & He9 & H). apply emit_Ok in He9 as [Hs9 Hev9].
  destruct (keras_train xy_trn xy_val steps (nb_epochs a)) as [[[mt mv] bmp] calls].
  injection H as <- <-. cbn [w_store w_events].
  (* the validation labels are pooled first *)
  destruct (dilate_spec (error_margin a) _ _ _ Hd5) as (σ7 & Hdil7' & Hd7 & Hun7).
  rewrite Hdil7 in Hdil7'. injection Hdil7' as <-.
  assert (sp_trn ≠ sp_val) as Hne.
  { intros ->. apply deref_list_Some in Hd3 as (? & Hl & _).
    pose proof (lookup_weaken _ _ _ _ Hl Hsub4). congruence. }
  pose proof (Hd5) as Hval5. apply deref_list_Some in Hval5 as (refs_val & Hval5 & _).
  assert (deref_list (w_store w5) sp_trn = Some sel_trn) as Hd5trn.
  { eapply deref_list_weaken; [|exact Hd3]. by etrans. }
  pose proof (deref_list_unchanged _ _ _ _ _ _ Hun7 Hne Hval5 Hd5trn) as Hd7trn.
  (* then the training labels *)
  destruct (dilate_spec (error_margin a) _ _ _ Hd7trn) as (σ8 & Hdil8' & Hd8 & Hun8).
  rewrite Hdil8 in Hdil8'. injection Hdil8' as <-.
  pose proof (Hd7trn) as Htrn7. apply deref_list_Some in Htrn7 as (refs_trn & Htrn7 & _).
  assert (sp_val ≠ sp_trn) as Hne' by congruence.
  pose proof (deref_list_unchanged _ _ _ _ _ _ Hun8 Hne' Htrn7 Hd7) as Hd8val.
  rewrite Hs9. split.
  - eapply unchanged_except_fresh; [| |exact Hun8].
    + eapply lookup_weaken_None; [exact Hfr3|done].
    + eapply unchanged_except_fresh; [| |exact Hun7].
      * eapply lookup_weaken_None; [exact Hfr5|done].
      * by etrans.
  - exists [Build_model (shape a) (error_margin a) summary;
            Train idxs_trn idxs_val sp_trn sp_val steps (nb_epochs a)].
    split.
    + rewrite Hev9, Hev8, Hev7, Hev5, Hev4, Hev3, Hev2, Hev1. by rewrite <- app_assoc.
    + repeat constructor; [by exists sel_trn|by exists sel_val].
Qed.

Lemma cv_loop_spec (a : fit_args) (tl sl : loc) (folds : list (list nat))
    (todo val_idx : nat) (mts mvs : list metrics) (labels : list (list Q))
    (w w' : world) (r : list metrics * list metrics) :
  deref_list (w_store w) sl = Some labels ->
  cv_loop R keras_train a tl sl folds todo val_idx mts mvs w = (Ok r, w') ->
  w_store w ⊆ w_store w'
  /\ exists evs, w_events w' = w_events w ++ evs
       /\ Forall (fold_labels_ok labels (error_margin a) (w_store w')) evs.
Proof.
  revert val_idx mts mvs w. induction todo as [|todo IH]; intros val_idx mts mvs w Hlab H.
  - cbn in H. injection H as <- <-. split; [done|]. exists []. by rewrite app_nil_r.
  - cbn [cv_loop] in H.
    apply bind_Ok in H as (u1 & w1 & Ha & H). apply py_assert_Ok in Ha as [_ ->].
    apply bind_Ok in H as (u2 & w2 & He & H). apply emit_Ok in He as [Hs2 Hev2].
    apply bind_Ok in H as ([[mt mv] bmp] & w3 & Hf & H).
    rewrite <- Hs2 in Hlab.
    destruct (fit_single_spec _ _ _ _ _ _ _ _ _ _ Hlab Hf) as (Hsub3 & evs3 & Hev3 & Hok3).
    apply bind_Ok in H as (u4 & w4 & He & H). apply emit_Ok in He as [Hs4 Hev4].
    assert (deref_list (w_store w4) sl = Some labels) as Hlab4.
    { rewrite Hs4. by eapply deref_list_weaken. }
    destruct (IH _ _ _ _ Hlab4 H) as (Hsub' & evs' & Hev' & Hok').
    rewrite Hs4 in Hsub'. rewrite Hs2 in Hsub3. split; [by etrans|].
    exists (Log_fold val_idx :: evs3 ++ Log_metrics mt mv :: evs'). split.
    + rewrite Hev', Hev4, Hev3, Hev2. rewrite <- !app_assoc. done.
    + constructor; [done|]. apply Forall_app. split.
      * eapply Forall_impl; [exact Hok3|]. intros ev. by apply fold_labels_ok_weaken.
      * by constructor.
Qed.
End FitFacts.

Lemma rng_shuffle_Ok (R : rng) (n : nat) (w w' : world) (idxs : list nat) :
  rng_shuffle R n w = (Ok idxs, w') ->
  w_store w' = w_store w /\ w_events w' = w_events w
  /\ idxs = rng_perm R (w_calls w) (seq 0 n).
Proof. unfold rng_shuffle. by intros [= <- <-]. Qed.

(** C9: the dilation of the batch generator changes no object that exists
    besides the list it was given, whose cells it rebinds to new arrays.  So
    when [fit] returns, the list of the loaded spikes still refers to the raw
    labels, and the label list of every generator [fit] made, for either
    validation strategy and every fold, holds the once-pooled raw labels at
    the indices of that fold. *)
Theorem C9_dilation_never_touches_the_loaded_labels
    (R : rng) (traces_func spikes_func : string -> option (list (list Q)))
    (keras_train : list (list Q) * list (list Q) -> list (list Q) * list (list Q) ->
                   nat -> nat -> metrics * metrics * string * nat)
    (a : fit_args) (w w' : world) :
  fit R traces_func spikes_func keras_train a w = (Ok tt, w') ->
  (forall margin ls (σ σ' : gmap nat pyobj) l o,
      dilate margin ls σ = Some σ' -> l ≠ ls -> σ !! l = Some o -> σ' !! l = Some o)
  /\ exists sl spikes per_path,
       mapM spikes_func (dataset_paths a) = Some per_path /\ spikes = concat per_path
       /\ w_store w !! sl = None
       /\ deref_list (w_store w') sl = Some spikes
       /\ exists evs, w_events w' = w_events w ++ evs
            /\ Forall (fold_labels_ok spikes (error_margin a) (w_store w')) evs.
Proof.
  intros H. split.
  { intros margin ls σ σ' l o Hd Hne Hl. by apply (dilate_frame _ _ _ _ Hd). }
  unfold fit in H.
  apply bind_Ok in H as (u & w1 & Ha & H). apply py_assert_Ok in Ha as [_ ->].
  apply bind_Ok in H as (u1 & w1 & Ha & H). apply py_assert_Ok in Ha as [_ ->].
  apply bind_Ok in H as (u2 & w1 & Ha & H). apply py_assert_Ok in Ha as [_ ->].
  apply bind_Ok in H as (u3 & w1 & Ha & H). apply py_assert_Ok in Ha as [_ ->].
  apply bind_Ok in H as (traces & w1 & Hl & H).
  apply load_all_Ok in Hl as (Hs1 & He1 & _).
  apply bind_Ok in H as (spikes & w2 & Hl & H).
  apply load_all_Ok in Hl as (Hs2 & He2 & per_path & Hpp & Hspikes).
  apply bind_Ok in H as (u4 & w3 & Ha & H). apply py_assert_Ok in Ha as [_ ->].
  apply bind_Ok in H as (tl & w3 & Hs & H). apply on_store_Ok in Hs as [Hs3 He3].
  apply alloc_list_spec in Hs3 as (Hsub3 & _ & _).
  apply bind_Ok in H as (sl & w4 & Hs & H). apply on_store_Ok in Hs as [Hs4 He4].
  apply alloc_list_spec in Hs4 as (Hsub4 & Hfr4 & Hd4).
  assert (w_store w ⊆ w_store w3) as Hsub03 by (by rewrite <- Hs1, <- Hs2).
  assert (w_store w !! sl = None) as Hfresh by (by eapply lookup_weaken_None).
  assert (exists w5 evs5, w_store w4 ⊆ w_store w5 /\ w_store w' = w_store w5
            /\ w_events w' = w_events w4 ++ evs5
            /\ Forall (fold_labels_ok spikes (error_margin a) (w_store w5)) evs5)
    as (w5 & evs5 & Hsub5 & Hs5 & He5 & Hok5).
  { destruct (bool_decide (val_type a = "random_split"%string)).
    - apply bind_Ok in H as (idxs & w5 & Hr & H).
      apply rng_shuffle_Ok in Hr as (Hs5 & He5 & _).
      apply bind_Ok in H as (n_trn & w6 & Hn & H). apply lift_opt_Ok in Hn as [_ ->].
      apply bind_Ok in H as (n_val & w6 & Hn & H). apply lift_opt_Ok in Hn as [_ ->].
      apply bind_Ok in H as ([[mt mv] bmp] & w6 & Hf & H).
      rewrite <- Hs5 in Hd4.
      destruct (fit_single_spec _ _ _ _ _ _ _ _ _ _ _ _ Hd4 Hf) as (Hsub6 & evs6 & He6 & Hok6).
      apply bind_Ok in H as (u7 & w7 & He & H). apply emit_Ok in He as [Hs7 He7].
      apply emit_Ok in H as [Hs8 He8].
      exists w6, (evs6 ++ [Log_metrics mt mv; Log_best_model bmp]).
      split; [by rewrite <- Hs5|]. split; [congruence|]. split.
      + rewrite He8, He7, He6, He5, <- !app_assoc. done.
      + apply Forall_app. split; [done|]. by repeat constructor.
    - apply bind_Ok in H as (idxs & w5 & Hr & H).
      apply rng_shuffle_Ok in Hr as (Hs5 & He5 & _).
      apply bind_Ok in H as (ms & w6 & Hc & H).
      rewrite <- Hs5 in Hd4.
      destruct (cv_loop_spec _ _ _ _ _ _ _ _ _ _ _ _ _ _ Hd4 Hc) as (Hsub6 & evs6 & He6 & Hok6).
      apply emit_Ok in H as [Hs7 He7].
      exists w6, (evs6 ++ [Log_cv_summary ms.1 ms.2]).
      split; [by rewrite <- Hs5|]. split; [done|]. split.
      + rewrite He7, He6, He5, <- !app_assoc. done.
      + apply Forall_app. split; [done|]. by repeat constructor. }
  exists sl, spikes, per_path. split; [done|]. split; [done|]. split; [done|].
  rewrite Hs5. split; [by eapply deref_list_weaken|].
  exists (map Load_traces (dataset_paths a) ++ map Load_spikes (dataset_paths a) ++ evs5).
  split.
  - rewrite He5, He4, He3, He2, He1, <- !app_assoc. done.
  - apply Forall_app. split; [apply Forall_fmap, Forall_true; done|].
    apply Forall_app. split; [apply Forall_fmap, Forall_true; done|]. done.
Qed.

Definition demo_fit_traces (p : string) : option (list (list Q)) :=
  Some [[1; 2; 3; 4; 5]; [6; 7; 8; 9; 10]; [1; 1; 1; 1; 1]].
Definition demo_fit_spikes (p : string) : option (list (list Q)) :=
  Some [[0; 0; 1; 0; 0]; [1; 0; 0; 0; 0]; [0; 0; 0; 0; 1]].

Definition demo_fit_args (strategy : string) : fit_args :=
  {| dataset_paths := ["a"; "b"]%string; shape := [3%nat]; error_margin := 1; batch := 2;
     nb_epochs := 1; val_type := strategy; prop_trn := f64_08; prop_val := f64_02;
     nb_folds := 3 |}.

Definition demo_fit_world (strategy : string) : world :=
  (fit rng_reversing demo_fit_traces demo_fit_spikes no_keras (demo_fit_args strategy) world0).2.

Lemma C9_witness :
  fit rng_reversing demo_fit_traces demo_fit_spikes no_keras
      (demo_fit_args "cross_validate") world0
  = (Ok tt, demo_fit_world "cross_validate")
  /\ exists sl spikes per_path,
       mapM demo_fit_spikes ["a"; "b"]%string = Some per_path /\ spikes = concat per_path
       /\ w_store world0 !! sl = None
       /\ deref_list (w_store (demo_fit_world "cross_validate")) sl = Some spikes
       /\ exists evs, w_events (demo_fit_world "cross_validate") = w_events world0 ++ evs
            /\ Forall (fold_labels_ok spikes 1 (w_store (demo_fit_world "cross_validate"))) evs.
Proof.
  assert (fit rng_reversing demo_fit_traces demo_fit_spikes no_keras
              (demo_fit_args "cross_validate") world0
          = (Ok tt, demo_fit_world "cross_validate")) as H by (vm_compute; reflexivity).
  split; [exact H|].
  exact (proj2 (C9_dilation_never_touches_the_loaded_labels _ _ _ _ _ _ _ H)).
Defined.

(** The same run, read off the final store: the list of the loaded spikes
    (object 13) still holds the raw labels, the training list of the last
    fold (object 35) the pooled copies of the labels 5, 4, 3 and 2. *)
Example demo_fit_labels :
  deref_list (w_store (demo_fit_world "cross_validate")) 13
  = Some [[0; 0; 1; 0; 0]; [1; 0; 0; 0; 0]; [0; 0; 0; 0; 1];
          [0; 0; 1; 0; 0]; [1; 0; 0; 0; 0]; [0; 0; 0; 0; 1]]
  /\ deref_list (w_store (demo_fit_world "cross_validate")) 35
     = Some [[0; 0; 0; 1; 1]; [1; 0; 0; 0; 0]; [0; 1; 1; 0; 0]; [0; 0; 0; 1; 1]].
Proof. split; vm_compute; reflexivity. Qed.

(** ** _batch_gen: the windows *)

Lemma np_randint_Some (raw : nat) (low high x : Z) :
  np_randint raw low high = Some x -> (low <= x < high)%Z.
Proof.
  unfold np_randint. destruct (decide (low < high)%Z) as [Hlt|]; [|discriminate].
  intros [= <-]. pose proof (Z.mod_pos_bound (Z.of_nat raw) (high - low)). lia.
Qed.

(** Every offset of the half-open range is the outcome of some raw draw. *)
Lemma np_randint_onto (low high x : Z) :
  (low <= x < high)%Z -> np_randint (Z.to_nat (x - low)) low high = Some x.
Proof.
  intros Hx. unfold np_randint. rewrite decide_True by lia. f_equal.
  rewrite Z2Nat.id by lia. rewrite Z.mod_small by lia. lia.
Qed.

Lemma assign_row_same (w : nat) (v : list Q) : length v = w -> assign_row w v = Some v.
Proof. intros H. unfold assign_row. by rewrite decide_True. Qed.

Lemma slice_inside_length {A} (lo w : nat) (x : list A) :
  (lo + w <= length x)%nat -> length (slice lo (lo + w) x) = w.
Proof. intros H. rewrite length_slice by done. lia. Qed.

Section BatchGenFacts.
Variable R : rng.
Variables traces spikes : list (list Q).
Variable shape : list nat.

Lemma draw_sample_Some (c c' : cycle) (k k' : nat) (s : sample) :
  draw_sample R traces spikes shape c k = Some (s, c', k') ->
  cycle_next c = Some (s_idx s, c') /\ k' = S k
  /\ exists sp tr w,
       spikes !! s_idx s = Some sp /\ traces !! s_idx s = Some tr /\ shape !! 0%nat = Some w
       /\ (s_x0 s < length sp - w)%nat
       /\ np_randint (rng_raw R k) 0 (Z.of_nat (length sp) - Z.of_nat w)
          = Some (Z.of_nat (s_x0 s))
       /\ s_label s = map np_uint8 (slice (s_x0 s) (s_x0 s + w) sp)
       /\ length (s_label s) = w
       /\ assign_row w (slice (s_x0 s) (s_x0 s + w) tr) = Some (s_trace s).
Proof.
  unfold draw_sample.
  destruct (cycle_next c) as [[idx c1]|]; cbn [mbind option_bind]; [|discriminate].
  destruct (spikes !! idx) as [sp|] eqn:Esp; cbn [mbind option_bind]; [|discriminate].
  destruct (shape !! 0%nat) as [w|] eqn:Ew; cbn [mbind option_bind]; [|discriminate].
  destruct (np_randint _ _ _) as [x0|] eqn:Ex; cbn [mbind option_bind]; [|discriminate].
  destruct (traces !! idx) as [tr|] eqn:Etr; cbn [mbind option_bind]; [|discriminate].
  destruct (assign_row w (slice _ _ tr)) as [tw|] eqn:Etw; cbn [mbind option_bind];
    [|discriminate].
  pose proof (np_randint_Some _ _ _ _ Ex) as Hx.
  assert (Z.to_nat x0 + w <= length sp)%nat as Hin by lia.
  rewrite assign_row_same by (rewrite length_map; by apply slice_inside_length).
  cbn [mbind option_bind]. intros [= <- <- <-]. cbn [s_idx s_x0 s_trace s_label].
  split; [done|]. split; [done|]. exists sp, tr, w.
  repeat split; try done.
  - lia.
  - rewrite Ex. f_equal. lia.
  - rewrite length_map. by apply slice_inside_length.
Qed.

(** A draw from a trace no longer than the window raises. *)
Lemma draw_sample_short (c c' : cycle) (k : nat) (idx w : nat) (sp : list Q) :
  cycle_next c = Some (idx, c') -> spikes !! idx = Some sp -> shape !! 0%nat = Some w ->
  (length sp <= w)%nat ->
  draw_sample R traces spikes shape c k = None.
Proof.
  intros Hc Hsp Hw Hle. unfold draw_sample. rewrite Hc. cbn [mbind option_bind].
  rewrite Hsp. cbn [mbind option_bind]. rewrite Hw. cbn [mbind option_bind].
  unfold np_randint. by rewrite decide_False by lia.
Qed.
End BatchGenFacts.

(** C2 (the code at the failing input): with a trace exactly as long as the
    window the only valid offset is [L - shape[0] = 0], and every draw raises
    whatever the random generator does; with one more frame the offsets 0 and
    1 are valid and every draw has offset 0, never [L - shape[0] = 1]. *)
Theorem C2_last_offset_is_never_drawn :
  (forall R c k, draw_sample R [[1; 2; 3]] [[0; 1; 0]] [3%nat] c k = None)
  /\ (forall R k,
        fill_batch R [[1; 2; 3; 4]] [[0; 1; 0; 0]] [3%nat] 1 {| cy_items := [0%nat]; cy_pos := 0 |} k
        = Some ([{| s_idx := 0; s_x0 := 0; s_trace := [1; 2; 3]; s_label := [0; 1; 0] |}],
                {| cy_items := [0%nat]; cy_pos := 0 |}, S k))
  /\ (forall raw L w, np_randint raw 0 (Z.of_nat L - Z.of_nat w) = None
                      \/ exists x, np_randint raw 0 (Z.of_nat L - Z.of_nat w) = Some x
                                   /\ (0 <= x < Z.of_nat L - Z.of_nat w)%Z).
Proof.
  split; [|split].
  - intros R c k. unfold draw_sample.
    destruct (cycle_next c) as [[idx c1]|]; cbn [mbind option_bind]; [|done].
    destruct idx as [|idx]; [|done]. reflexivity.
  - intros R k. cbn [fill_batch]. unfold draw_sample. cbn.
    unfold np_randint. cbn. by rewrite Z.mod_1_r.
  - intros raw L w. destruct (np_randint raw 0 (Z.of_nat L - Z.of_nat w)) as [x|] eqn:E.
    + right. exists x. split; [done|]. by eapply np_randint_Some.
    + by left.
Qed.

(** ** _batch_gen: the order of the draws *)

(** The [t]-th item handed out by a cycle over [items]. *)
Definition cyc (items : list nat) (t : nat) : nat :=
  default 0%nat (items !! (t mod length items)%nat).

Lemma rotate_Permutation {A} (t : nat) (l : list A) : rotate t l ≡ₚ l.
Proof.
  unfold rotate. rewrite Permutation_app_comm. by rewrite take_drop.
Qed.

Lemma cyc_window (items : list nat) (t : nat) :
  map (cyc items) (seq t (length items)) = rotate t items.
Proof.
  apply list_eq_same_length with (length items);
    [by rewrite length_rotate|by rewrite length_map, length_seq|].
  intros i x y Hi Hx Hy.
  rewrite list_lookup_fmap, lookup_seq_lt in Hx by done. cbn in Hx.
  rewrite lookup_rotate_r in Hy by done.
  assert (rotate_nat_add t i (length items) = ((t + i) mod length items)%nat) as Hr.
  { unfold rotate_nat_add. rewrite <- Nat2Z.inj_add, <- Nat2Z.inj_mod. apply Nat2Z.id. }
  rewrite Hr in Hy. unfold cyc in Hx. rewrite Hy in Hx. cbn in Hx. congruence.
Qed.

Lemma cyc_window_Permutation (items : list nat) (t : nat) :
  map (cyc items) (seq t (length items)) ≡ₚ items.
Proof. rewrite cyc_window. apply rotate_Permutation. Qed.

Lemma cycle_next_spec (c : cycle) :
  (cy_pos c < length (cy_items c))%nat ->
  cycle_next c
  = Some (cyc (cy_items c) (cy_pos c),
          {| cy_items := cy_items c;
             cy_pos := (S (cy_pos c) mod length (cy_items c))%nat |}).
Proof.
  intros Hp. unfold cycle_next, cyc. rewrite Nat.mod_small by done.
  destruct (lookup_lt_is_Some_2 _ _ Hp) as [x Hx]. rewrite Hx. cbn. do 3 f_equal.
  destruct (decide (S (cy_pos c) < length (cy_items c))%nat).
  - by rewrite Nat.mod_small.
  - replace (S (cy_pos c)) with (length (cy_items c)) by lia.
    by rewrite Nat.Div0.mod_same.
Qed.

Lemma cyc_shift (items : list nat) (p j : nat) :
  cyc items (p mod length items + j) = cyc items (p + j).
Proof. unfold cyc. by rewrite Nat.Div0.add_mod_idemp_l. Qed.

(** The traces and labels a generator can sample windows of length [w] from:
    every trace as long as its labels, and longer than the window. *)
Definition samplable (w : nat) (traces spikes : list (list Q)) : Prop :=
  Forall2 (fun tr sp => length tr = length sp /\ (w < length sp)%nat) traces spikes.

Section DrawOrder.
Variable R : rng.
Variables traces spikes : list (list Q).
Variable shape : list nat.
Variable w : nat.
Hypothesis shape_0 : shape !! 0%nat = Some w.
Hypothesis ready : samplable w traces spikes.

Lemma draw_sample_returns (c : cycle) (k : nat) :
  (cy_pos c < length (cy_items c))%nat ->
  Forall (fun i => i < length traces)%nat (cy_items c) ->
  exists s, draw_sample R traces spikes shape c k
            = Some (s, {| cy_items := cy_items c;
                          cy_pos := (S (cy_pos c) mod length (cy_items c))%nat |}, S k)
            /\ s_idx s = cyc (cy_items c) (cy_pos c).
Proof.
  intros Hp Hitems. unfold draw_sample. rewrite cycle_next_spec by done.
  cbn [mbind option_bind].
  set (idx := cyc (cy_items c) (cy_pos c)).
  assert (idx < length traces)%nat as Hidx.
  { unfold idx, cyc. rewrite Nat.mod_small by done.
    destruct (lookup_lt_is_Some_2 _ _ Hp) as [x Hx]. rewrite Hx. cbn.
    exact (Forall_lookup_1 _ _ _ _ Hitems Hx). }
  destruct (lookup_lt_is_Some_2 _ _ Hidx) as [tr Htr].
  destruct (Forall2_lookup_l _ _ _ _ _ ready Htr) as (sp & Hsp & Hlen & Hw).
  rewrite Hsp. cbn [mbind option_bind]. rewrite shape_0. cbn [mbind option_bind].
  destruct (np_randint (rng_raw R k) 0 (Z.of_nat (length sp) - Z.of_nat w)) as [x0|] eqn:Ex.
  2:{ unfold np_randint in Ex. rewrite decide_True in Ex by lia. discriminate. }
  pose proof (np_randint_Some _ _ _ _ Ex) as Hx.
  cbn [mbind option_bind]. rewrite Htr. cbn [mbind option_bind].
  rewrite !assign_row_same by (rewrite ?length_map; apply slice_inside_length; lia).
  cbn [mbind option_bind]. eexists. split; [reflexivity|]. done.
Qed.

Lemma fill_batch_returns (batch_size : nat) (c : cycle) (k : nat) :
  (cy_pos c < length (cy_items c))%nat ->
  Forall (fun i => i < length traces)%nat (cy_items c) ->
  exists ss, fill_batch R traces spikes shape batch_size c k
             = Some (ss, {| cy_items := cy_items c;
                            cy_pos := ((cy_pos c + batch_size) mod length (cy_items c))%nat |},
                     (k + batch_size)%nat)
             /\ map s_idx ss = map (fun j => cyc (cy_items c) (cy_pos c + j)) (seq 0 batch_size).
Proof.
  revert c k. induction batch_size as [|b IH]; intros c k Hp Hitems.
  - exists []. cbn. rewrite !Nat.add_0_r, (Nat.mod_small (cy_pos c)) by done.
    by destruct c.
  - cbn [fill_batch].
    destruct (draw_sample_returns c k Hp Hitems) as (s & -> & Hs). cbn [mbind option_bind].
    set (c1 := {| cy_items := cy_items c;
                  cy_pos := (S (cy_pos c) mod length (cy_items c))%nat |}).
    destruct (IH c1 (S k)) as (ss & -> & Hss).
    { cbn. apply Nat.mod_upper_bound. lia. }
    { done. }
    cbn [mbind option_bind cy_items cy_pos c1]. exists (s :: ss). split.
    + rewrite Nat.Div0.add_mod_idemp_l.
      replace (S (cy_pos c) + b)%nat with (cy_pos c + S b)%nat by lia.
      by replace (S k + b)%nat with (k + S b)%nat by lia.
    + cbn [map]. rewrite Hs, Hss. cbn [seq map cy_items cy_pos c1]. f_equal.
      * by rewrite Nat.add_0_r.
      * rewrite <- seq_shift, map_map. apply map_ext. intros j.
        rewrite cyc_shift. f_equal. lia.
Qed.

Lemma run_steps_returns (batch_size nb_steps : nat) (c : cycle) (k : nat) :
  (cy_pos c < length (cy_items c))%nat ->
  Forall (fun i => i < length traces)%nat (cy_items c) ->
  exists bs, run_steps R traces spikes shape batch_size nb_steps c k
             = Some (bs, (k + nb_steps * batch_size)%nat)
             /\ length bs = nb_steps
             /\ draws_of_pass bs
                = map (fun j => cyc (cy_items c) (cy_pos c + j)) (seq 0 (nb_steps * batch_size)).
Proof.
  revert c k. induction nb_steps as [|n IH]; intros c k Hp Hitems.
  - exists []. cbn. by rewrite Nat.add_0_r.
  - cbn [run_steps].
    destruct (fill_batch_returns batch_size c k Hp Hitems) as (b & -> & Hb).
    cbn [mbind option_bind].
    set (c1 := {| cy_items := cy_items c;
                  cy_pos := ((cy_pos c + batch_size) mod length (cy_items c))%nat |}).
    destruct (IH c1 (k + batch_size)%nat) as (bs & -> & Hlen & Hbs).
    { cbn. apply Nat.mod_upper_bound. lia. }
    { done. }
    cbn [mbind option_bind]. exists (b :: bs). split; [do 2 f_equal; lia|].
    split; [cbn; by rewrite Hlen|].
    unfold draws_of_pass in *. cbn [concat]. rewrite map_app, Hb, Hbs.
    cbn [cy_items cy_pos c1].
    replace (S n * batch_size)%nat with (batch_size + n * batch_size)%nat by lia.
    rewrite seq_app, map_app. f_equal. cbn [Nat.add].
    rewrite <- (Nat.add_0_r batch_size) at 2.
    rewrite <- (fmap_add_seq batch_size 0 (n * batch_size)).
    change (fmap ?f ?l) with (map f l). rewrite map_map. apply map_ext. intros j.
    rewrite cyc_shift. f_equal. lia.
Qed.

Hypothesis valid : rng_valid R.
Hypothesis nonempty : (0 < length traces)%nat.

Lemma run_pass_returns (batch_size nb_steps k : nat) :
  exists bs, run_pass R traces spikes shape batch_size nb_steps k
             = Some (bs, (S k + nb_steps * batch_size)%nat)
             /\ length bs = nb_steps
             /\ draws_of_pass bs
                = map (cyc (rng_perm R k (seq 0 (length traces)))) (seq 0 (nb_steps * batch_size)).
Proof.
  unfold run_pass.
  set (perm := rng_perm R k (seq 0 (length traces))).
  assert (perm ≡ₚ seq 0 (length traces)) as Hperm by apply valid.
  destruct (run_steps_returns batch_size nb_steps {| cy_items := perm; cy_pos := 0 |} (S k))
    as (bs & Hbs & Hlen & Hdraws).
  { cbn. rewrite Hperm, length_seq. done. }
  { cbn. rewrite Hperm. apply Forall_forall. intros i Hi%elem_of_seq. lia. }
  exists bs. split; [done|]. split; [done|]. by rewrite Hdraws.
Qed.

Lemma run_passes_returns (batch_size nb_steps passes k : nat) :
  exists ps k', run_passes R traces spikes shape batch_size nb_steps passes k = Some (ps, k')
    /\ length ps = passes
    /\ forall q bs, ps !! q = Some bs ->
         exists kq, draws_of_pass bs
                    = map (cyc (rng_perm R kq (seq 0 (length traces))))
                          (seq 0 (nb_steps * batch_size)).
Proof.
  revert k. induction passes as [|p IH]; intros k.
  - exists [], k. cbn. split; [done|]. split; [done|]. intros q bs Hq. done.
  - cbn [run_passes].
    destruct (run_pass_returns batch_size nb_steps k) as (bs & -> & Hlen & Hdraws).
    cbn [mbind option_bind].
    destruct (IH (S k + nb_steps * batch_size)%nat) as (ps & k' & -> & Hps & Hall).
    cbn [mbind option_bind]. exists (bs :: ps), k'. split; [done|].
    split; [cbn; by rewrite Hps|].
    intros [|q] bs' Hq; cbn in Hq.
    + injection Hq as <-. by exists k.
    + by apply (Hall q).
Qed.
End DrawOrder.

Lemma slice_map_seq {A} (f : nat -> A) (t n m : nat) :
  (t + n <= m)%nat -> slice t (t + n) (map f (seq 0 m)) = map f (seq t n).
Proof.
  intros H. unfold slice. change (map f ?l) with (f <$> l).
  rewrite <- fmap_drop, <- fmap_take, drop_seq, take_seq. do 2 f_equal; lia.
Qed.

(** C4 (as stated): three traces, batches of two and two steps a pass, the
    configuration [fit] gives its training generator, with a generator whose
    shuffles come out alike: the draws are 0 1 2 0 | 0 1 2 0, the permutation
    is replaced after four draws, in the middle of its second round, and the
    three draws from the third on are 2 0 0: index 0 twice, index 1 not at all. *)
Lemma C4_counterexample :
  rng_valid rng_identity
  /\ exists ps k',
       run_passes rng_identity [[1; 2; 3]; [4; 5; 6]; [7; 8; 9]]
         [[0; 1; 0]; [0; 0; 1]; [1; 0; 0]] [2%nat] 2 2 2 0 = Some (ps, k')
       /\ draws_of ps = [0; 1; 2; 0; 0; 1; 2; 0]%nat
       /\ slice 2 (2 + 3) (draws_of ps) = [2; 0; 0]%nat
       /\ ¬ [2; 0; 0]%nat ≡ₚ seq 0 3.
Proof.
  split; [by intros k a|].
  eexists _, _. split; [vm_compute; reflexivity|].
  split; [reflexivity|]. split; [reflexivity|].
  intros Hp. assert (1%nat ∈ [2; 0; 0]%nat) as Hin.
  { rewrite Hp. apply elem_of_seq. lia. }
  apply elem_of_cons in Hin as [Hin|Hin]; [discriminate|].
  apply elem_of_cons in Hin as [Hin|Hin]; [discriminate|].
  apply elem_of_cons in Hin as [Hin|Hin]; [discriminate|].
  by apply elem_of_nil in Hin.
Qed.

(** C4 (amended): every pass of the generator's outer loop draws a new
    permutation of the trace indices and hands out [nb_steps * batch_size]
    indices by cycling through it in the same order round after round; any
    [n] consecutive draws of one pass contain each of the [n] trace indices
    exactly once.  A new permutation comes with every pass, wherever the
    cycle stands. *)
Theorem C4_coverage_within_a_pass
    (R : rng) (traces spikes : list (list Q)) (shape : list nat)
    (w batch_size nb_steps passes k : nat) :
  rng_valid R -> shape !! 0%nat = Some w -> samplable w traces spikes ->
  (0 < length traces)%nat ->
  exists ps k',
    run_passes R traces spikes shape batch_size nb_steps passes k = Some (ps, k')
    /\ length ps = passes
    /\ forall q bs, ps !! q = Some bs ->
         (exists perm, perm ≡ₚ seq 0 (length traces)
            /\ draws_of_pass bs = map (cyc perm) (seq 0 (nb_steps * batch_size)))
         /\ forall t, (t + length traces <= nb_steps * batch_size)%nat ->
              slice t (t + length traces) (draws_of_pass bs) ≡ₚ seq 0 (length traces).
Proof.
  intros Hvalid Hshape Hready Hn.
  destruct (run_passes_returns R traces spikes shape w Hshape Hready Hvalid Hn
              batch_size nb_steps passes k) as (ps & k' & Hrun & Hlen & Hall).
  exists ps, k'. split; [done|]. split; [done|].
  intros q bs Hq. destruct (Hall q bs Hq) as [kq Hdraws].
  set (perm := rng_perm R kq (seq 0 (length traces))) in *.
  assert (perm ≡ₚ seq 0 (length traces)) as Hperm by apply Hvalid.
  split; [by exists perm|].
  intros t Ht. rewrite Hdraws, slice_map_seq by done.
  assert (length perm = length traces) as Hl by (by rewrite Hperm, length_seq).
  rewrite <- Hl at 1. by rewrite cyc_window_Permutation.
Qed.

Lemma rng_reversing_valid : rng_valid rng_reversing.
Proof. intros k a. apply reverse_Permutation. Qed.

Lemma C4_witness :
  exists ps k',
    run_passes rng_reversing [[1; 2; 3]; [4; 5; 6]; [7; 8; 9]]
      [[0; 1; 0]; [0; 0; 1]; [1; 0; 0]] [2%nat] 2 2 2 0 = Some (ps, k')
    /\ length ps = 2%nat.
Proof.
  destruct (C4_coverage_within_a_pass rng_reversing [[1; 2; 3]; [4; 5; 6]; [7; 8; 9]]
              [[0; 1; 0]; [0; 0; 1]; [1; 0; 0]] [2%nat] 2 2 2 2 0)
    as (ps & k' & Hrun & Hlen & _).
  - exact rng_reversing_valid.
  - reflexivity.
  - repeat constructor.
  - cbn. lia.
  - by exists ps, k'.
Defined.

Example draws_with_reversing_shuffles :
  (run_passes rng_reversing [[1; 2; 3]; [4; 5; 6]; [7; 8; 9]]
     [[0; 1; 0]; [0; 0; 1]; [1; 0; 0]] [2%nat] 2 2 2 0) ≫= (fun r => Some (draws_of r.1))
  = Some [2; 1; 0; 2; 2; 1; 0; 2]%nat.
Proof. vm_compute. reflexivity. Qed.

(** ** Sums, products and maxima of tensors *)

Lemma Qmax_cases (a b : Q) : Qmax a b = a \/ Qmax a b = b.
Proof.
  unfold Qmax, GenericMinMax.gmax. destruct (a ?= b); auto.
Qed.

Lemma foldl_Qmax_ge (r : list Q) (a : Q) :
  a <= foldl Qmax a r /\ Forall (fun x => x <= foldl Qmax a r) r.
Proof.
  revert a. induction r as [|b r IH]; intros a; cbn.
  - split; [apply Qle_refl|constructor].
  - destruct (IH (Qmax a b)) as [H1 H2]. split; [|constructor; [|done]].
    + eapply Qle_trans; [apply Q.le_max_l|exact H1].
    + eapply Qle_trans; [apply Q.le_max_r|exact H1].
Qed.

Lemma foldl_Qmax_in (r : list Q) (a : Q) : foldl Qmax a r ∈ a :: r.
Proof.
  revert a. induction r as [|b r IH]; intros a; cbn.
  - left.
  - specialize (IH (Qmax a b)). apply elem_of_cons in IH as [IH|IH].
    + rewrite IH. destruct (Qmax_cases a b) as [->| ->]; [left|right; left].
    + right. by right.
Qed.

Lemma window_max_ge (w : list Q) (x : Q) : x ∈ w -> x <= window_max w.
Proof.
  destruct w as [|a r]; [by intros ?%elem_of_nil|]. cbn.
  destruct (foldl_Qmax_ge r a) as [H1 H2].
  intros [->|Hx]%elem_of_cons; [done|]. by eapply Forall_forall in H2.
Qed.

Lemma window_max_in (w : list Q) : w ≠ [] -> window_max w ∈ w.
Proof. destruct w as [|a r]; [done|]. intros _. apply foldl_Qmax_in. Qed.

Lemma row_sum_le (a b : list Q) : Forall2 Qle a b -> row_sum a <= row_sum b.
Proof.
  induction 1 as [|x y a b Hxy _ IH]; cbn; [apply Qle_refl|]. by apply Qplus_le_compat.
Qed.

Lemma K_sum_le (a b : list (list Q)) : Forall2 (Forall2 Qle) a b -> K_sum a <= K_sum b.
Proof.
  induction 1 as [|x y a b Hxy _ IH]; cbn; [apply Qle_refl|].
  apply Qplus_le_compat; [by apply row_sum_le|done].
Qed.

Lemma row_sum_nonneg (a : list Q) : Forall (Qle 0) a -> 0 <= row_sum a.
Proof.
  induction 1 as [|x a Hx _ IH]; cbn; [apply Qle_refl|].
  replace 0 with (0 + 0) by reflexivity. by apply Qplus_le_compat.
Qed.

Lemma K_sum_nonneg (a : list (list Q)) : Forall (Forall (Qle 0)) a -> 0 <= K_sum a.
Proof.
  induction 1 as [|x a Hx _ IH]; cbn; [apply Qle_refl|].
  replace 0 with (0 + 0) by reflexivity.
  apply Qplus_le_compat; [by apply row_sum_nonneg|done].
Qed.

Lemma binary_bounds (x : Q) : binary x -> 0 <= x /\ x <= 1.
Proof. intros [->| ->]; split; discriminate. Qed.

Lemma binary_tensor_nonneg (t : list (list Q)) :
  binary_tensor t -> Forall (Forall (Qle 0)) t.
Proof.
  intros H. eapply Forall_impl; [exact H|]. intros r Hr.
  eapply Forall_impl; [exact Hr|]. intros x Hx. by apply binary_bounds.
Qed.

Lemma K_round_binary (t : list (list Q)) : binary_tensor t -> K_round t = t.
Proof.
  intros H. unfold K_round. induction H as [|r t Hr _ IH]; [done|]. cbn. f_equal; [|done].
  clear IH. induction Hr as [|x r Hx _ IH]; [done|]. cbn. f_equal; [|done].
  by destruct Hx as [->| ->].
Qed.

Lemma K_mul_binary (a b : list (list Q)) :
  binary_tensor a -> binary_tensor b -> binary_tensor (K_mul a b).
Proof.
  intros Ha. revert b. induction Ha as [|r a Hr _ IH]; intros b Hb; [constructor|].
  destruct Hb as [|s b Hs Hb]; [constructor|]. cbn. constructor; [|by apply IH].
  clear IH Hb. revert s Hs. induction Hr as [|x r Hx _ IH]; intros s Hs; [constructor|].
  destruct Hs as [|y s Hy Hs]; [constructor|]. cbn. constructor; [|by apply IH].
  destruct Hx as [->| ->], Hy as [->| ->]; by (left + right).
Qed.

(** Products of entries between 0 and 1 grow with their factors. *)
Lemma K_mul_le (a a' b b' : list (list Q)) :
  Forall2 (Forall2 Qle) a a' -> Forall2 (Forall2 Qle) b b' ->
  Forall (Forall (Qle 0)) a -> Forall (Forall (Qle 0)) b ->
  Forall2 (Forall2 Qle) (K_mul a b) (K_mul a' b').
Proof.
  intros Ha. revert b b'. induction Ha as [|r r' a a' Hr _ IH]; intros b b' Hb Ha0 Hb0;
    [constructor|].
  destruct Hb as [|s s' b b' Hs Hb]; [constructor|].
  apply Forall_cons in Ha0 as [Hr0 Ha0]. apply Forall_cons in Hb0 as [Hs0 Hb0].
  cbn. constructor; [|by apply IH].
  clear IH Hb Ha0 Hb0. revert s s' Hs Hs0.
  induction Hr as [|x x' r r' Hx _ IH]; intros s s' Hs Hs0; [constructor|].
  destruct Hs as [|y y' s s' Hy Hs]; [constructor|].
  apply Forall_cons in Hr0 as [Hx0 Hr0]. apply Forall_cons in Hs0 as [Hy0 Hs0].
  cbn. constructor; [|by apply IH].
  apply Qle_trans with (x' * y).
  - by apply Qmult_le_compat_r.
  - rewrite (Qmult_comm x' y), (Qmult_comm x' y').
    apply Qmult_le_compat_r; [done|]. by apply Qle_trans with x.
Qed.

(** ** Pooling with a wider window *)

Lemma pool_row_binary (k : nat) (x : list Q) :
  (0 < k)%nat -> Forall binary x -> Forall binary (pool_row k 1 x).
Proof.
  intros Hk Hx. apply Forall_lookup. intros i y Hy.
  assert (i < length x)%nat as Hi.
  { apply lookup_lt_Some in Hy. by rewrite length_pool_row_1 in Hy. }
  rewrite lookup_pool_row_1 in Hy by done.
  assert ((k - 1) / 2 <= k - 1)%nat as Hpb by (apply Nat.Div0.div_le_upper_bound; lia).
  revert Hy Hpb. generalize ((k - 1) / 2)%nat. intros pb Hy Hpb. injection Hy as <-.
  set (win := slice _ _ x).
  assert (win ≠ []) as Hne.
  { destruct (lookup_lt_is_Some_2 _ _ Hi) as [xi Hxi].
    assert (xi ∈ win) as Hin; [|by intros E; rewrite E in Hin; apply elem_of_nil in Hin].
    apply elem_of_slice. exists i. split; [lia|done]. }
  pose proof (window_max_in win Hne) as Hin.
  apply elem_of_slice in Hin as (j & _ & Hj). by eapply Forall_lookup_1.
Qed.

Lemma maxpool1D_binary (t : list (list Q)) (k : nat) :
  (0 < k)%nat -> binary_tensor t -> binary_tensor (maxpool1D t k 1).
Proof.
  intros Hk Ht. unfold maxpool1D, K_pool2d_rows. apply Forall_fmap.
  eapply Forall_impl; [exact Ht|]. intros r Hr. by apply pool_row_binary.
Qed.

Lemma lookup_pool_row_odd (m i : nat) (x : list Q) :
  (i < length x)%nat ->
  pool_row (2 * m + 1) 1 x !! i = Some (window_max (slice (i - m) (i + m + 1) x)).
Proof.
  intros Hi. rewrite lookup_pool_row_1 by done.
  replace (2 * m + 1 - 1)%nat with (m * 2)%nat by lia. rewrite Nat.div_mul by done.
  by replace (i + (2 * m + 1) - m)%nat with (i + m + 1)%nat by lia.
Qed.

Lemma pool_row_wider (m1 m2 : nat) (x : list Q) :
  (m1 <= m2)%nat ->
  Forall2 Qle (pool_row (2 * m1 + 1) 1 x) (pool_row (2 * m2 + 1) 1 x).
Proof.
  intros Hm. apply Forall2_same_length_lookup.
  split; [by rewrite !length_pool_row_1|].
  intros i y1 y2 H1 H2.
  assert (i < length x)%nat as Hi.
  { apply lookup_lt_Some in H1. by rewrite length_pool_row_1 in H1. }
  rewrite lookup_pool_row_odd in H1, H2 by done.
  apply (inj Some) in H1 as <-. apply (inj Some) in H2 as <-.
  set (w1 := slice (i - m1) (i + m1 + 1) x).
  apply window_max_ge.
  assert (w1 ≠ []) as Hne.
  { destruct (lookup_lt_is_Some_2 _ _ Hi) as [xi Hxi].
    assert (xi ∈ w1) as Hin; [|by intros E; rewrite E in Hin; apply elem_of_nil in Hin].
    apply elem_of_slice. exists i. split; [lia|done]. }
  pose proof (window_max_in w1 Hne) as Hin.
  apply elem_of_slice in Hin as (j & Hj & Hxj).
  apply elem_of_slice. exists j. split; [lia|done].
Qed.

Lemma maxpool1D_wider (m1 m2 : nat) (t : list (list Q)) :
  (m1 <= m2)%nat ->
  Forall2 (Forall2 Qle) (maxpool1D t (2 * m1 + 1) 1) (maxpool1D t (2 * m2 + 1) 1).
Proof.
  intros Hm. unfold maxpool1D, K_pool2d_rows.
  apply Forall2_fmap, Forall2_same_length_lookup. split; [done|].
  intros i r1 r2 H1 H2. assert (r1 = r2) as -> by congruence.
  by apply pool_row_wider.
Qed.

(** ** Margin-tolerant metrics under a wider margin *)

Ltac solve_binary :=
  repeat match goal with
         | |- binary_tensor _ => unfold binary_tensor
         | |- Forall _ _ => constructor
         | |- binary _ => (by left) || (by right)
         end.

(** The counts the margin-tolerant precision is made of. *)
Definition tp_margin (yt yp : list (list Q)) (margin : nat) : Q :=
  K_sum (K_mul (K_round (maxpool1D yp (2 * margin + 1) 1)) (maxpool1D yt (2 * margin + 1) 1)).
Definition pp_margin (yt yp : list (list Q)) (margin : nat) : Q :=
  K_sum (K_round (maxpool1D yp (2 * margin + 1) 1)).

(** C3 (as stated): with a true spike and a matching prediction at frame 0
    and a false alarm at frame 3 of a row of five, margin 1 scores lower
    than margin 0: the hit at the border dilates to two frames, the false
    alarm to three, and the precision drops from 1/2 to 2/5. *)
Lemma C3_counterexample :
  (0 <= 1)%nat
  /\ binary_tensor [[1; 0; 0; 0; 0]] /\ binary_tensor [[1; 0; 0; 1; 0]]
  /\ same_shape [[1; 0; 0; 0; 0]] [[1; 0; 0; 1; 0]]
  /\ F2_margin [[1; 0; 0; 0; 0]] [[1; 0; 0; 1; 0]] 1
     < F2_margin [[1; 0; 0; 0; 0]] [[1; 0; 0; 1; 0]] 0
  /\ ¬ (F2_margin [[1; 0; 0; 0; 0]] [[1; 0; 0; 1; 0]] 0
        <= F2_margin [[1; 0; 0; 0; 0]] [[1; 0; 0; 1; 0]] 1).
Proof.
  split; [apply Nat.le_0_1|].
  split; [solve_binary|]. split; [solve_binary|]. split; [reflexivity|].
  assert (F2_margin [[1; 0; 0; 0; 0]] [[1; 0; 0; 1; 0]] 1
          < F2_margin [[1; 0; 0; 0; 0]] [[1; 0; 0; 1; 0]] 0) as H
    by (vm_compute; reflexivity).
  split; [exact H|]. exact (Qlt_not_le _ _ H).
Qed.

Example precision_drops_with_the_margin :
  tp_margin [[1; 0; 0; 0; 0]] [[1; 0; 0; 1; 0]] 0 = 1
  /\ pp_margin [[1; 0; 0; 0; 0]] [[1; 0; 0; 1; 0]] 0 = 2
  /\ tp_margin [[1; 0; 0; 0; 0]] [[1; 0; 0; 1; 0]] 1 = 2
  /\ pp_margin [[1; 0; 0; 0; 0]] [[1; 0; 0; 1; 0]] 1 = 5.
Proof. repeat split; vm_compute; reflexivity. Qed.

(** C3 (amended): for binary arrays of one shape and margins
    [margin1 <= margin2], the pooled ground truth and the pooled prediction
    of the wider margin dominate those of the narrower one entry by entry, so
    the number of true positives, of predicted positives and of actual
    positives the margin-tolerant metrics count never decreases; these are
    the counts the margin-tolerant precision divides. *)
Theorem C3_wider_margin_grows_the_counts
    (yt yp : list (list Q)) (margin1 margin2 : nat) :
  (margin1 <= margin2)%nat -> binary_tensor yt -> binary_tensor yp -> same_shape yt yp ->
  Forall2 (Forall2 Qle) (maxpool1D yt (2 * margin1 + 1) 1) (maxpool1D yt (2 * margin2 + 1) 1)
  /\ Forall2 (Forall2 Qle) (maxpool1D yp (2 * margin1 + 1) 1) (maxpool1D yp (2 * margin2 + 1) 1)
  /\ tp_margin yt yp margin1 <= tp_margin yt yp margin2
  /\ pp_margin yt yp margin1 <= pp_margin yt yp margin2
  /\ K_sum (maxpool1D yt (2 * margin1 + 1) 1) <= K_sum (maxpool1D yt (2 * margin2 + 1) 1)
  /\ prec_margin yt yp margin1
     = tp_margin yt yp margin1 / (pp_margin yt yp margin1 + K_epsilon)
  /\ prec_margin yt yp margin2
     = tp_margin yt yp margin2 / (pp_margin yt yp margin2 + K_epsilon).
Proof.
  intros Hm Hyt Hyp _.
  pose proof (maxpool1D_wider margin1 margin2 yt Hm) as Ht.
  pose proof (maxpool1D_wider margin1 margin2 yp Hm) as Hp.
  assert (forall m, binary_tensor (maxpool1D yt (2 * m + 1) 1)) as Hbt
    by (intros m; apply maxpool1D_binary; [lia|done]).
  assert (forall m, binary_tensor (maxpool1D yp (2 * m + 1) 1)) as Hbp
    by (intros m; apply maxpool1D_binary; [lia|done]).
  split; [done|]. split; [done|].
  split; [|split; [|split; [|split; reflexivity]]].
  - unfold tp_margin. rewrite !K_round_binary by done.
    apply K_sum_le, K_mul_le; try done; by apply binary_tensor_nonneg.
  - unfold pp_margin. rewrite !K_round_binary by done. by apply K_sum_le.
  - by apply K_sum_le.
Qed.

Lemma C3_witness :
  tp_margin [[0; 1; 0; 0; 0]; [0; 0; 0; 0; 1]] [[0; 0; 1; 0; 0]; [1; 0; 0; 0; 0]] 0
  <= tp_margin [[0; 1; 0; 0; 0]; [0; 0; 0; 0; 1]] [[0; 0; 1; 0; 0]; [1; 0; 0; 0; 0]] 2.
Proof.
  apply (C3_wider_margin_grows_the_counts
           [[0; 1; 0; 0; 0]; [0; 0; 0; 0; 1]] [[0; 0; 1; 0; 0]; [1; 0; 0; 0; 0]] 0 2).
  - lia.
  - solve_binary.
  - solve_binary.
  - reflexivity.
Defined.

(** ** The ranges of precision, recall and F2 *)

Lemma ratio_bounds (a b e : Q) :
  0 <= a -> a <= b -> 0 < e -> 0 <= a / (b + e) /\ a / (b + e) < 1.
Proof.
  intros Ha Hab He. assert (0 < b + e) as Hd by lra. split.
  - apply Qle_shift_div_l; [done|]. lra.
  - apply Qlt_shift_div_r; [done|]. lra.
Qed.

Lemma f2_bounds (p r e : Q) :
  0 <= p -> p < 1 -> 0 <= r -> r < 1 -> 0 < e ->
  0 <= (1 + 2 ^ 2) * ((p * r) / (2 ^ 2 * p + r + e))
  /\ (1 + 2 ^ 2) * ((p * r) / (2 ^ 2 * p + r + e)) < 1.
Proof.
  intros Hp0 Hp1 Hr0 Hr1 He.
  change (2 ^ 2) with 4. change (1 + 4) with 5.
  assert (0 < 4 * p + r + e) as Hd by lra.
  assert (0 <= p * r) as Hpr by nra.
  assert (5 * (p * r) < 4 * p + r + e) as Hlt by nra.
  set (d := 4 * p + r + e) in *.
  assert (0 <= p * r / d) as H0 by (apply Qle_shift_div_l; [done|lra]).
  assert (p * r / d < 1 # 5) as H1 by (apply Qlt_shift_div_r; [done|lra]).
  split; lra.
Qed.

Lemma ratio_near_one (n e : Q) : 1 <= n -> 0 < e -> 1 - e < n / (n + e).
Proof.
  intros Hn He. apply Qlt_shift_div_l; [lra|]. nra.
Qed.

Lemma f2_near_one (p e : Q) :
  1 - e < p -> p < 1 -> 0 < e -> e < 1 ->
  1 - 2 * e < (1 + 2 ^ 2) * ((p * p) / (2 ^ 2 * p + p + e)).
Proof.
  intros Hp Hp1 He He1.
  change (2 ^ 2) with 4. change (1 + 4) with 5.
  assert (0 < 4 * p + p + e) as Hd by lra.
  assert ((1 - 2 * e) * (1 # 5) < p * p / (4 * p + p + e)) as H.
  { apply Qlt_shift_div_l; [done|].
    assert (0 < p * (p - (1 - e))) as H1 by nra.
    assert (0 <= e * (5 * p - 1 + 2 * e)) as H2 by nra.
    nra. }
  lra.
Qed.

Lemma K_clip_nonneg (t : list (list Q)) : Forall (Forall (Qle 0)) (K_clip t 0 1).
Proof.
  unfold K_clip. apply Forall_fmap, Forall_true. intros r.
  apply Forall_fmap, Forall_true. intros x. unfold K_clip1. cbn.
  apply Q.min_glb; [apply Q.le_max_r|discriminate].
Qed.

Lemma K_mul_le_l (yt yp : list (list Q)) :
  same_shape yt yp -> binary_tensor yt -> binary_tensor yp ->
  Forall2 (Forall2 Qle) (K_mul yp yt) yp.
Proof.
  unfold same_shape. intros Hs Hyt Hyp. revert yt Hs Hyt.
  induction Hyp as [|r yp Hr _ IH]; intros yt Hs Hyt.
  - destruct yt; [constructor|discriminate].
  - destruct Hyt as [|s yt Hsb Hyt]; [discriminate|]. cbn in Hs.
    injection Hs as Hlen Hs. cbn. constructor; [|by apply IH].
    clear IH Hs Hyt. revert s Hlen Hsb.
    induction Hr as [|x r Hx _ IH]; intros s Hlen Hsb.
    + destruct s; [constructor|discriminate].
    + destruct Hsb as [|y s Hy Hsb]; [discriminate|]. cbn in Hlen.
      injection Hlen as Hlen. cbn. constructor; [|by apply IH].
      destruct Hx as [->| ->], Hy as [->| ->]; discriminate.
Qed.

Lemma K_mul_self (t : list (list Q)) : binary_tensor t -> K_mul t t = t.
Proof.
  intros H. unfold K_mul. induction H as [|r t Hr _ IH]; [done|]. cbn. f_equal; [|done].
  clear IH. induction Hr as [|x r Hx _ IH]; [done|]. cbn. f_equal; [|done].
  by destruct Hx as [->| ->].
Qed.

Lemma no_false_negative_row (r : list Q) :
  Forall binary r -> row_sum (map (K_clip1 0 1) (zip_with Qminus r r)) == 0.
Proof.
  induction 1 as [|x r Hx _ IH]; [reflexivity|].
  change (K_clip1 0 1 (x - x) + row_sum (map (K_clip1 0 1) (zip_with Qminus r r)) == 0).
  rewrite IH, Qplus_0_r. by destruct Hx as [->| ->].
Qed.

Lemma no_false_negative_of_self (t : list (list Q)) :
  binary_tensor t -> K_sum (K_clip (K_sub t t) 0 1) == 0.
Proof.
  induction 1 as [|r t Hr _ IH]; [reflexivity|].
  change (row_sum (map (K_clip1 0 1) (zip_with Qminus r r))
          + K_sum (K_clip (K_sub t t) 0 1) == 0).
  by rewrite IH, Qplus_0_r, no_false_negative_row.
Qed.

Lemma binary_row_sum (r : list Q) : Forall binary r -> row_sum r == 0 \/ 1 <= row_sum r.
Proof.
  induction 1 as [|x r Hx Hr IH]; [by left|].
  change (row_sum (x :: r)) with (x + row_sum r).
  assert (0 <= row_sum r) as H0.
  { apply row_sum_nonneg. eapply Forall_impl; [exact Hr|]. intros y Hy. by apply binary_bounds. }
  destruct Hx as [->| ->]; [|right; lra].
  destruct IH as [IH|IH]; [left|right]; lra.
Qed.

Lemma binary_K_sum (t : list (list Q)) : binary_tensor t -> K_sum t == 0 \/ 1 <= K_sum t.
Proof.
  induction 1 as [|r t Hr Ht IH]; [by left|].
  change (K_sum (r :: t)) with (row_sum r + K_sum t).
  assert (0 <= K_sum t) as H0 by (by apply K_sum_nonneg, binary_tensor_nonneg).
  assert (0 <= row_sum r) as H1.
  { apply row_sum_nonneg. eapply Forall_impl; [exact Hr|]. intros y Hy. by apply binary_bounds. }
  destruct (binary_row_sum r Hr) as [Hr0|Hr1]; [|right; lra].
  destruct IH as [IH|IH]; [left|right]; lra.
Qed.

(** Binary32, the default float type of the backend: the nearest value to
    1e-7, and the precision of [tp] true positives among [pp] predicted ones
    (sums of ones are exact below 2^24). *)
Definition f32_of_Z (z : Z) : spec_float := binary_normalize 24 128 z 0 false.
Definition K_epsilon_f32 : spec_float := S754_finite false 14073749 (-47).
Definition prec_f32 (tp pp : Z) : spec_float :=
  SFdiv 24 128 (f32_of_Z tp) (SFadd 24 128 (f32_of_Z pp) K_epsilon_f32).




Example metrics_of_a_perfect_prediction :
  Qred (prec [[1; 0; 1]; [0; 0; 1]] [[1; 0; 1]; [0; 0; 1]]) = 30000000 # 30000001
  /\ Qred (reca [[1; 0; 1]; [0; 0; 1]] [[1; 0; 1]; [0; 0; 1]]) = 30000000 # 30000001
  /\ prec_f32 3 3 = f32_of_Z 1.
Proof. repeat split; vm_compute; reflexivity. Qed.

(** * Further properties of the metrics *)

Lemma slice_singleton {A} (i : nat) (x : list A) (a : A) :
  x !! i = Some a -> slice i (i + 1) x = [a].
Proof.
  intros H. unfold slice. replace (i + 1 - i)%nat with 1%nat by lia.
  by rewrite (drop_S _ _ _ H).
Qed.

Lemma pool_row_window_one (x : list Q) : pool_row 1 1 x = x.
Proof.
  apply list_eq_same_length with (length x); [done|apply length_pool_row_1|].
  intros i y a Hi Hy Ha. rewrite lookup_pool_row_1 in Hy by done.
  change ((1 - 1) / 2)%nat with 0%nat in Hy. rewrite !Nat.sub_0_r in Hy.
  rewrite (slice_singleton _ _ _ Ha) in Hy. cbn in Hy. congruence.
Qed.

Lemma maxpool1D_window_one (t : list (list Q)) : maxpool1D t 1 1 = t.
Proof.
  unfold maxpool1D, K_pool2d_rows. induction t as [|r t IH]; [done|].
  cbn [map]. by rewrite pool_row_window_one, IH.
Qed.

(** With margin 0 the pooling window has one frame: the margin-tolerant
    metrics are the plain ones; and pooling with stride 1 keeps the shape of
    its input for every window. *)
Theorem margin_zero_is_no_margin (yt yp : list (list Q)) :
  prec_margin yt yp 0 = prec yt yp
  /\ reca_margin yt yp 0 = reca yt yp
  /\ F2_margin yt yp 0 = F2 yt yp
  /\ forall k, same_shape (maxpool1D yt k 1) yt.
Proof.
  unfold prec_margin, reca_margin, F2_margin. cbn [Nat.mul Nat.add].
  rewrite !maxpool1D_window_one. repeat split.
  intros k. unfold same_shape, maxpool1D, K_pool2d_rows. rewrite map_map.
  apply map_ext. intros r. apply length_pool_row_1.
Qed.

Lemma hits_and_misses_row (rt rp : list Q) :
  Forall binary rt -> Forall binary rp -> length rt = length rp ->
  row_sum (zip_with Qmult rp rt) + row_sum (map (K_clip1 0 1) (zip_with Qminus rt rp))
  == row_sum rt.
Proof.
  intros Ht. revert rp. induction Ht as [|y rt Hy _ IH]; intros rp Hp Hlen.
  - destruct rp; [reflexivity|discriminate].
  - destruct Hp as [|x rp Hx Hp]; [discriminate|]. cbn in Hlen. injection Hlen as Hlen.
    specialize (IH rp Hp Hlen).
    change (x * y + row_sum (zip_with Qmult rp rt)
            + (K_clip1 0 1 (y - x) + row_sum (map (K_clip1 0 1) (zip_with Qminus rt rp)))
            == y + row_sum rt).
    assert (x * y + K_clip1 0 1 (y - x) == y) as Hxy
      by (destruct Hx as [->| ->], Hy as [->| ->]; reflexivity).
    revert IH Hxy.
    generalize (row_sum (zip_with Qmult rp rt))
               (row_sum (map (K_clip1 0 1) (zip_with Qminus rt rp)))
               (K_clip1 0 1 (y - x)) (x * y) (row_sum rt).
    intros a b c m s IH Hxy. lra.
Qed.

Lemma hits_and_misses (yt yp : list (list Q)) :
  binary_tensor yt -> binary_tensor yp -> same_shape yt yp ->
  K_sum (K_mul yp yt) + K_sum (K_clip (K_sub yt yp) 0 1) == K_sum yt.
Proof.
  unfold same_shape. intros Ht. revert yp.
  induction Ht as [|rt yt Hrt _ IH]; intros yp Hp Hs.
  - destruct yp; [reflexivity|discriminate].
  - destruct Hp as [|rp yp Hrp Hp]; [discriminate|]. cbn in Hs. injection Hs as Hlen Hs.
    specialize (IH yp Hp Hs).
    pose proof (hits_and_misses_row rt rp Hrt Hrp Hlen) as Hrow.
    change (row_sum (zip_with Qmult rp rt) + K_sum (K_mul yp yt)
            + (row_sum (map (K_clip1 0 1) (zip_with Qminus rt rp))
               + K_sum (K_clip (K_sub yt yp) 0 1))
            == row_sum rt + K_sum yt).
    revert IH Hrow.
    generalize (row_sum (zip_with Qmult rp rt)) (K_sum (K_mul yp yt))
               (row_sum (map (K_clip1 0 1) (zip_with Qminus rt rp)))
               (K_sum (K_clip (K_sub yt yp) 0 1)) (row_sum rt) (K_sum yt).
    intros a b c d e f IH Hrow. lra.
Qed.

(** For binary arrays of one shape the true positives and the false
    negatives [reca] counts add up to the positives of the ground truth:
    recall is the share of the true spikes that were predicted. *)
Theorem recall_divides_by_the_true_positives_count (yt yp : list (list Q)) :
  binary_tensor yt -> binary_tensor yp -> same_shape yt yp ->
  K_sum (K_mul (K_round yp) yt) + K_sum (K_clip (K_sub yt (K_round yp)) 0 1) == K_sum yt
  /\ reca yt yp == K_sum (K_mul yp yt) / (K_sum yt + K_epsilon).
Proof.
  intros Ht Hp Hs. pose proof (hits_and_misses yt yp Ht Hp Hs) as H.
  rewrite K_round_binary by done. split; [done|].
  unfold reca. rewrite K_round_binary by done. by rewrite H.
Qed.

Lemma recall_witness :
  reca [[1; 0; 1]; [0; 0; 1]] [[1; 1; 0]; [0; 0; 1]]
  == K_sum (K_mul [[1; 1; 0]; [0; 0; 1]] [[1; 0; 1]; [0; 0; 1]])
     / (K_sum [[1; 0; 1]; [0; 0; 1]] + K_epsilon).
Proof.
  apply (recall_divides_by_the_true_positives_count
           [[1; 0; 1]; [0; 0; 1]] [[1; 1; 0]; [0; 0; 1]]).
  - solve_binary.
  - solve_binary.
  - reflexivity.
Defined.

Lemma no_hits_without_predictions (yt yp : list (list Q)) :
  Forall (Forall (fun x => K_round1 x = 0)) yp ->
  K_sum (K_mul (K_round yp) yt) == 0 /\ K_sum (K_round yp) == 0.
Proof.
  intros Hp. revert yt. induction Hp as [|rp yp Hrp _ IH]; intros yt.
  - split; reflexivity.
  - assert (row_sum (map K_round1 rp) == 0) as Hr0.
    { clear -Hrp. induction Hrp as [|x rp Hx _ IH]; [reflexivity|].
      change (K_round1 x + row_sum (map K_round1 rp) == 0). rewrite Hx, IH. reflexivity. }
    split.
    + destruct yt as [|rt yt]; [reflexivity|].
      change (row_sum (zip_with Qmult (map K_round1 rp) rt)
              + K_sum (K_mul (K_round yp) yt) == 0).
      rewrite (proj1 (IH yt)), Qplus_0_r. clear -Hrp. revert rt.
      induction Hrp as [|x rp Hx _ IH]; intros rt; [reflexivity|].
      destruct rt as [|y rt]; [reflexivity|].
      change (K_round1 x * y + row_sum (zip_with Qmult (map K_round1 rp) rt) == 0).
      rewrite Hx, IH. ring.
    + change (row_sum (map K_round1 rp) + K_sum (K_round yp) == 0).
      rewrite Hr0, (proj2 (IH [])). reflexivity.
Qed.

(** A prediction none of whose entries rounds to a spike scores 0 on
    precision, recall and F2, whatever the ground truth: the epsilon of the
    denominators stands in for the missing positives. *)
Theorem metrics_without_predicted_positives (yt yp : list (list Q)) :
  Forall (Forall (fun x => K_round1 x = 0)) yp ->
  prec yt yp == 0 /\ reca yt yp == 0 /\ F2 yt yp == 0.
Proof.
  intros Hp. destruct (no_hits_without_predictions yt yp Hp) as [Htp Hpp].
  assert (prec yt yp == 0) as H1.
  { unfold prec. rewrite Htp. unfold Qdiv. ring. }
  assert (reca yt yp == 0) as H2.
  { unfold reca. rewrite Htp. unfold Qdiv. ring. }
  split; [done|]. split; [done|].
  unfold F2, F2_beta. rewrite H1, H2. unfold Qdiv. ring.
Qed.

Lemma metrics_without_predicted_positives_witness :
  prec [[1; 0; 1]] [[1 # 4; 1 # 2; 0]] == 0
  /\ reca [[1; 0; 1]] [[1 # 4; 1 # 2; 0]] == 0
  /\ F2 [[1; 0; 1]] [[1 # 4; 1 # 2; 0]] == 0.
Proof.
  apply (metrics_without_predicted_positives [[1; 0; 1]] [[1 # 4; 1 # 2; 0]]).
  repeat constructor.
Defined.

(** * Further properties of predict *)

Lemma Qfloor_unit (x : Q) : 0 <= x -> x <= 1 -> Qfloor x = 0%Z \/ (Qfloor x = 1%Z /\ x == 1).
Proof.
  intros H0 H1.
  pose proof (Qfloor_resp_le _ _ H0) as Hlo. pose proof (Qfloor_resp_le _ _ H1) as Hhi.
  change (Qfloor 0) with 0%Z in Hlo. change (Qfloor 1) with 1%Z in Hhi.
  destruct (decide (Qfloor x = 0%Z)) as [|Hne]; [by left|right].
  assert (Qfloor x = 1%Z) as Hf by lia. split; [done|].
  pose proof (Qfloor_le x) as Hle. rewrite Hf in Hle. change (inject_Z 1) with 1 in Hle.
  by apply Qle_antisym.
Qed.

(** The docstring of [predict]: on probabilities, thresholding at 0.5 is
    rounding; a probability of exactly 0.5 goes to 0 either way. *)
Theorem threshold_one_half_is_rounding (x : Q) :
  0 <= x -> x <= 1 -> binarize1 (1 # 2) x = K_round1 x.
Proof.
  intros H0 H1. unfold binarize1, K_round1. change (round32 (1 # 2)) with (1 # 2). cbn zeta.
  destruct (Qfloor_unit x H0 H1) as [Hf|[Hf Hx]]; rewrite Hf.
  - change (inject_Z 0) with 0. change (inject_Z (0 + 1)) with 1. change (Z.even 0) with true.
    destruct (x - 0 ?= 1 # 2) eqn:Ec.
    + apply Qeq_alt in Ec. rewrite (proj2 (Qle_bool_iff x (1 # 2))); [done|]. lra.
    + apply Qlt_alt in Ec. rewrite (proj2 (Qle_bool_iff x (1 # 2))); [done|]. lra.
    + apply Qgt_alt in Ec. destruct (Qle_bool x (1 # 2)) eqn:Eb; [|done].
      apply Qle_bool_iff in Eb. lra.
  - change (inject_Z 1) with 1. change (inject_Z (1 + 1)) with 2.
    assert ((x - 1 ?= 1 # 2) = Lt) as -> by (apply (proj1 (Qlt_alt _ _)); lra).
    destruct (Qle_bool x (1 # 2)) eqn:Eb; [|done]. apply Qle_bool_iff in Eb. lra.
Qed.

Lemma threshold_one_half_witness :
  binarize1 (1 # 2) (1 # 2) = K_round1 (1 # 2).
Proof. apply threshold_one_half_is_rounding; discriminate. Defined.

Section PredictEffects.
Variable attrs_func : string -> option (gmap string string).
Variable traces_func : string -> option (list (list Q)).
Variable keras_predict : string -> nat -> list (list Q) -> nat -> option (list (list Q)).

(** What [predict] does outside of memory for one dataset that it can
    handle: it reads the attributes, then the traces, then loads the model
    for the length of these traces. *)
Definition predict_trail (model_path : string) (p : string) : list event :=
  match traces_func p with
  | Some traces => [Load_attrs p; Load_traces p; Load_model model_path (shape1 traces)]
  | None => [Load_attrs p; Load_traces p]
  end.

Lemma predict_one_effects model_path batch threshold p r w w' :
  predict_one attrs_func traces_func keras_predict model_path batch threshold p w = (Ok r, w') ->
  w_store w' = w_store w /\ w_calls w' = w_calls w
  /\ w_events w' = w_events w ++ predict_trail model_path p.
Proof.
  unfold predict_one, predict_trail, bind, emit, lift_opt, ret, raise. cbn.
  destruct (attrs_func p) as [attrs|]; [|discriminate].
  destruct (attrs !! "name"%string) as [name|]; [|discriminate].
  destruct (traces_func p) as [traces|]; [|discriminate]. cbn.
  destruct (keras_predict _ _ _ _) as [probs|]; [|discriminate].
  intros [= _ <-]. cbn. by rewrite <- !app_assoc.
Qed.

(** A call of [predict] that returns has touched neither the store nor the
    random generator, and has handled the datasets one after the other in
    the order of the paths, loading the model anew for each of them with the
    length of that dataset's traces. *)
Theorem predict_effects (paths : list string) (model_path : string) (batch : nat)
    (threshold : Q) (w w' : world) (r : list (list (list Q)) * list string) :
  predict attrs_func traces_func keras_predict paths model_path batch threshold w = (Ok r, w') ->
  w_store w' = w_store w /\ w_calls w' = w_calls w
  /\ w_events w' = w_events w ++ concat (map (predict_trail model_path) paths).
Proof.
  unfold predict. generalize (@nil (list (list Q))) (@nil string).
  revert w. induction paths as [|p rest IH]; intros w acc_p acc_n; cbn [predict_loop].
  - unfold ret. intros [= _ <-]. cbn. by rewrite app_nil_r.
  - intros (r1 & w1 & H1 & H)%bind_Ok.
    apply predict_one_effects in H1 as (Hs1 & Hc1 & He1).
    apply IH in H as (Hs & Hc & He).
    split; [congruence|]. split; [congruence|].
    rewrite He, He1. cbn [map concat]. by rewrite <- app_assoc.
Qed.

(** A dataset without a "name" attribute stops [predict] with KeyError
    before its traces are read; the datasets before it were read and
    predicted, their predictions are lost. *)
Theorem predict_missing_name (done : list string) (p : string) (rest : list string)
    (model_path : string) (batch : nat) (threshold : Q) (w : world)
    (attrs : gmap string string) :
  Forall (fun q => exists a name traces probs,
            attrs_func q = Some a /\ a !! "name"%string = Some name
            /\ traces_func q = Some traces
            /\ keras_predict model_path (shape1 traces) traces batch = Some probs) done ->
  attrs_func p = Some attrs -> attrs !! "name"%string = None ->
  predict attrs_func traces_func keras_predict (done ++ p :: rest) model_path batch threshold w
  = (Raise KeyError,
     {| w_store := w_store w; w_calls := w_calls w;
        w_events := w_events w ++ concat (map (predict_trail model_path) done)
                    ++ [Load_attrs p] |}).
Proof.
  intros Hdone Hattrs Hname. unfold predict.
  generalize (@nil (list (list Q))) (@nil string). revert w.
  induction Hdone as [|q done (a & name & traces & probs & Ha & Hn & Ht & Hk) _ IH];
    intros w acc_p acc_n.
  - cbn [app predict_loop]. unfold bind at 1. unfold predict_one.
    unfold bind, emit, lift_opt, ret, raise. cbn. rewrite Hattrs. cbn. rewrite Hname. done.
  - cbn [app predict_loop]. unfold bind at 1.
    destruct (predict_one_returns attrs_func traces_func keras_predict model_path batch
                threshold q w _ _ _ _ Ha Hn Ht Hk) as [w1 H1].
    rewrite H1. pose proof (predict_one_effects _ _ _ _ _ _ _ H1) as (Hs1 & Hc1 & He1).
    rewrite IH, Hs1, Hc1, He1. cbn [map concat]. by rewrite <- !app_assoc.
Qed.
End PredictEffects.

Definition demo_attrs_unnamed (p : string) : option (gmap string string) :=
  if decide (p = "c"%string) then Some ∅ else demo_attrs p.

Lemma predict_effects_witness :
  w_events (predict demo_attrs demo_traces demo_net ["a"; "b"]%string "m.hdf5" 32 (1 # 2)
              world0).2
  = [Load_attrs "a"; Load_traces "a"; Load_model "m.hdf5" 3;
     Load_attrs "b"; Load_traces "b"; Load_model "m.hdf5" 3]%string.
Proof.
  pose proof (predict_effects demo_attrs demo_traces demo_net ["a"; "b"]%string "m.hdf5" 32
                (1 # 2) world0
                (predict demo_attrs demo_traces demo_net ["a"; "b"]%string "m.hdf5" 32 (1 # 2)
                   world0).2
                ([[[0; 1; 0]; [1; 0; 1]]; [[0; 1; 0]; [1; 0; 1]]], ["ds-a"; "ds-b"]%string))
    as H.
  destruct H as (_ & _ & H); [vm_compute; reflexivity|]. exact H.
Defined.

Lemma predict_missing_name_witness :
  predict demo_attrs_unnamed demo_traces demo_net ["a"; "c"; "b"]%string "m.hdf5" 32 (1 # 2)
    world0
  = (Raise KeyError,
     {| w_store := ∅; w_calls := 0;
        w_events := [Load_attrs "a"; Load_traces "a"; Load_model "m.hdf5" 3;
                     Load_attrs "c"]%string |}).
Proof.
  apply (predict_missing_name demo_attrs_unnamed demo_traces demo_net ["a"%string] "c"
           ["b"%string] "m.hdf5" 32 (1 # 2) world0 ∅).
  - constructor; [|constructor].
    exists {[ "name"%string := "ds-a"%string ]}, "ds-a"%string, [[1; 2; 3]; [4; 5; 6]],
           [[1 # 2; 3 # 4; 1 # 4]; [1; 0; 51 # 100]].
    repeat split; reflexivity.
  - reflexivity.
  - reflexivity.
Defined.

(** * Further properties of fit *)

(** The four checks [fit] starts with. *)
Definition fit_checks (a : fit_args) : Prop :=
  length (shape a) = 1%nat
  /\ val_type a ∈ ["random_split"; "cross_validate"]%string
  /\ (1 < nb_folds a)%Z
  /\ SFeqb (f64_add (prop_trn a) (prop_val a)) f64_one = true.

Definition with_events (w : world) (evs : list event) : world :=
  {| w_store := w_store w; w_calls := w_calls w; w_events := w_events w ++ evs |}.

Lemma load_all_returns (f : string -> option (list (list Q))) (ev : string -> event)
    (paths : list string) (per_path : list (list (list Q))) (w : world) :
  mapM f paths = Some per_path ->
  load_all f ev paths w = (Ok (concat per_path), with_events w (map ev paths)).
Proof.
  revert per_path w. induction paths as [|p rest IH]; intros per_path w Hm.
  - cbn in Hm. injection Hm as <-. cbn. unfold ret, with_events. cbn.
    rewrite app_nil_r. by destruct w.
  - cbn in Hm. destruct (f p) as [rows|] eqn:Ef; [|done]. cbn in Hm.
    destruct (mapM f rest) as [pp|] eqn:Er; [|done]. cbn in Hm. injection Hm as <-.
    cbn [load_all]. unfold bind at 1. unfold emit. unfold bind at 1. rewrite Ef. cbn [lift_opt].
    unfold ret at 1. unfold bind at 1. rewrite (IH pp) by done.
    unfold ret, with_events. cbn. by rewrite <- app_assoc.
Qed.

Lemma load_all_fails (f : string -> option (list (list Q))) (ev : string -> event)
    (done : list string) (p : string) (rest : list string) (w : world) :
  Forall (fun q => is_Some (f q)) done -> f p = None ->
  load_all f ev (done ++ p :: rest) w
  = (Raise IOError, with_events w (map ev done ++ [ev p])).
Proof.
  intros Hdone Hp. revert w. induction Hdone as [|q done [rows Hq] _ IH]; intros w.
  - cbn [app load_all]. unfold bind at 1. unfold emit. unfold bind at 1. rewrite Hp. done.
  - cbn [app load_all]. unfold bind at 1. unfold emit. unfold bind at 1. rewrite Hq.
    cbn [lift_opt]. unfold ret at 1. unfold bind at 1. rewrite IH.
    unfold with_events. cbn. by rewrite <- app_assoc.
Qed.

Section FitFailures.
Variable R : rng.
Variable traces_func spikes_func : string -> option (list (list Q)).
Variable keras_train :
  list (list Q) * list (list Q) -> list (list Q) * list (list Q) -> nat -> nat ->
  metrics * metrics * string * nat.

Lemma fit_after_checks (a : fit_args) (w : world) :
  fit_checks a ->
  fit R traces_func spikes_func keras_train a w
  = bind (load_all traces_func Load_traces (dataset_paths a))
      (fun traces =>
         bind (load_all spikes_func Load_spikes (dataset_paths a))
           (fun spikes =>
              bind (py_assert (bool_decide (length traces = length spikes)))
                (fun _ =>
                   bind (on_store (fun σ => let '(rs, σ1) := alloc_arrays σ traces in
                                            Some (alloc σ1 (Lst rs))))
                     (fun tl =>
                        bind (on_store (fun σ => let '(rs, σ1) := alloc_arrays σ spikes in
                                                 Some (alloc σ1 (Lst rs))))
                          (fun sl =>
                             if bool_decide (val_type a = "random_split"%string) then
                               bind (rng_shuffle R (length traces))
                                 (fun idxs =>
                                    bind (lift_opt PyError
                                            (py_int (f64_mul (f64_of_Z (Z.of_nat (length idxs)))
                                                       (prop_trn a))))
                                      (fun n_trn =>
                                         bind (lift_opt PyError
                                                 (py_int (f64_mul
                                                            (f64_of_Z (Z.of_nat (length idxs)))
                                                            (prop_val a))))
                                           (fun n_val =>
                                              bind (fit_single R keras_train a tl sl
                                                      (py_slice_to n_trn idxs)
                                                      (py_slice_from (-1 * n_val) idxs) true)
                                                (fun r => let '(mt, mv, bmp) := r in
                                                          bind (emit (Log_metrics mt mv))
                                                            (fun _ => emit (Log_best_model bmp))))))
                             else
                               bind (rng_shuffle R (length traces))
                                 (fun idxs =>
                                    let folds := fold_idxs idxs (Z.to_nat (nb_folds a)) in
                                    bind (cv_loop R keras_train a tl sl folds
                                            (Z.to_nat (nb_folds a)) 0 [] [])
                                      (fun ms => emit (Log_cv_summary ms.1 ms.2)))))))) w.
Proof.
  intros (H1 & H2 & H3 & H4). unfold fit.
  unfold bind at 1. rewrite (bool_decide_eq_true_2 _ H1). cbn [py_assert ret].
  unfold bind at 1. rewrite (bool_decide_eq_true_2 _ H2). cbn [py_assert ret].
  unfold bind at 1. rewrite (bool_decide_eq_true_2 _ H3). cbn [py_assert ret].
  unfold bind at 1. rewrite H4. cbn [py_assert ret]. reflexivity.
Qed.

(** When the datasets hold different numbers of traces and spike rows,
    [fit] raises AssertionError after reading every dataset twice, traces
    first, and before it allocates, shuffles or builds anything. *)
Theorem fit_unequal_row_counts (a : fit_args) (w : world)
    (traces spikes : list (list (list Q))) :
  fit_checks a ->
  mapM traces_func (dataset_paths a) = Some traces ->
  mapM spikes_func (dataset_paths a) = Some spikes ->
  length (concat traces) ≠ length (concat spikes) ->
  fit R traces_func spikes_func keras_train a w
  = (Raise AssertionError,
     with_events w (map Load_traces (dataset_paths a) ++ map Load_spikes (dataset_paths a))).
Proof.
  intros Hc Ht Hs Hne. rewrite fit_after_checks by done.
  unfold bind at 1. rewrite (load_all_returns _ _ _ _ _ Ht).
  unfold bind at 1. rewrite (load_all_returns _ _ _ _ _ Hs).
  unfold bind at 1. rewrite (bool_decide_eq_false_2 _ Hne). cbn [py_assert raise].
  unfold with_events. cbn. by rewrite <- app_assoc.
Qed.

(** When a dataset cannot be read, [fit] raises IOError at once: the
    datasets before it have been read for their traces, nothing else has
    happened. *)
Theorem fit_unreadable_dataset (a : fit_args) (w : world)
    (done : list string) (p : string) (rest : list string) :
  fit_checks a -> dataset_paths a = done ++ p :: rest ->
  Forall (fun q => is_Some (traces_func q)) done -> traces_func p = None ->
  fit R traces_func spikes_func keras_train a w
  = (Raise IOError, with_events w (map Load_traces done ++ [Load_traces p])).
Proof.
  intros Hc Hpaths Hdone Hp. rewrite fit_after_checks by done.
  unfold bind at 1. rewrite Hpaths. by rewrite (load_all_fails _ _ _ _ _ _ Hdone Hp).
Qed.
End FitFailures.

Definition demo_two_spikes (p : string) : option (list (list Q)) :=
  Some [[0; 0; 1; 0; 0]; [1; 0; 0; 0; 0]].

Lemma fit_checks_demo strategy :
  strategy ∈ ["random_split"; "cross_validate"]%string -> fit_checks (demo_fit_args strategy).
Proof.
  intros H. split; [reflexivity|]. split; [exact H|]. split; [reflexivity|]. reflexivity.
Qed.

Lemma fit_unequal_row_counts_witness :
  fit rng_identity demo_fit_traces demo_two_spikes no_keras (demo_fit_args "random_split") world0
  = (Raise AssertionError,
     with_events world0
       [Load_traces "a"; Load_traces "b"; Load_spikes "a"; Load_spikes "b"]%string).
Proof.
  apply (fit_unequal_row_counts rng_identity demo_fit_traces demo_two_spikes no_keras
           (demo_fit_args "random_split") world0
           [[[1; 2; 3; 4; 5]; [6; 7; 8; 9; 10]; [1; 1; 1; 1; 1]];
            [[1; 2; 3; 4; 5]; [6; 7; 8; 9; 10]; [1; 1; 1; 1; 1]]]
           [[[0; 0; 1; 0; 0]; [1; 0; 0; 0; 0]]; [[0; 0; 1; 0; 0]; [1; 0; 0; 0; 0]]]).
  - apply fit_checks_demo. left.
  - reflexivity.
  - reflexivity.
  - discriminate.
Defined.

Definition demo_second_unreadable (p : string) : option (list (list Q)) :=
  if decide (p = "b"%string) then None else demo_fit_traces p.

Lemma fit_unreadable_dataset_witness :
  fit rng_identity demo_second_unreadable demo_fit_spikes no_keras
      (demo_fit_args "cross_validate") world0
  = (Raise IOError, with_events world0 [Load_traces "a"; Load_traces "b"]%string).
Proof.
  apply (fit_unreadable_dataset rng_identity demo_second_unreadable demo_fit_spikes no_keras
           (demo_fit_args "cross_validate") world0 ["a"%string] "b"%string []).
  - apply fit_checks_demo. right. left.
  - reflexivity.
  - constructor; [by eexists|constructor].
  - reflexivity.
Defined.

(** ** What a returning [fit] trained on *)

Definition trained_on (ev : event) : option (list nat * list nat) :=
  match ev with Train idxs_trn idxs_val _ _ _ _ => Some (idxs_trn, idxs_val) | _ => None end.

Definition summary_of (ev : event) : option bool :=
  match ev with Build_model _ _ summary => Some summary | _ => None end.

Definition steps_trained (ev : event) : option (nat * nat) :=
  match ev with Train _ _ _ _ steps epochs => Some (steps, epochs) | _ => None end.

Lemma load_all_inv (f : string -> option (list (list Q))) (ev : string -> event)
    (paths : list string) (w w' : world) (rows : list (list Q)) :
  load_all f ev paths w = (Ok rows, w') ->
  exists per_path, mapM f paths = Some per_path /\ rows = concat per_path
                   /\ w' = with_events w (map ev paths).
Proof.
  intros H. destruct (load_all_Ok _ _ _ _ _ _ H) as (_ & _ & pp & Hpp & ->).
  exists pp. split; [done|]. split; [done|].
  rewrite (load_all_returns _ _ _ _ w Hpp) in H. by injection H as <-.
Qed.

Lemma on_store_inv {A} (f : gmap nat pyobj -> option (A * gmap nat pyobj)) (w w' : world) (a : A) :
  on_store f w = (Ok a, w') ->
  w_calls w' = w_calls w /\ w_events w' = w_events w.
Proof.
  unfold on_store. destruct (f (w_store w)) as [[a' σ]|]; [|discriminate].
  by intros [= _ <-].
Qed.

Section FitTrail.
Variable R : rng.
Variable traces_func spikes_func : string -> option (list (list Q)).
Variable keras_train :
  list (list Q) * list (list Q) -> list (list Q) * list (list Q) -> nat -> nat ->
  metrics * metrics * string * nat.

Lemma fit_Ok_checks (a : fit_args) (w w' : world) (u : unit) :
  fit R traces_func spikes_func keras_train a w = (Ok u, w') -> fit_checks a.
Proof.
  unfold fit. intros H.
  apply bind_Ok in H as (u1 & w1 & Ha & H). apply py_assert_Ok in Ha as [H1 ->].
  apply bind_Ok in H as (u2 & w1 & Ha & H). apply py_assert_Ok in Ha as [H2 ->].
  apply bind_Ok in H as (u3 & w1 & Ha & H). apply py_assert_Ok in Ha as [H3 ->].
  apply bind_Ok in H as (u4 & w1 & Ha & H). apply py_assert_Ok in Ha as [H4 ->].
  apply bool_decide_eq_true in H1, H2, H3. by repeat split.
Qed.

Lemma fit_single_events (a : fit_args) (tl sl : loc) (idxs_trn idxs_val : list nat)
    (summary : bool) (w w' : world) (r : metrics * metrics * string) :
  fit_single R keras_train a tl sl idxs_trn idxs_val summary w = (Ok r, w') ->
  (0 < batch a)%nat
  /\ exists sp_trn sp_val,
       w_events w' = w_events w
                     ++ [Build_model (shape a) (error_margin a) summary;
                         Train idxs_trn idxs_val sp_trn sp_val
                           ((length idxs_trn + batch a - 1) / batch a) (nb_epochs a)].
Proof.
  intros H. unfold fit_single in H.
  apply bind_Ok in H as (u0 & w1 & He1 & H). apply emit_Ok in He1 as [_ Hev1].
  apply bind_Ok in H as (tr_trn & w2 & Hs & H). apply on_store_inv in Hs as [_ Hev2].
  apply bind_Ok in H as (sp_trn & w3 & Hs & H). apply on_store_inv in Hs as [_ Hev3].
  apply bind_Ok in H as (tr_val & w4 & Hs & H). apply on_store_inv in Hs as [_ Hev4].
  apply bind_Ok in H as (sp_val & w5 & Hs & H). apply on_store_inv in Hs as [_ Hev5].
  apply bind_Ok in H as (steps & w6 & Hst & H).
  assert ((0 < batch a)%nat /\ steps = ((length idxs_trn + batch a - 1) / batch a)%nat
          /\ w6 = w5) as (Hb & -> & ->).
  { unfold steps_of in Hst. destruct (batch a); [discriminate|].
    injection Hst as <- <-. split; [lia|done]. }
  apply bind_Ok in H as (xy_val & w7 & Hg & H). apply gen_first_batch_Ok in Hg as [_ Hev7].
  apply bind_Ok in H as (xy_trn & w8 & Hg & H). apply gen_first_batch_Ok in Hg as [_ Hev8].
  apply bind_Ok in H as (u9 & w9 & He9 & H). apply emit_Ok in He9 as [_ Hev9].
  destruct (keras_train xy_trn xy_val _ (nb_epochs a)) as [[[mt mv] bmp] calls].
  injection H as <- <-. cbn [w_events]. split; [done|]. exists sp_trn, sp_val.
  rewrite Hev9, Hev8, Hev7, Hev5, Hev4, Hev3, Hev2, Hev1. by rewrite <- app_assoc.
Qed.

Lemma cv_loop_events (a : fit_args) (tl sl : loc) (folds : list (list nat))
    (todo val_idx : nat) (mts mvs : list metrics) (w w' : world)
    (r : list metrics * list metrics) :
  cv_loop R keras_train a tl sl folds todo val_idx mts mvs w = (Ok r, w') ->
  exists evs, w_events w' = w_events w ++ evs
    /\ omap trained_on evs
       = map (fun v => (idxs_trn_of folds v, idxs_val_of folds v)) (seq val_idx todo)
    /\ omap summary_of evs = map (fun v => bool_decide (v = 0%nat)) (seq val_idx todo)
    /\ omap steps_trained evs
       = map (fun v => ((length (idxs_trn_of folds v) + batch a - 1) / batch a, nb_epochs a)%nat)
             (seq val_idx todo)
    /\ length r.1 = (length mts + todo)%nat /\ length r.2 = (length mvs + todo)%nat.
Proof.
  revert val_idx mts mvs w. induction todo as [|todo IH]; intros val_idx mts mvs w H.
  - cbn in H. injection H as <- <-. exists []. rewrite app_nil_r. cbn.
    by rewrite !Nat.add_0_r.
  - cbn [cv_loop] in H.
    apply bind_Ok in H as (u1 & w1 & Ha & H). apply py_assert_Ok in Ha as [_ ->].
    apply bind_Ok in H as (u2 & w2 & He & H). apply emit_Ok in He as [_ Hev2].
    apply bind_Ok in H as ([[mt mv] bmp] & w3 & Hf & H).
    apply fit_single_events in Hf as (_ & sp_trn & sp_val & Hev3).
    apply bind_Ok in H as (u4 & w4 & He & H). apply emit_Ok in He as [_ Hev4].
    apply IH in H as (evs & Hev & Ht & Hs & Hst & Hl1 & Hl2).
    eexists. split.
    { rewrite Hev, Hev4, Hev3, Hev2. rewrite <- !app_assoc. cbn [app]. reflexivity. }
    rewrite length_app in Hl1, Hl2. cbn in Hl1, Hl2.
    cbn [omap list_omap trained_on summary_of steps_trained seq map].
    rewrite Ht, Hs, Hst. repeat split; try done; lia.
Qed.

(** A returning cross-validation has trained exactly [nb_folds] models, one
    after the other: model [v] on the chunks other than [v] of the one
    shuffle of the trace indices and validated on chunk [v], for
    [ceil(|training set| / batch)] steps an epoch; only the first model has
    its summary printed. *)
Theorem fit_cross_validate_trail (a : fit_args) (w w' : world) :
  fit R traces_func spikes_func keras_train a w = (Ok tt, w') ->
  val_type a = "cross_validate"%string ->
  exists traces evs,
    mapM traces_func (dataset_paths a) = Some traces
    /\ w_events w' = w_events w ++ evs
    /\ let n := length (concat traces) in
       let k := Z.to_nat (nb_folds a) in
       let folds := fold_idxs (rng_perm R (w_calls w) (seq 0 n)) k in
       omap trained_on evs
       = map (fun v => (idxs_trn_of folds v, idxs_val_of folds v)) (seq 0 k)
       /\ omap summary_of evs = map (fun v => bool_decide (v = 0%nat)) (seq 0 k)
       /\ omap steps_trained evs
          = map (fun v => ((length (idxs_trn_of folds v) + batch a - 1) / batch a,
                            nb_epochs a)%nat) (seq 0 k).
Proof.
  intros H Hcv. pose proof (fit_Ok_checks _ _ _ _ H) as Hc.
  rewrite fit_after_checks in H by done.
  apply bind_Ok in H as (traces & w1 & Hl & H).
  apply load_all_inv in Hl as (tp & Htp & -> & ->).
  apply bind_Ok in H as (spikes & w2 & Hl & H).
  apply load_all_inv in Hl as (sp & Hsp & -> & ->).
  apply bind_Ok in H as (u & w3 & Ha & H). apply py_assert_Ok in Ha as [_ ->].
  apply bind_Ok in H as (tl & w4 & Hs & H). apply on_store_inv in Hs as [Hc4 He4].
  apply bind_Ok in H as (sl & w5 & Hs & H). apply on_store_inv in Hs as [Hc5 He5].
  rewrite Hcv in H. change (bool_decide ("cross_validate"%string = "random_split"%string))
    with false in H. cbn match in H.
  apply bind_Ok in H as (idxs & w6 & Hr & H).
  unfold rng_shuffle in Hr. injection Hr as <- <-.
  apply bind_Ok in H as (ms & w7 & Hcl & H).
  apply cv_loop_events in Hcl as (evs & Hev & Ht & Hs & Hst & _).
  apply emit_Ok in H as [_ He8]. cbn [w_events] in Hev.
  exists tp. eexists. split; [done|]. split.
  { rewrite He8, Hev, He5, He4. cbn [with_events w_events]. rewrite <- !app_assoc. reflexivity. }
  rewrite Hc5, Hc4 in Ht, Hst. cbn [with_events w_calls] in Ht, Hst. cbn zeta.
  rewrite !omap_app.
  assert (forall {B} (g : event -> option B) (mk : string -> event) (ps : list string),
             (forall p, g (mk p) = None) -> omap g (map mk ps) = []) as Hnone.
  { intros B g mk ps Hg. induction ps as [|p ps IH]; [done|]. cbn. by rewrite Hg. }
  rewrite !(Hnone _ _ Load_traces), !(Hnone _ _ Load_spikes) by done.
  cbn [app omap list_omap trained_on summary_of steps_trained]. rewrite !app_nil_r.
  by rewrite Ht, Hs, Hst.
Qed.

(** A returning random split has trained one model, with its summary
    printed: on the first [int(n * prop_trn)] indices of the one shuffle and
    validated on the slice [idxs[-int(n * prop_val):]]. *)
Theorem fit_random_split_trail (a : fit_args) (w w' : world) :
  fit R traces_func spikes_func keras_train a w = (Ok tt, w') ->
  val_type a = "random_split"%string ->
  exists traces evs n_trn n_val,
    mapM traces_func (dataset_paths a) = Some traces
    /\ w_events w' = w_events w ++ evs
    /\ let n := length (concat traces) in
       let idxs := rng_perm R (w_calls w) (seq 0 n) in
       py_int (f64_mul (f64_of_Z (Z.of_nat (length idxs))) (prop_trn a)) = Some n_trn
       /\ py_int (f64_mul (f64_of_Z (Z.of_nat (length idxs))) (prop_val a)) = Some n_val
       /\ omap trained_on evs = [(py_slice_to n_trn idxs, py_slice_from (-1 * n_val) idxs)]
       /\ omap summary_of evs = [true].
Proof.
  intros H Hrs. pose proof (fit_Ok_checks _ _ _ _ H) as Hc.
  rewrite fit_after_checks in H by done.
  apply bind_Ok in H as (traces & w1 & Hl & H).
  apply load_all_inv in Hl as (tp & Htp & -> & ->).
  apply bind_Ok in H as (spikes & w2 & Hl & H).
  apply load_all_inv in Hl as (sp & Hsp & -> & ->).
  apply bind_Ok in H as (u & w3 & Ha & H). apply py_assert_Ok in Ha as [_ ->].
  apply bind_Ok in H as (tl & w4 & Hs & H). apply on_store_inv in Hs as [Hc4 He4].
  apply bind_Ok in H as (sl & w5 & Hs & H). apply on_store_inv in Hs as [Hc5 He5].
  rewrite Hrs in H. change (bool_decide ("random_split"%string = "random_split"%string))
    with true in H. cbn match in H.
  apply bind_Ok in H as (idxs & w6 & Hr & H).
  unfold rng_shuffle in Hr. injection Hr as <- <-.
  apply bind_Ok in H as (n_trn & w7 & Hn & H). apply lift_opt_Ok in Hn as [Hn_trn ->].
  apply bind_Ok in H as (n_val & w7 & Hn & H). apply lift_opt_Ok in Hn as [Hn_val ->].
  apply bind_Ok in H as ([[mt mv] bmp] & w7 & Hf & H).
  apply fit_single_events in Hf as (_ & sp_trn & sp_val & Hev7).
  apply bind_Ok in H as (u8 & w8 & He & H). apply emit_Ok in He as [_ He8].
  apply emit_Ok in H as [_ He9]. cbn [w_events] in Hev7.
  rewrite Hc5, Hc4 in Hn_trn, Hn_val, Hev7. cbn [with_events w_calls] in Hn_trn, Hn_val, Hev7.
  exists tp. eexists. exists n_trn, n_val. split; [done|]. split.
  { rewrite He9, He8, Hev7, He5, He4. cbn [with_events w_events]. rewrite <- !app_assoc.
    reflexivity. }
  cbn zeta. split; [done|]. split; [done|].
  rewrite !omap_app.
  assert (forall {B} (g : event -> option B) (mk : string -> event) (ps : list string),
             (forall p, g (mk p) = None) -> omap g (map mk ps) = []) as Hnone.
  { intros B g mk ps Hg. induction ps as [|p ps IH]; [done|]. cbn. by rewrite Hg. }
  rewrite !(Hnone _ _ Load_traces), !(Hnone _ _ Load_spikes) by done.
  done.
Qed.
End FitTrail.

Lemma fit_cross_validate_trail_witness :
  exists traces evs,
    mapM demo_fit_traces ["a"; "b"]%string = Some traces
    /\ w_events (demo_fit_world "cross_validate") = w_events world0 ++ evs
    /\ omap summary_of evs = [true; false; false].
Proof.
  destruct (fit_cross_validate_trail rng_reversing demo_fit_traces demo_fit_spikes no_keras
              (demo_fit_args "cross_validate") world0 (demo_fit_world "cross_validate"))
    as (traces & evs & Ht & Hev & _ & Hs & _).
  - vm_compute. reflexivity.
  - reflexivity.
  - exists traces, evs. split; [exact Ht|]. split; [exact Hev|exact Hs].
Defined.

Lemma fit_random_split_trail_witness :
  exists traces evs,
    mapM demo_fit_traces ["a"; "b"]%string = Some traces
    /\ w_events (demo_fit_world "random_split") = w_events world0 ++ evs
    /\ omap summary_of evs = [true].
Proof.
  destruct (fit_random_split_trail rng_reversing demo_fit_traces demo_fit_spikes no_keras
              (demo_fit_args "random_split") world0 (demo_fit_world "random_split"))
    as (traces & evs & n_trn & n_val & Ht & Hev & _ & _ & _ & Hs).
  - vm_compute. reflexivity.
  - reflexivity.
  - exists traces, evs. split; [exact Ht|]. split; [exact Hev|exact Hs].
Defined.

(** ** The index sets of the two validation strategies *)

(** The random split with [n_trn] training and [n_val > 0] validation
    indices that fit into the shuffle: the training indices are its first
    [n_trn] entries, the validation indices its last [n_val]; they share
    nothing, and the entries between them are used for neither. *)
Theorem random_split_slices (idxs : list nat) (n_trn n_val : Z) :
  NoDup idxs -> (0 <= n_trn)%Z -> (0 < n_val)%Z -> (n_trn + n_val <= Z.of_nat (length idxs))%Z ->
  let trn := py_slice_to n_trn idxs in
  let val := py_slice_from (-1 * n_val) idxs in
  length trn = Z.to_nat n_trn /\ length val = Z.to_nat n_val
  /\ (forall x, x ∈ trn -> x ∉ val)
  /\ idxs = trn ++ slice (Z.to_nat n_trn) (length idxs - Z.to_nat n_val) idxs ++ val.
Proof.
  intros Hnd Ha Hb Hab trn val.
  assert (trn = take (Z.to_nat n_trn) idxs) as Htrn.
  { unfold trn, py_slice_to, py_bound. rewrite (proj2 (Z.ltb_ge _ _)) by lia.
    f_equal. lia. }
  assert (val = drop (length idxs - Z.to_nat n_val) idxs) as Hval.
  { unfold val, py_slice_from, py_bound. rewrite (proj2 (Z.ltb_lt _ _)) by lia.
    f_equal. lia. }
  split; [rewrite Htrn, length_take; lia|].
  split; [rewrite Hval, length_drop; lia|].
  split.
  - rewrite Htrn, Hval. intros x Hx1 Hx2.
    apply list_elem_of_lookup in Hx1 as [i Hi]. apply list_elem_of_lookup in Hx2 as [j Hj].
    apply lookup_take_Some in Hi as [Hi Hilt]. rewrite lookup_drop in Hj.
    pose proof (NoDup_lookup _ _ _ _ Hnd Hi Hj). lia.
  - rewrite Htrn, Hval. unfold slice.
    rewrite <- (take_drop (Z.to_nat n_trn) idxs) at 1. f_equal.
    rewrite <- (take_drop (length idxs - Z.to_nat n_val - Z.to_nat n_trn)
                  (drop (Z.to_nat n_trn) idxs)) at 1.
    f_equal. rewrite drop_drop. f_equal. lia.
Qed.

Lemma random_split_slices_witness :
  length (py_slice_to 8 (reverse (seq 0 10))) = 8%nat
  /\ length (py_slice_from (-1 * 2) (reverse (seq 0 10))) = 2%nat.
Proof.
  destruct (random_split_slices (reverse (seq 0 10)) 8 2) as (H1 & H2 & _).
  - rewrite reverse_Permutation. apply NoDup_seq.
  - lia.
  - lia.
  - cbn. lia.
  - split; [exact H1|exact H2].
Defined.

(** With the default share of validation data, 0.2, and fewer than five
    traces, [int(n * prop_val)] is 0 and the validation slice [idxs[-0:]] is
    the whole shuffle: every trace is validated on, the training traces
    included. *)
Theorem random_split_of_few_traces (idxs : list nat) (n_trn : Z) :
  (0 < length idxs < 5)%nat ->
  py_int (f64_mul (f64_of_Z (Z.of_nat (length idxs))) f64_02) = Some 0%Z
  /\ py_slice_from (-1 * 0) idxs = idxs
  /\ forall x, x ∈ py_slice_to n_trn idxs -> x ∈ py_slice_from (-1 * 0) idxs.
Proof.
  intros Hn.
  assert (py_slice_from (-1 * 0) idxs = idxs) as Hall.
  { unfold py_slice_from, py_bound. cbn [Z.mul Z.ltb Z.compare].
    by rewrite Z.min_l by lia. }
  split; [|split; [done|]].
  - destruct (length idxs) as [|[|[|[|[|n]]]]]; try lia; reflexivity.
  - intros x Hx. rewrite Hall. unfold py_slice_to in Hx.
    apply elem_of_take in Hx as (i & Hi & _). by eapply list_elem_of_lookup_2.
Qed.

Lemma random_split_of_few_traces_witness :
  py_slice_from (-1 * 0) [2; 0; 3; 1]%nat = [2; 0; 3; 1]%nat.
Proof.
  apply (random_split_of_few_traces [2; 0; 3; 1]%nat 3). cbn. lia.
Defined.

(** In a cross-validation over [N] traces the indices a fold trains or
    validates on are the first [nb_folds * (N / nb_folds)] entries of the
    shuffle, every one in exactly one of the two sets; the [N mod nb_folds]
    entries after them belong to no fold at all. *)
Theorem cross_validation_uses_the_prefix (nb_folds N v : nat) (idxs : list nat) :
  (1 < nb_folds)%nat -> idxs ≡ₚ seq 0 N -> (v < nb_folds)%nat ->
  let fsz := (N / nb_folds)%nat in
  let folds := fold_idxs idxs nb_folds in
  (forall x, x ∈ take (fsz * nb_folds) idxs
             <-> x ∈ idxs_trn_of folds v \/ x ∈ idxs_val_of folds v)
  /\ (forall x, x ∈ idxs_trn_of folds v -> x ∉ idxs_val_of folds v)
  /\ (forall x, x ∈ drop (fsz * nb_folds) idxs ->
        (x ∉ idxs_trn_of folds v) /\ (x ∉ idxs_val_of folds v)).
Proof.
  intros Hk Hperm Hv fsz folds.
  assert (length idxs = N) as Hlen by (by rewrite Hperm, length_seq).
  assert (NoDup idxs) as Hnd by (rewrite Hperm; apply NoDup_seq).
  assert (fold_size idxs nb_folds = fsz) as Hfsz by (unfold fold_size; by rewrite Hlen).
  assert (folds !! v = Some (idxs_val_of folds v)) as Hval.
  { pose proof (fold_idxs_lookup idxs nb_folds v Hv) as Hl. fold folds in Hl.
    by rewrite (idxs_val_of_lookup _ _ _ Hl). }
  assert (forall x, x ∈ take (fsz * nb_folds) idxs
                    <-> exists i fold, folds !! i = Some fold /\ x ∈ fold) as Hpre.
  { intros x. rewrite <- (slice_chunks_concat fsz nb_folds idxs).
    rewrite list_elem_of_In, in_concat. setoid_rewrite <- list_elem_of_In. split.
    - intros (fold & Hf & Hx). apply list_elem_of_fmap in Hf as (i & -> & Hi%elem_of_seq).
      exists i. eexists. split; [|exact Hx]. unfold folds.
      rewrite fold_idxs_lookup by lia. by rewrite Hfsz.
    - intros (i & fold & Hi & Hx). exists fold. split; [|done].
      assert (i < nb_folds)%nat as Hik.
      { apply lookup_lt_Some in Hi. unfold folds in Hi. by rewrite fold_idxs_length in Hi. }
      unfold folds in Hi. rewrite fold_idxs_lookup in Hi by done. rewrite Hfsz in Hi.
      apply (inj Some) in Hi as <-. apply list_elem_of_fmap. exists i.
      split; [done|]. apply elem_of_seq. lia. }
  assert (forall x, x ∈ idxs_trn_of folds v -> x ∉ idxs_val_of folds v) as Hdisj.
  { intros x (i & fold & Hne & Hi & Hx)%elem_of_idxs_trn_of.
    by eapply (folds_disjoint idxs nb_folds i v). }
  assert (forall x, x ∈ take (fsz * nb_folds) idxs
                    <-> x ∈ idxs_trn_of folds v \/ x ∈ idxs_val_of folds v) as Hcover.
  { intros x. rewrite Hpre, elem_of_idxs_trn_of. split.
    - intros (i & fold & Hi & Hx). destruct (decide (i = v)) as [->|Hne].
      + right. congruence.
      + left. by exists i, fold.
    - intros [(i & fold & _ & Hi & Hx)|Hx]; [by exists i, fold|].
      by exists v, (idxs_val_of folds v). }
  split; [done|]. split; [done|].
  intros x Hx.
  assert (x ∉ take (fsz * nb_folds) idxs) as Hnot.
  { intros Hx'. apply list_elem_of_lookup in Hx as [i Hi]. rewrite lookup_drop in Hi.
    apply list_elem_of_lookup in Hx' as [j Hj]. apply lookup_take_Some in Hj as [Hj Hjlt].
    pose proof (NoDup_lookup _ _ _ _ Hnd Hi Hj). lia. }
  split; intros Hin; apply Hnot, Hcover; [by left|by right].
Qed.

Lemma cross_validation_uses_the_prefix_witness :
  (0%nat ∉ idxs_trn_of (fold_idxs (reverse (seq 0 11)) 3) 1)
  /\ (0%nat ∉ idxs_val_of (fold_idxs (reverse (seq 0 11)) 3) 1).
Proof.
  destruct (cross_validation_uses_the_prefix 3 11 1 (reverse (seq 0 11))) as (_ & _ & H).
  - lia.
  - apply reverse_Permutation.
  - lia.
  - apply (H 0%nat). do 1 right. left.
Defined.

(** * Further properties of the batch generator *)

Lemma assign_row_length (w : nat) (v r : list Q) : assign_row w v = Some r -> length r = w.
Proof.
  unfold assign_row. destruct (decide (length v = w)) as [Hl|_].
  - by intros [= <-].
  - destruct v as [|a [|b v]]; try discriminate. intros [= <-]. apply length_replicate.
Qed.

Example np_uint8_values :
  map np_uint8 [0; 1; 5 # 2; 255; 256; 300] = [0; 1; 2; 255; 0; 44].
Proof. reflexivity. Qed.

Lemma np_uint8_binary (v : Q) : binary v -> np_uint8 v = v.
Proof. by intros [->| ->]. Qed.

Lemma map_np_uint8_binary (l : list Q) : Forall binary l -> map np_uint8 l = l.
Proof.
  induction 1 as [|v l Hv _ IH]; [done|]. cbn [map]. by rewrite np_uint8_binary, IH.
Qed.

Lemma Forall_slice {A} (P : A -> Prop) (lo hi : nat) (l : list A) :
  Forall P l -> Forall P (slice lo hi l).
Proof. intros H. unfold slice. by apply Forall_take, Forall_drop. Qed.

(** A window of length [w]: both halves have [w] entries; the labels are the
    frames [x0 .. x0 + w - 1] of the labels of the drawn trace as an array of
    [np.uint8] holds them, which is as they are when they are binary; the
    trace half is the same frames of the trace when the trace is long enough;
    the window ends before the last frame of the labels. *)
Definition window_of (traces spikes : list (list Q)) (w : nat) (s : sample) : Prop :=
  exists sp tr,
    spikes !! s_idx s = Some sp /\ traces !! s_idx s = Some tr
    /\ (s_x0 s + w < length sp)%nat
    /\ s_label s = map np_uint8 (slice (s_x0 s) (s_x0 s + w) sp)
    /\ (Forall binary sp -> s_label s = slice (s_x0 s) (s_x0 s + w) sp)
    /\ length (s_label s) = w /\ length (s_trace s) = w
    /\ ((s_x0 s + w <= length tr)%nat -> s_trace s = slice (s_x0 s) (s_x0 s + w) tr).

Section Windows.
Variable R : rng.
Variables traces spikes : list (list Q).
Variable shape : list nat.
Variable w : nat.
Hypothesis shape_0 : shape !! 0%nat = Some w.

Lemma draw_sample_window (c c' : cycle) (k k' : nat) (s : sample) :
  draw_sample R traces spikes shape c k = Some (s, c', k') -> window_of traces spikes w s.
Proof.
  intros H. apply draw_sample_Some in H
    as (_ & _ & sp & tr & w' & Hsp & Htr & Hw & Hx & _ & Hlab & Hlen & Has).
  assert (w' = w) as -> by congruence.
  exists sp, tr. split; [done|]. split; [done|]. split; [lia|]. split; [done|].
  split; [intros Hb; rewrite Hlab; by apply map_np_uint8_binary, Forall_slice|].
  split; [done|]. split; [by eapply assign_row_length|].
  intros Hin. rewrite assign_row_same in Has by (by apply slice_inside_length). congruence.
Qed.

Lemma fill_batch_windows (batch_size : nat) (c c' : cycle) (k k' : nat) (ss : list sample) :
  fill_batch R traces spikes shape batch_size c k = Some (ss, c', k') ->
  length ss = batch_size /\ Forall (window_of traces spikes w) ss.
Proof.
  revert c c' k k' ss. induction batch_size as [|b IH]; intros c c' k k' ss; cbn [fill_batch].
  - intros [= <- _ _]. by split.
  - destruct (draw_sample R traces spikes shape c k) as [[[s c1] k1]|] eqn:Ed;
      cbn [mbind option_bind]; [|discriminate].
    destruct (fill_batch R traces spikes shape b c1 k1) as [[[ss' c2] k2]|] eqn:Ef;
      cbn [mbind option_bind]; [|discriminate].
    intros [= <- _ _]. apply IH in Ef as [Hlen Hall]. split; [cbn; by rewrite Hlen|].
    constructor; [by eapply draw_sample_window|done].
Qed.

Lemma run_steps_windows (batch_size nb_steps : nat) (c : cycle) (k k' : nat)
    (bs : list (list sample)) :
  run_steps R traces spikes shape batch_size nb_steps c k = Some (bs, k') ->
  length bs = nb_steps
  /\ Forall (fun b => length b = batch_size /\ Forall (window_of traces spikes w) b) bs.
Proof.
  revert c k k' bs. induction nb_steps as [|n IH]; intros c k k' bs; cbn [run_steps].
  - intros [= <- _]. by split.
  - destruct (fill_batch R traces spikes shape batch_size c k) as [[[b c1] k1]|] eqn:Ef;
      cbn [mbind option_bind]; [|discriminate].
    destruct (run_steps R traces spikes shape batch_size n c1 k1) as [[bs' k2]|] eqn:Er;
      cbn [mbind option_bind]; [|discriminate].
    intros [= <- _]. apply IH in Er as [Hlen Hall]. split; [cbn; by rewrite Hlen|].
    constructor; [by eapply fill_batch_windows|done].
Qed.

(** Whatever the generator yields has the announced shape: every pass has
    [nb_steps] batches, every batch [batch_size] windows, every window
    [shape[0]] trace values and as many label values, cut from one trace and
    its labels at one offset; the label values are those an array of
    [np.uint8] keeps, the labels themselves when they are binary. *)
Theorem batches_have_the_window_shape (batch_size nb_steps passes k k' : nat)
    (ps : list (list (list sample))) :
  run_passes R traces spikes shape batch_size nb_steps passes k = Some (ps, k') ->
  length ps = passes
  /\ Forall (fun bs =>
       length bs = nb_steps
       /\ Forall (fun b =>
            length b = batch_size /\ Forall (window_of traces spikes w) b
            /\ length (yielded b).1 = batch_size /\ length (yielded b).2 = batch_size
            /\ Forall (fun row => length row = w) (yielded b).1
            /\ Forall (fun row => length row = w) (yielded b).2) bs) ps.
Proof.
  revert k k' ps. induction passes as [|p IH]; intros k k' ps; cbn [run_passes].
  - intros [= <- _]. by split.
  - unfold run_pass.
    destruct (run_steps R traces spikes shape batch_size nb_steps _ (S k)) as [[bs k1]|] eqn:Er;
      cbn [mbind option_bind]; [|discriminate].
    destruct (run_passes R traces spikes shape batch_size nb_steps p k1) as [[ps' k2]|] eqn:Ep;
      cbn [mbind option_bind]; [|discriminate].
    intros [= <- _]. apply IH in Ep as [Hlen Hall]. split; [cbn; by rewrite Hlen|].
    constructor; [|done]. apply run_steps_windows in Er as [Hl Hbs]. split; [done|].
    eapply Forall_impl; [exact Hbs|]. intros b [Hb Hwin]. unfold yielded. cbn [fst snd].
    rewrite !length_map. repeat split; try done.
    + apply Forall_fmap. eapply Forall_impl; [exact Hwin|].
      by intros s (? & ? & _ & _ & _ & _ & _ & _ & Ht & _).
    + apply Forall_fmap. eapply Forall_impl; [exact Hwin|].
      by intros s (? & ? & _ & _ & _ & _ & _ & Hl' & _).
Qed.
End Windows.

Lemma batches_have_the_window_shape_witness :
  exists ps k',
    run_passes rng_reversing [[1; 2; 3]; [4; 5; 6]; [7; 8; 9]]
      [[0; 1; 0]; [0; 0; 1]; [1; 0; 0]] [2%nat] 2 2 2 0 = Some (ps, k')
    /\ length ps = 2%nat.
Proof.
  eexists _, _. split; [vm_compute; reflexivity|].
  eapply (batches_have_the_window_shape rng_reversing [[1; 2; 3]; [4; 5; 6]; [7; 8; 9]]
            [[0; 1; 0]; [0; 0; 1]; [1; 0; 0]] [2%nat] 2 eq_refl 2 2 2 0).
  vm_compute. reflexivity.
Defined.

Lemma ceil_div_bounds (n b : nat) :
  (0 < b)%nat -> (n <= (n + b - 1) / b * b /\ (n + b - 1) / b * b < n + b)%nat.
Proof.
  intros Hb. pose proof (Nat.div_mod_eq (n + b - 1) b) as Hd.
  pose proof (Nat.mod_upper_bound (n + b - 1) b) as Hm. nia.
Qed.

Section Coverage.
Variable R : rng.
Variables traces spikes : list (list Q).
Variable shape : list nat.
Variable w : nat.
Hypothesis shape_0 : shape !! 0%nat = Some w.
Hypothesis ready : samplable w traces spikes.
Hypothesis valid : rng_valid R.
Hypothesis nonempty : (0 < length traces)%nat.

(** The comment of [_fit_single], "1 epoch = 1 training sample from every
    trace": with [ceil(n / batch)] steps of [batch] windows, every pass of
    the training generator draws between [n] and [n + batch - 1] windows, and
    among them at least one of every trace. *)
Theorem training_pass_samples_every_trace (batch passes k : nat) :
  (0 < batch)%nat ->
  let n := length traces in
  let steps := ((n + batch - 1) / batch)%nat in
  (forall w0, steps_of n batch w0 = (Ok steps, w0))
  /\ (n <= steps * batch < n + batch)%nat
  /\ exists ps k',
       run_passes R traces spikes shape batch steps passes k = Some (ps, k')
       /\ length ps = passes
       /\ forall q bs i, ps !! q = Some bs -> (i < n)%nat -> i ∈ draws_of_pass bs.
Proof.
  intros Hb n steps. pose proof (ceil_div_bounds n batch Hb) as Hsteps.
  split; [intros w0; subst steps; by destruct batch; [lia|]|]. split; [done|].
  destruct (run_passes_returns R traces spikes shape w shape_0 ready valid nonempty
              batch steps passes k) as (ps & k' & Hrun & Hlen & Hall).
  exists ps, k'. split; [done|]. split; [done|].
  intros q bs i Hq Hi. destruct (Hall q bs Hq) as [kq Hdraws].
  set (perm := rng_perm R kq (seq 0 (length traces))) in *.
  assert (perm ≡ₚ seq 0 n) as Hperm by apply valid.
  assert (length perm = n) as Hl by (by rewrite Hperm, length_seq).
  assert (i ∈ slice 0 (0 + n) (draws_of_pass bs)) as Hin.
  { rewrite Hdraws, slice_map_seq by (fold steps; lia).
    rewrite <- Hl, cyc_window_Permutation, Hperm. apply elem_of_seq. lia. }
  apply elem_of_slice in Hin as (j & _ & Hj). by eapply list_elem_of_lookup_2.
Qed.

(** The validation data of [_fit_single]: the one batch of [2 * n] windows
    its generator is asked for holds exactly two windows of every trace. *)
Theorem validation_batch_samples_every_trace_twice (k : nat) :
  let n := length traces in
  exists b k',
    run_pass R traces spikes shape (n * 2) 1 k = Some ([b], k')
    /\ length b = (n * 2)%nat
    /\ map s_idx b ≡ₚ seq 0 n ++ seq 0 n.
Proof.
  intros n.
  destruct (run_pass_returns R traces spikes shape w shape_0 ready valid nonempty (n * 2) 1 k)
    as (bs & Hrun & Hlen & Hdraws).
  destruct bs as [|b [|b' bs]]; try discriminate. exists b. eexists. split; [exact Hrun|].
  unfold draws_of_pass in Hdraws. cbn [concat] in Hdraws. rewrite app_nil_r in Hdraws.
  set (perm := rng_perm R k (seq 0 (length traces))) in *.
  assert (perm ≡ₚ seq 0 n) as Hperm by apply valid.
  assert (length perm = n) as Hl by (by rewrite Hperm, length_seq).
  split.
  - rewrite <- (length_map s_idx), Hdraws, length_map, length_seq. lia.
  - rewrite Hdraws. replace (1 * (n * 2))%nat with (n + n)%nat by lia.
    rewrite seq_app, map_app. cbn [Nat.add]. rewrite <- Hl at 1 2 3.
    by rewrite !cyc_window_Permutation, Hperm.
Qed.
End Coverage.

Lemma training_pass_samples_every_trace_witness :
  exists ps k',
    run_passes rng_reversing [[1; 2; 3]; [4; 5; 6]; [7; 8; 9]]
      [[0; 1; 0]; [0; 0; 1]; [1; 0; 0]] [2%nat] 2 ((3 + 2 - 1) / 2) 2 0 = Some (ps, k')
    /\ length ps = 2%nat.
Proof.
  destruct (training_pass_samples_every_trace rng_reversing [[1; 2; 3]; [4; 5; 6]; [7; 8; 9]]
              [[0; 1; 0]; [0; 0; 1]; [1; 0; 0]] [2%nat] 2 eq_refl) with (batch := 2%nat)
    (passes := 2%nat) (k := 0%nat) as (_ & _ & ps & k' & Hrun & Hlen & _).
  - repeat constructor.
  - exact rng_reversing_valid.
  - cbn. lia.
  - lia.
  - exists ps, k'. split; [exact Hrun|exact Hlen].
Defined.

Lemma validation_batch_witness :
  exists b k',
    run_pass rng_reversing [[1; 2; 3]; [4; 5; 6]; [7; 8; 9]]
      [[0; 1; 0]; [0; 0; 1]; [1; 0; 0]] [2%nat] (3 * 2) 1 0 = Some ([b], k')
    /\ length b = 6%nat.
Proof.
  destruct (validation_batch_samples_every_trace_twice rng_reversing
              [[1; 2; 3]; [4; 5; 6]; [7; 8; 9]] [[0; 1; 0]; [0; 0; 1]; [1; 0; 0]]
              [2%nat] 2 eq_refl) with (k := 0%nat) as (b & k' & Hrun & Hlen & _).
  - repeat constructor.
  - exact rng_reversing_valid.
  - cbn. lia.
  - exists b, k'. split; [exact Hrun|exact Hlen].
Defined.

(** * What the dilation does to binary labels *)

(** On binary labels, the dilation of the batch generator leaves binary
    labels of the same lengths, and frame [i] is positive afterwards exactly
    when a frame from [i - margin / 2] to [i + margin - margin / 2] was: a
    spike at frame [j] marks the frames from [j - (margin - margin / 2)] to
    [j + margin / 2], so it is always kept itself. *)
Theorem dilation_marks_the_frames_around_a_spike
    (margin : nat) (ls : loc) (σ : gmap nat pyobj) (labels : list (list Q)) :
  deref_list σ ls = Some labels -> binary_tensor labels ->
  exists σ' dil,
    dilate margin ls σ = Some σ' /\ deref_list σ' ls = Some dil
    /\ binary_tensor dil
    /\ forall r x, labels !! r = Some x ->
         exists d, dil !! r = Some d /\ length d = length x
           /\ forall i, (i < length x)%nat ->
                (d !! i = Some 1
                 <-> exists j, x !! j = Some 1
                               /\ (i - margin / 2 <= j <= i + margin - margin / 2)%nat).
Proof.
  intros Hd Hbin. destruct (dilate_spec margin ls σ labels Hd) as (σ' & Hrun & Hdil & _).
  exists σ', (map (pool_row (margin + 1) 1) labels). split; [done|]. split; [done|]. split.
  { apply Forall_fmap. eapply Forall_impl; [exact Hbin|]. intros x Hx.
    apply pool_row_binary; [lia|done]. }
  intros r x Hr. exists (pool_row (margin + 1) 1 x).
  split; [by rewrite list_lookup_fmap, Hr|]. split; [apply length_pool_row_1|].
  intros i Hi. rewrite lookup_pool_row_1 by done.
  replace (margin + 1 - 1)%nat with margin by lia.
  assert (margin / 2 <= margin)%nat as Hhalf by (apply Nat.Div0.div_le_upper_bound; lia).
  set (W := slice (i - margin / 2) (i + (margin + 1) - margin / 2) x).
  assert (Forall binary x) as Hx by (by eapply Forall_lookup_1 in Hbin).
  assert (W ≠ []) as Hne.
  { destruct (lookup_lt_is_Some_2 x i Hi) as [v Hv].
    assert (v ∈ W) as Hin by (apply elem_of_slice; exists i; split; [lia|done]).
    intros E. rewrite E in Hin. by apply elem_of_nil in Hin. }
  pose proof (window_max_in W Hne) as Hmax.
  apply elem_of_slice in Hmax as (j & Hj & Hxj). split.
  - intros [= Hone]. exists j. rewrite <- Hone. split; [done|lia].
  - intros (j' & Hxj' & Hj'). f_equal.
    assert (1 <= window_max W) as Hge.
    { apply window_max_ge, elem_of_slice. exists j'. split; [lia|done]. }
    assert (binary (window_max W)) as [E|E] by exact (Forall_lookup_1 _ _ _ _ Hx Hxj).
    + rewrite E in Hge. by destruct Hge.
    + done.
Qed.

Lemma dilation_marks_witness :
  exists σ' dil,
    dilate 1 (spikes_00100).1 (spikes_00100).2 = Some σ'
    /\ deref_list σ' (spikes_00100).1 = Some dil /\ binary_tensor dil.
Proof.
  destruct (dilation_marks_the_frames_around_a_spike 1 (spikes_00100).1 (spikes_00100).2
              [[0; 0; 1; 0; 0]]) as (σ' & dil & H1 & H2 & H3 & _).
  - vm_compute. reflexivity.
  - repeat constructor; by (left + right).
  - exists σ', dil. split; [exact H1|]. split; [exact H2|exact H3].
Defined.

(** * F2 against precision and recall *)

Lemma K_round1_nonneg (x : Q) : 0 <= x -> 0 <= K_round1 x.
Proof.
  intros Hx. pose proof (Qfloor_resp_le _ _ Hx) as Hf. change (Qfloor 0) with 0%Z in Hf.
  assert (forall z, (0 <= z)%Z -> 0 <= inject_Z z) as Hinj.
  { intros z Hz. change 0 with (inject_Z 0). by rewrite <- Zle_Qle. }
  unfold K_round1. cbn zeta.
  destruct (x - inject_Z (Qfloor x) ?= 1 # 2); [destruct (Z.even (Qfloor x))| |];
    apply Hinj; lia.
Qed.

Lemma K_round_nonneg (t : list (list Q)) :
  Forall (Forall (Qle 0)) t -> Forall (Forall (Qle 0)) (K_round t).
Proof.
  intros H. unfold K_round. apply Forall_fmap. eapply Forall_impl; [exact H|].
  intros r Hr. apply Forall_fmap. eapply Forall_impl; [exact Hr|].
  intros x. apply K_round1_nonneg.
Qed.

Lemma K_mul_nonneg (a b : list (list Q)) :
  Forall (Forall (Qle 0)) a -> Forall (Forall (Qle 0)) b -> Forall (Forall (Qle 0)) (K_mul a b).
Proof.
  intros Ha. revert b. induction Ha as [|r a Hr _ IH]; intros b Hb; [constructor|].
  destruct Hb as [|s b Hs Hb]; [constructor|]. cbn. constructor; [|by apply IH].
  clear IH Hb. revert s Hs. induction Hr as [|x r Hx _ IH]; intros s Hs; [constructor|].
  destruct Hs as [|y s Hy Hs]; [constructor|]. cbn. constructor; [|by apply IH].
  by apply Qmult_le_0_compat.
Qed.

Lemma f2_below_max (p r e : Q) :
  0 <= p -> 0 <= r -> 0 < e ->
  0 <= (1 + 2 ^ 2) * ((p * r) / (2 ^ 2 * p + r + e))
  /\ (1 + 2 ^ 2) * ((p * r) / (2 ^ 2 * p + r + e)) <= Qmax p r.
Proof.
  intros Hp Hr He. change (2 ^ 2) with 4. change (1 + 4) with 5.
  assert (0 < 4 * p + r + e) as Hd by lra.
  assert (0 <= p * r) as Hpr by (by apply Qmult_le_0_compat).
  assert (p <= Qmax p r) as Hmp by apply Q.le_max_l.
  assert (r <= Qmax p r) as Hmr by apply Q.le_max_r.
  set (m := Qmax p r) in *.
  assert (p * r <= p * m) as H1 by (rewrite !(Qmult_comm p); by apply Qmult_le_compat_r).
  assert (p * r <= r * m) as H2
    by (rewrite (Qmult_comm p r), !(Qmult_comm r); by apply Qmult_le_compat_r).
  assert (0 <= e * m) as H3 by (apply Qmult_le_0_compat; lra).
  assert (0 <= (p * r) / (4 * p + r + e)) as Hq0 by (apply Qle_shift_div_l; [done|lra]).
  assert (5 * ((p * r) / (4 * p + r + e)) == (5 * (p * r)) / (4 * p + r + e)) as E
    by (field; lra).
  split; [lra|]. rewrite E. apply Qle_shift_div_r; [done|]. lra.
Qed.



(** * The network builder, at the level of tensor shapes *)

(** [unet1d] only wires Keras layers together; what can be said about it
    without the weights is which shape every layer hands to the next one, and
    whether Keras accepts the wiring.  A shape leaves out the batch axis: the
    input is [[L]], a sequence of [L] frames with [c] channels is [[L; c]]. *)
Module Keras.

(** [keras.utils.conv_utils.conv_output_length] with dilation 1, on Python's
    integers. *)
Definition conv_output_length (input_length filter_size : nat) (same : bool) (stride : nat)
    : nat :=
  let output_length :=
    if same then Z.of_nat input_length
    else (Z.of_nat input_length - Z.of_nat filter_size + 1)%Z in
  Z.to_nat ((output_length + Z.of_nat stride - 1) / Z.of_nat stride).

Definition and_then {A B} (m : result A) (k : A -> result B) : result B :=
  match m with
  | Ok a => k a
  | Raise e => Raise e
  end.

Definition expand_dims_last (x : list nat) : result (list nat) := Ok (x ++ [1%nat]).

(** [Conv1D(filters, kernel_size, strides=strides, padding=...)]: the layer
    itself is refused without filters, and it wants sequences with channels;
    a ValueError otherwise. *)
Definition Conv1D (filters kernel_size strides : nat) (same : bool) (x : list nat)
    : result (list nat) :=
  if decide (filters = 0%nat) then Raise PyError else
  match x with
  | [l; _] => Ok [conv_output_length l kernel_size same strides; filters]
  | _ => Raise PyError
  end.

Definition BatchNormalization (x : list nat) : result (list nat) := Ok x.
Definition Activation (x : list nat) : result (list nat) := Ok x.
Definition Dropout (x : list nat) : result (list nat) := Ok x.

Definition MaxPooling1D (pool_size strides : nat) (same : bool) (x : list nat)
    : result (list nat) :=
  match x with
  | [l; c] => Ok [conv_output_length l pool_size same strides; c]
  | _ => Raise PyError
  end.

(** [UpSampling1D()] repeats every frame twice. *)
Definition UpSampling1D (x : list nat) : result (list nat) :=
  match x with
  | [l; c] => Ok [(2 * l)%nat; c]
  | _ => Raise PyError
  end.

(** [concatenate([x, y], axis=-1)]: the shapes must agree on every axis but
    the last, a ValueError otherwise. *)
Definition concatenate (x y : list nat) : result (list nat) :=
  match reverse x, reverse y with
  | c :: rx, c' :: ry =>
      if decide (rx = ry) then Ok (reverse rx ++ [(c + c')%nat]) else Raise PyError
  | _, _ => Raise PyError
  end.

(** [Lambda(lambda x: x[:, :, -1])]: the last channel. *)
Definition last_channel (x : list nat) : result (list nat) :=
  match x with
  | [l; S _] => Ok [l]
  | _ => Raise PyError
  end.

Record Model : Type := { input_shape : list nat; output_shape : list nat }.

End Keras.

Declare Scope keras_scope.
Notation "'let!' x ':=' m 'in' k" := (Keras.and_then m (fun x => k))
  (at level 10, x name, m at level 100, k at level 200) : keras_scope.
Local Open Scope keras_scope.

Definition up_layer (nb_filters : nat) (x : list nat) : result (list nat) :=
  Keras.UpSampling1D x.

Definition conv_layer (nbf : nat) (x : list nat) : result (list nat) :=
  let! x := Keras.Conv1D nbf 5 1 true x in
  let! x := Keras.BatchNormalization x in
  Keras.Activation x.

(** [unet1d(window_shape, nb_filters_base, ..., margin)] under the backend
    named [backend], with the default kernel initializer and the default
    dropout proportion, which do not reach any shape. *)
Definition unet1d (backend : string) (window_shape : list nat) (nb_filters_base margin : nat)
    : result Keras.Model :=
  let nfb := nb_filters_base in
  if negb (String.eqb backend "tensorflow") then Raise AssertionError else
  let inputs := window_shape in
  let! x := Keras.expand_dims_last inputs in

  let! x := conv_layer nfb x in
  let! x := conv_layer nfb x in
  let dc_0_out := x in

  let! x := Keras.MaxPooling1D 2 2 false x in
  let! x := conv_layer (nfb * 2) x in
  let! x := conv_layer (nfb * 2) x in
  let! x := Keras.Dropout x in
  let dc_1_out := x in

  let! x := Keras.MaxPooling1D 2 2 false x in
  let! x := conv_layer (nfb * 4) x in
  let! x := conv_layer (nfb * 4) x in
  let! x := Keras.Dropout x in
  let dc_2_out := x in

  let! x := Keras.MaxPooling1D 2 2 false x in
  let! x := conv_layer (nfb * 8) x in
  let! x := conv_layer (nfb * 8) x in
  let! x := Keras.Dropout x in
  let dc_3_out := x in

  let! x := Keras.MaxPooling1D 2 2 false x in
  let! x := conv_layer (nfb * 16) x in
  let! x := conv_layer (nfb * 16) x in
  let! x := up_layer (nfb * 8) x in
  let! x := Keras.Dropout x in

  let! x := Keras.concatenate x dc_3_out in
  let! x := conv_layer (nfb * 8) x in
  let! x := conv_layer (nfb * 8) x in
  let! x := up_layer (nfb * 4) x in
  let! x := Keras.Dropout x in

  let! x := Keras.concatenate x dc_2_out in
  let! x := conv_layer (nfb * 4) x in
  let! x := conv_layer (nfb * 4) x in
  let! x := up_layer (nfb * 2) x in
  let! x := Keras.Dropout x in

  let! x := Keras.concatenate x dc_1_out in
  let! x := conv_layer (nfb * 2) x in
  let! x := conv_layer (nfb * 2) x in
  let! x := up_layer nfb x in
  let! x := Keras.Dropout x in

  let! x := Keras.concatenate x dc_0_out in
  let! x := conv_layer nfb x in
  let! x := conv_layer nfb x in

  let! x := Keras.Conv1D 2 1 1 false x in
  let! x := Keras.MaxPooling1D (margin + 1) 1 true x in
  let! x := Keras.Activation x in

  let! x := Keras.last_channel x in
  Ok {| Keras.input_shape := inputs; Keras.output_shape := x |}.

Example unet1d_default :
  unet1d "tensorflow" [128%nat] 32 4
  = Ok {| Keras.input_shape := [128%nat]; Keras.output_shape := [128%nat] |}.
Proof. vm_compute. reflexivity. Qed.

Example unet1d_100 : unet1d "tensorflow" [100%nat] 32 4 = Raise PyError.
Proof. vm_compute. reflexivity. Qed.

Lemma conv_output_length_same_1 (l k : nat) : Keras.conv_output_length l k true 1 = l.
Proof.
  unfold Keras.conv_output_length. cbn zeta.
  replace (Z.of_nat l + Z.of_nat 1 - 1)%Z with (Z.of_nat l) by lia.
  rewrite Z.div_1_r. apply Nat2Z.id.
Qed.

Lemma conv_output_length_1_1 (l : nat) : Keras.conv_output_length l 1 false 1 = l.
Proof.
  unfold Keras.conv_output_length. cbn zeta.
  replace (Z.of_nat l - Z.of_nat 1 + 1 + Z.of_nat 1 - 1)%Z with (Z.of_nat l) by lia.
  rewrite Z.div_1_r. apply Nat2Z.id.
Qed.

Lemma conv_output_length_2_2 (l : nat) : Keras.conv_output_length l 2 false 2 = (l / 2)%nat.
Proof.
  unfold Keras.conv_output_length. cbn zeta.
  replace (Z.of_nat l - Z.of_nat 2 + 1 + Z.of_nat 2 - 1)%Z with (Z.of_nat l) by lia.
  change (Z.of_nat 2) with 2%Z. rewrite <- (Nat2Z.id (l / 2)). f_equal.
  by rewrite Nat2Z.inj_div.
Qed.

Lemma conv_layer_Ok (nbf l c : nat) : (0 < nbf)%nat -> conv_layer nbf [l; c] = Ok [l; nbf].
Proof.
  intros Hn. unfold conv_layer, Keras.Conv1D. rewrite decide_False by lia. cbn.
  by rewrite conv_output_length_same_1.
Qed.

Lemma conv_layer_no_filters (x : list nat) : conv_layer 0 x = Raise PyError.
Proof. reflexivity. Qed.

Lemma concatenate_2 (l c l' c' : nat) :
  Keras.concatenate [l; c] [l'; c']
  = if decide (l = l') then Ok [l; (c + c')%nat] else Raise PyError.
Proof.
  unfold Keras.concatenate. cbn.
  destruct (decide ([l] = [l'])) as [E|E], (decide (l = l')) as [E'|E']; try done.
  - by injection E.
  - by subst.
Qed.

Lemma and_then_Ok {A B} (a : A) (k : A -> result B) : Keras.and_then (Ok a) k = k a.
Proof. reflexivity. Qed.

Lemma MaxPooling1D_halves (l c : nat) : Keras.MaxPooling1D 2 2 false [l; c] = Ok [(l / 2)%nat; c].
Proof. cbn. by rewrite conv_output_length_2_2. Qed.

Lemma MaxPooling1D_same_1 (k l c : nat) : Keras.MaxPooling1D k 1 true [l; c] = Ok [l; c].
Proof. cbn. by rewrite conv_output_length_same_1. Qed.

Lemma Conv1D_1_1 (f l c : nat) : (0 < f)%nat -> Keras.Conv1D f 1 1 false [l; c] = Ok [l; f].
Proof.
  intros Hf. unfold Keras.Conv1D. rewrite decide_False by lia.
  by rewrite conv_output_length_1_1.
Qed.

Lemma UpSampling1D_doubles (l c : nat) : Keras.UpSampling1D [l; c] = Ok [(2 * l)%nat; c].
Proof. reflexivity. Qed.

Lemma Dropout_Ok (x : list nat) : Keras.Dropout x = Ok x.
Proof. reflexivity. Qed.

Ltac layers :=
  first [ rewrite conv_layer_Ok by lia
        | rewrite MaxPooling1D_halves
        | rewrite UpSampling1D_doubles
        | rewrite Dropout_Ok
        | rewrite and_then_Ok; cbv beta ].

(** What becomes of a window of [L] frames through the network: the four
    poolings halve the length, rounding down, the four up-samplings double
    it, and every concatenation wants the two lengths to be the same. *)
Lemma unet1d_lengths (L nfb margin : nat) :
  (0 < nfb)%nat ->
  unet1d "tensorflow" [L] nfb margin
  = if decide (2 * (L / 2 / 2 / 2 / 2) = L / 2 / 2 / 2)%nat then
      if decide (2 * (L / 2 / 2 / 2) = L / 2 / 2)%nat then
        if decide (2 * (L / 2 / 2) = L / 2)%nat then
          if decide (2 * (L / 2) = L)%nat then
            Ok {| Keras.input_shape := [L]; Keras.output_shape := [L] |}
          else Raise PyError
        else Raise PyError
      else Raise PyError
    else Raise PyError.
Proof.
  intros Hnfb.
  unfold unet1d. change (negb (String.eqb "tensorflow" "tensorflow")) with false.
  cbv beta iota zeta. unfold up_layer, Keras.expand_dims_last. rewrite and_then_Ok.
  change ([L] ++ [1%nat]) with [L; 1%nat]. repeat layers.
  rewrite concatenate_2. destruct (decide _) as [E3|]; [|done]. rewrite E3. repeat layers.
  rewrite concatenate_2. destruct (decide _) as [E2|]; [|done]. rewrite E2. repeat layers.
  rewrite concatenate_2. destruct (decide _) as [E1|]; [|done]. rewrite E1. repeat layers.
  rewrite concatenate_2. destruct (decide _) as [E0|]; [|done]. rewrite E0. repeat layers.
  rewrite Conv1D_1_1 by lia. rewrite and_then_Ok, MaxPooling1D_same_1, and_then_Ok.
  reflexivity.
Qed.

Lemma unet1d_no_filters (L margin : nat) : unet1d "tensorflow" [L] 0 margin = Raise PyError.
Proof. reflexivity. Qed.


